(** * anori grid engine: a shallow embedding of [src/utils/grid.ts]

    The grid-packing functions of the widget board are embedded as Rocq
    functions and the properties of the specification are proved about
    them.

    Conventions of the embedding.
    - A JavaScript [number] holding a cell coordinate, an extent or a
      count is an integer ([Z]).
    - A [number] holding pixels is a value of a type that comes with
      the operations that the snap resolver uses ([PixelNumbers]): the
      doubles, which are the numbers of JavaScript, and the real
      numbers, which are the values that the doubles stand for.
      [Array.prototype.sort] is the stable sort by the sign of the
      comparator.
    - A JavaScript array is its [length] together with its own
      properties keyed by integers ([JsArray]): reading a key that was
      never written gives [undefined] ([None]), writing a key at or past
      the length extends the array, writing a negative key adds a
      property and leaves the length alone.
    - A thrown exception is the [Err] outcome of [Result]. [Array(n)]
      throws unless [n] is an array length, from 0 to [2 ** 32 - 1];
      running out of memory is not modelled.
    - Objects compared with [!==] carry their identity ([addr]).
    - The arrays that the repair creates and pushes to live in a heap of
      arrays and are known by reference; the functions that only read
      their layout take its elements.
    - The numbers that the measuring code computes with may be [NaN] or
      infinite: they are values of a type that comes with their order
      and with the operations that the code uses ([JsNumbers]).
    - Of [src/components/ScrollArea.tsx] the part that reports the
      overflow status is embedded: the refs of the component are a
      state that is passed along, and a call of a callback of the props
      is an entry in the list of calls. *)

From Stdlib Require Import Floats.
From Stdlib Require Import ZArith Lia Reals Lra Permutation Sorted.
From stdpp Require Import gmap list sorting.

Local Open Scope Z_scope.

(** ** Exceptions *)

Inductive JsError : Type :=
  | OverlapError   (* new Error('elements in layout have overlay') *)
  | RangeError     (* Array(n) with an n that is no array length *)
  | TypeError.     (* property read on undefined *)

Inductive Result (A : Type) : Type :=
  | OK (a : A)
  | Err (e : JsError).
Arguments OK {A} a.
Arguments Err {A} e.

#[global] Instance Result_ret : MRet Result := fun A a => OK a.
#[global] Instance Result_bind : MBind Result := fun A B f r =>
  match r with
  | OK a => f a
  | Err e => Err e
  end.

Fixpoint foldM {A B : Type} (f : B -> A -> Result B) (b : B) (l : list A)
  : Result B :=
  match l with
  | [] => OK b
  | a :: l' => b' ← f b a; foldM f b' l'
  end.

(** ** JavaScript arrays *)

Record JsArray (A : Type) : Type := {
  arrayLength : Z;
  slots : gmap Z A
}.
Arguments arrayLength {A} _.
Arguments slots {A} _.

(** [arr[i]] *)
Definition get {A : Type} (arr : JsArray A) (i : Z) : option A :=
  slots arr !! i.

(** [arr[i] = v] *)
Definition set {A : Type} (arr : JsArray A) (i : Z) (v : A) : JsArray A :=
  {| arrayLength := if decide (arrayLength arr <= i) then i + 1
                    else arrayLength arr;
     slots := <[i := v]> (slots arr) |}.

(** The object held in slot [i] was mutated in place and is now [v]. *)
Definition mutated {A : Type} (arr : JsArray A) (i : Z) (v : A) : JsArray A :=
  {| arrayLength := arrayLength arr; slots := <[i := v]> (slots arr) |}.

(** An array literal with the elements of [l]. *)
Definition fromList {A : Type} (l : list A) : JsArray A :=
  {| arrayLength := Z.of_nat (length l); slots := map_seqZ 0 l |}.

(** The greatest length of an array, [2 ** 32 - 1]. *)
Definition maxArrayLength : Z := 4294967295.

(** [Array(n)] returns for the integers [n] from 0 to [2 ** 32 - 1] and
    throws a RangeError for every other. *)
Definition isArrayLength (n : Z) : bool :=
  (0 <=? n) && (n <=? maxArrayLength).

(** Truthiness of a value read from a [boolean[]]. *)
Definition truthy (v : option bool) : bool :=
  match v with
  | Some b => b
  | None => false
  end.

(** ** Data model *)

(** [GridDimensions], the pixels of [boxSize] being of type [B]. *)
Record GridDimensionsOf (B : Type) : Type := {
  boxSize : B;
  columns : Z;
  rows : Z;
  minColumns : Z;
  minRows : Z
}.
Arguments Build_GridDimensionsOf {B} (boxSize)%_R_scope columns rows
  minColumns minRows.
Arguments boxSize {B} _.
Arguments columns {B} _.
Arguments rows {B} _.
Arguments minColumns {B} _.
Arguments minRows {B} _.

(** The functions on cells do not read [boxSize]: they are given a grid
    whose [boxSize] is a real number. *)
Abbreviation GridDimensions := (GridDimensionsOf R).

Record LayoutItemSize : Type := {
  width : Z;
  height : Z
}.

Record Position : Type := {
  x : Z;
  y : Z
}.

Record PixelPosition (B : Type) : Type := {
  pixelX : B;
  pixelY : B
}.
Arguments Build_PixelPosition {B} (pixelX pixelY)%_R_scope.
Arguments pixelX {B} _.
Arguments pixelY {B} _.

(** [Position & LayoutItemSize & T] *)
Record LayoutItem (T : Type) : Type := {
  itemPosition : Position;
  itemSize : LayoutItemSize;
  payload : T
}.
Arguments itemPosition {T} _.
Arguments itemSize {T} _.
Arguments payload {T} _.

Definition Layout (T : Type) : Type := list (LayoutItem T).

Definition Grid2DArray : Type := JsArray (JsArray bool).

(** [{ ...item, ...position }] *)
Definition withPosition {T : Type} (item : LayoutItem T) (p : Position)
  : LayoutItem T :=
  {| itemPosition := p; itemSize := itemSize item; payload := payload item |}.

(** [{ ...item, x: j, y: i }] for an [item] that is only a size *)
Definition sizeAt (item : LayoutItemSize) (p : Position) : LayoutItem unit :=
  {| itemPosition := p; itemSize := item; payload := tt |}.

(** ** Occupancy *)

(** The cells [{x: i, y: j}] in the order of the two loops: [i] from
    [item.x] while [i < item.x + item.width], and for each [i], [j] from
    [item.y] while [j < item.y + item.height]. *)
Definition layoutItemToSectors {T : Type} (item : LayoutItem T)
  : list Position :=
  i ← seqZ (x (itemPosition item)) (width (itemSize item));
  j ← seqZ (y (itemPosition item)) (height (itemSize item));
  [ {| x := i; y := j |} ].

(** [[...Array(grid.rows)].map(() => [...Array(grid.columns)].map(() => false))]:
    [Array(n)] throws unless [n] is an array length; the inner one runs
    once per row. *)
Definition emptyGrid (grid : GridDimensions) : Result Grid2DArray :=
  if negb (isArrayLength (rows grid)) then Err RangeError
  else if (0 <? rows grid) && negb (isArrayLength (columns grid))
  then Err RangeError
  else OK (fromList (replicate (Z.to_nat (rows grid))
                       (fromList (replicate (Z.to_nat (columns grid)) false)))).

(** The body of the [forEach] over the sectors of one item. *)
Definition markSector (grid : GridDimensions) (allowOverlay : bool)
    (arr : Grid2DArray) (s : Position) : Result Grid2DArray :=
  if (columns grid <=? x s) || (rows grid <=? y s) then OK arr
  else match get arr (y s) with
       | None => Err TypeError
       | Some row =>
           if truthy (get row (x s)) && negb allowOverlay
           then Err OverlapError
           else OK (mutated arr (y s) (set row (x s) true))
       end.

(** The items in layout order, the sectors of each in their order. *)
Definition layoutTo2DArray {T : Type} (grid : GridDimensions)
    (layout : Layout T) (allowOverlay : bool) : Result Grid2DArray :=
  arr ← emptyGrid grid;
  foldM (fun arr item =>
           foldM (markSector grid allowOverlay) arr (layoutItemToSectors item))
        arr layout.

(** The loop of [willItemOverlay] over the remaining sectors. *)
Fixpoint overlayLoop (arr : Grid2DArray) (sectors : list Position)
  : Result bool :=
  match sectors with
  | [] => OK false
  | sector :: rest =>
      if arrayLength arr <=? y sector then overlayLoop arr rest
      else match get arr (y sector) with
           | None => Err TypeError
           | Some row =>
               if arrayLength row <=? x sector then overlayLoop arr rest
               else if truthy (get row (x sector)) then OK true
               else overlayLoop arr rest
           end
  end.

Definition willItemOverlay {T : Type} (arr : Grid2DArray)
    (item : LayoutItem T) : Result bool :=
  overlayLoop arr (layoutItemToSectors item).

Definition canPlaceItemInGrid {T : Type} (grid : GridDimensions)
    (layout : Layout T) (item : LayoutItemSize) (position : Position)
  : Result bool :=
  let outOfBounds := (columns grid <? x position + width item)
                     || (rows grid <? y position + height item) in
  if outOfBounds then OK false
  else
    arr ← layoutTo2DArray grid layout false;
    overlay ← willItemOverlay arr (sizeAt item position);
    if (overlay : bool) then OK false else OK true.

(** ** Placement search *)

(** The inner loop of [findPositionForItemInGrid] over the columns [js]
    that are left in row [i]. *)
Fixpoint scanRow (grid : GridDimensions) (arr : Grid2DArray)
    (item : LayoutItemSize) (i : Z) (row : JsArray bool) (js : list Z)
  : Result (option Position) :=
  match js with
  | [] => OK None
  | j :: js' =>
      if truthy (get row j) then scanRow grid arr item i row js'
      else
        overlay ← willItemOverlay arr (sizeAt item {| x := j; y := i |});
        let overflow := (columns grid <? j + width item)
                        || (rows grid <? i + height item) in
        if (overlay : bool) || overflow then scanRow grid arr item i row js'
        else OK (Some {| x := j; y := i |})
  end.

(** The outer loop over the rows [ys] that are left. *)
Fixpoint scanRows (grid : GridDimensions) (arr : Grid2DArray)
    (item : LayoutItemSize) (ys : list Z) : Result (option Position) :=
  match ys with
  | [] => OK None
  | i :: ys' =>
      match get arr i with
      | None => Err TypeError
      | Some row =>
          found ← scanRow grid arr item i row (seqZ 0 (arrayLength row));
          match found with
          | Some p => OK (Some p)
          | None => scanRows grid arr item ys'
          end
      end
  end.

(** [false | Position] is [option Position]. *)
Definition findPositionForItemInGrid {T : Type} (grid : GridDimensions)
    (layout : Layout T) (item : LayoutItemSize) : Result (option Position) :=
  arr ← layoutTo2DArray grid layout false;
  scanRows grid arr item (seqZ 0 (arrayLength arr)).

(** ** Snap resolver *)

(** What the snap resolver uses of the numbers that hold pixels: the
    number that a cell coordinate is, [a * b], [a - b],
    [Math.hypot(a, b)], and the sign of a number, which is below, at or
    above zero unless it is [NaN]. *)
Class PixelNumbers (B : Type) : Type := {
  ofCell : Z -> B;
  times : B -> B -> B;
  minus : B -> B -> B;
  Math_hypot : B -> B -> B;
  sign : B -> option comparison
}.

(** The numbers of JavaScript are the doubles. [Math.hypot], whose
    accuracy ECMAScript leaves to the implementation, is taken to be the
    square root of the sum of the squares, each operation rounding;
    what is proved of the resolver is proved for every [PixelNumbers],
    whatever its [Math.hypot]. A cell coordinate is the double of its
    value. *)
Definition doubleOfCell (n : Z) : float :=
  match n with
  | Z0 => 0%float
  | Zpos _ => PrimFloat.of_uint63 (Uint63.of_Z n)
  | Zneg m => (- PrimFloat.of_uint63 (Uint63.of_Z (Zpos m)))%float
  end.

#[global] Instance doubles : PixelNumbers float := {|
  ofCell := doubleOfCell;
  times := PrimFloat.mul;
  minus := PrimFloat.sub;
  Math_hypot := fun a b => PrimFloat.sqrt (a * a + b * b)%float;
  sign := fun v =>
    match PrimFloat.compare v 0%float with
    | FEq => Some Eq
    | FLt => Some Lt
    | FGt => Some Gt
    | FNotComparable => None
    end
|}.

(** The real numbers are the values that the doubles stand for: no
    operation rounds and no number is [NaN]. *)
#[global] Instance reals : PixelNumbers R := {|
  ofCell := IZR;
  times := Rmult;
  minus := Rminus;
  Math_hypot := fun a b => R_sqrt.sqrt (a * a + b * b)%R;
  sign := fun v =>
    Some (if Rlt_dec v 0%R then Lt else if Rlt_dec 0%R v then Gt else Eq)
|}.

Record SnapPoint (B : Type) : Type := {
  pixelPosition : PixelPosition B;
  position : Position
}.
Arguments pixelPosition {B} _.
Arguments position {B} _.

(** [Math.hypot(p2.x - p1.x, p2.y - p1.y)] *)
Definition distanceBetweenPoints {B : Type} `{PixelNumbers B}
    (p1 p2 : PixelPosition B) : B :=
  Math_hypot (minus (pixelX p2) (pixelX p1)) (minus (pixelY p2) (pixelY p1)).

(** [Array.prototype.sort(compareFn)]: the stable sort, [a] staying in
    front of [b] unless [compareFn(a, b) > 0]. This is the order that
    ECMAScript defines when [compareFn] is a consistent comparator for
    the elements; it leaves the order to the implementation otherwise. *)
Fixpoint sortInsert {A B : Type} `{PixelNumbers B} (compareFn : A -> A -> B)
    (a : A) (l : list A) : list A :=
  match l with
  | [] => [a]
  | b :: l' =>
      match sign (compareFn a b) with
      | Some Gt => b :: sortInsert compareFn a l'
      | _ => a :: b :: l'
      end
  end.

Definition sort {A B : Type} `{PixelNumbers B} (compareFn : A -> A -> B)
    (l : list A) : list A :=
  foldr (sortInsert compareFn) [] l.

Definition snapPoint {B : Type} `{PixelNumbers B} (grid : GridDimensionsOf B)
    (row column : Z) : SnapPoint B :=
  {| pixelPosition := {| pixelX := times (ofCell column) (boxSize grid);
                         pixelY := times (ofCell row) (boxSize grid) |};
     position := {| x := column; y := row |} |}.

(** The [flatMap] over the rows of the [map] over the columns. *)
Definition possibleSnapPoints {B : Type} `{PixelNumbers B}
    (grid : GridDimensionsOf B) : list (SnapPoint B) :=
  row ← seqZ 0 (rows grid);
  column ← seqZ 0 (columns grid);
  [ snapPoint grid row column ].

(** [Array(grid.rows)] and, once per row, [Array(grid.columns)] throw
    unless the length is an array length; [possibleSnapPoints] is then
    sorted by the difference of the distances to [position]. *)
Definition snapToSector {B : Type} `{PixelNumbers B}
    (grid : GridDimensionsOf B) (position : PixelPosition B)
  : Result (list (SnapPoint B)) :=
  if negb (isArrayLength (rows grid)) then Err RangeError
  else if (0 <? rows grid) && negb (isArrayLength (columns grid))
  then Err RangeError
  else OK (sort (fun a b =>
                   minus (distanceBetweenPoints (pixelPosition a) position)
                         (distanceBetweenPoints (pixelPosition b) position))
                (possibleSnapPoints grid)).

Definition positionToPixelPosition {B : Type} `{PixelNumbers B}
    (grid : GridDimensionsOf B) (positon : Position) : PixelPosition B :=
  {| pixelX := times (ofCell (x positon)) (boxSize grid);
     pixelY := times (ofCell (y positon)) (boxSize grid) |}.

(** ** Overflow repair *)

(** A layout item as an object: [addr] is its identity, which is what
    [i !== item] compares. No field of an object is ever assigned. *)
Record Obj (T : Type) : Type := {
  addr : nat;
  fields : LayoutItem T
}.
Arguments addr {T} _.
Arguments fields {T} _.

(** The arrays of layout items that exist: a reference to an array is
    its index in the heap. *)
Abbreviation Heap T := (list (list (Obj T))).

(** The elements of the array behind reference [r]. *)
Definition elements {T : Type} (h : Heap T) (r : nat) : list (Obj T) :=
  default [] (h !! r).

(** A new array with the elements [elems] ([[...a]], [a.filter(f)]):
    its reference and the heap that holds it. *)
Definition newArray {T : Type} (h : Heap T) (elems : list (Obj T))
  : nat * Heap T :=
  (length h, h ++ [elems]).

(** [a.push(o)] on the array behind reference [r]. *)
Definition push {T : Type} (h : Heap T) (r : nat) (o : Obj T) : Heap T :=
  alter (fun elems => elems ++ [o]) r h.

(** The identity of a newly created object: different from the
    identity of every object held by an array. *)
Definition freshAddr {T : Type} (h : Heap T) : nat :=
  S (max_list (addr <$> mjoin h)).

(** [(item.x + item.width > grid.columns) || (item.y + item.height > grid.rows)] *)
Definition overflows {T : Type} (grid : GridDimensions) (item : LayoutItem T)
  : bool :=
  (columns grid <? x (itemPosition item) + width (itemSize item))
  || (rows grid <? y (itemPosition item) + height (itemSize item)).

(** The [for (const item of layout)] loop over the [items] that are left,
    the variable [newLayout] referring to the working copy. The outcome
    is the reference that is returned, or the exception that the search
    threw, together with the heap as the loop leaves it. *)
Fixpoint repairLoop {T : Type} (grid : GridDimensions) (items : list (Obj T))
    (newLayout : nat) (h : Heap T) : Result nat * Heap T :=
  match items with
  | [] => (OK newLayout, h)
  | item :: rest =>
      if negb (overflows grid (fields item))
      then repairLoop grid rest newLayout h
      else
        let '(newLayout, h) :=
          newArray h (filter (fun i => addr i ≠ addr item)
                        (elements h newLayout)) in
        match findPositionForItemInGrid grid
                (fields <$> elements h newLayout)
                (itemSize (fields item)) with
        | Err e => (Err e, h)
        | OK (Some p) =>
            repairLoop grid rest newLayout
              (push h newLayout
                 {| addr := freshAddr h;
                    fields := withPosition (fields item) p |})
        | OK None => repairLoop grid rest newLayout h
        end
  end.

(** [newLayout] starts as [[...layout]]; the loop runs over the elements
    of [layout], an array that no step writes to. *)
Definition fixHorizontalOverflows {T : Type} (grid : GridDimensions)
    (layout : nat) (h : Heap T) : Result nat * Heap T :=
  let '(newLayout, h') := newArray h (elements h layout) in
  repairLoop grid (elements h layout) newLayout h'.

(** ** Measuring the container *)

(** The column width and the extents of the grid are computed from
    measured pixel numbers, which are not kept to integers and may be
    [NaN]. Such a number is [NaN] or a value [v] of a type [V]. *)
Inductive number (V : Type) : Type :=
  | NaN
  | Num (v : V).
Arguments NaN {V}.
Arguments Num {V} v.

(** What the measuring code uses of the numbers: the order of the
    values other than [NaN] (the two zeros being one value),
    [-Infinity], the integers among them, and the operations [a / b],
    [Math.floor] and [Math.round], which are taken as they come. *)
Class JsNumbers (V : Type) : Type := {
  numLe : relation V;
  numLe_dec :: RelDecision numLe;
  negInfinity : V;
  ofInteger : Z -> V;
  divide : number V -> number V -> number V;
  Math_floor : number V -> number V;
  Math_round : number V -> number V
}.

(** The order is total and transitive, [-Infinity] is its least
    element, and the integers are in it in their order. *)
Class JsNumbersLaws (V : Type) `{JsNumbers V} : Prop := {
  numLe_total : forall u v : V, numLe u v \/ numLe v u;
  numLe_trans : forall u v w : V, numLe u v -> numLe v w -> numLe u w;
  negInfinity_least : forall v : V, numLe negInfinity v;
  ofInteger_le : forall a b : Z, numLe (ofInteger a) (ofInteger b) <-> a <= b
}.

(** [Math.max(a, b)] and [Math.min(a, b)]: [NaN] when an argument is. *)
Definition Math_max {V : Type} `{JsNumbers V} (a b : number V) : number V :=
  match a, b with
  | Num u, Num v => if decide (numLe u v) then Num v else Num u
  | _, _ => NaN
  end.

Definition Math_min {V : Type} `{JsNumbers V} (a b : number V) : number V :=
  match a, b with
  | Num u, Num v => if decide (numLe u v) then Num u else Num v
  | _, _ => NaN
  end.

(** [Math.max(...values)]: [-Infinity] when there is no value. *)
Definition Math_max_of {V : Type} `{JsNumbers V} (values : list (number V))
  : number V :=
  foldl Math_max (Num negInfinity) values.

(** [Number.isNaN(a)] *)
Definition isNaN {V : Type} (a : number V) : bool :=
  match a with
  | NaN => true
  | Num _ => false
  end.

Definition calculateColumnWidth {V : Type} `{JsNumbers V}
    (containerWidth desiredSize minBoxSize : number V) : number V :=
  let columns := Math_round (divide containerWidth desiredSize) in
  let colWidth :=
    Math_min (Math_max (Math_floor (divide containerWidth columns)) minBoxSize)
             desiredSize in
  if isNaN colWidth then desiredSize else colWidth.

(** A DOM element, as far as the code reads it: its client and scroll
    sizes, which are integers. *)
Record Element : Type := {
  clientWidth : Z;
  clientHeight : Z;
  scrollWidth : Z;
  scrollHeight : Z
}.

(** The rectangle that [el.getBoundingClientRect()] returns. *)
Record DOMRect (V : Type) : Type := {
  rectLeft : number V;
  rectTop : number V;
  rectWidth : number V;
  rectHeight : number V
}.
Arguments rectLeft {V} _.
Arguments rectTop {V} _.
Arguments rectWidth {V} _.
Arguments rectHeight {V} _.

(** An element that can be measured. *)
Record HTMLElement (V : Type) : Type := {
  element : Element;
  getBoundingClientRect : DOMRect V
}.
Arguments element {V} _.
Arguments getBoundingClientRect {V} _.

(** The object that [calculateDimensions] returns: the fields of
    [GridDimensions] as measured, [position] (its [x] and [y]) and
    [pixelSize]. *)
Record MeasuredDimensions (V : Type) : Type := {
  measuredBoxSize : number V;
  measuredColumns : number V;
  measuredRows : number V;
  measuredMinColumns : number V;
  measuredMinRows : number V;
  measuredPosition : number V * number V;
  measuredPixelSize : LayoutItemSize
}.
Arguments measuredBoxSize {V} _.
Arguments measuredColumns {V} _.
Arguments measuredRows {V} _.
Arguments measuredMinColumns {V} _.
Arguments measuredMinRows {V} _.
Arguments measuredPosition {V} _.
Arguments measuredPixelSize {V} _.

(** [calculateDimensions] of [useGrid], for the [desiredSize],
    [minSize] and [layout] that the hook was called with; the message
    that it logs is left out. *)
Definition calculateDimensions {V T : Type} `{JsNumbers V}
    (desiredSize minSize : number V) (layout : Layout T) (el : HTMLElement V)
  : MeasuredDimensions V :=
  let box := getBoundingClientRect el in
  let scrollWidth := scrollWidth (element el) in
  let scrollHeight := scrollHeight (element el) in
  let boxSize := calculateColumnWidth (rectWidth box) desiredSize minSize in
  let minColumns := Math_floor (divide (rectWidth box) boxSize) in
  let minRows := Math_floor (divide (rectHeight box) boxSize) in
  let maxColOccupied :=
    Math_max_of ((fun i => Num (ofInteger (x (itemPosition i)
                                           + width (itemSize i))))
                 <$> layout) in
  let maxRowOccupied :=
    Math_max_of ((fun i => Num (ofInteger (y (itemPosition i)
                                           + height (itemSize i))))
                 <$> layout) in
  let columns := Math_max minColumns maxColOccupied in
  let rows := Math_max minRows maxRowOccupied in
  {| measuredBoxSize := boxSize;
     measuredColumns := columns;
     measuredRows := rows;
     measuredMinColumns := minColumns;
     measuredMinRows := minRows;
     measuredPosition := (rectLeft box, rectTop box);
     measuredPixelSize := {| width := scrollWidth; height := scrollHeight |} |}.

(** ** The overflow status of the scroll area

    [src/components/ScrollArea.tsx]: the part that watches the size of
    the content and tells the owner of the component when the viewport
    starts or stops overflowing. *)

Definition checkVerticalOverflow (el : Element) : bool :=
  clientHeight el <? scrollHeight el.

Definition checkHorizontalOverflow (el : Element) : bool :=
  clientWidth el <? scrollWidth el.

(** The two refs that keep the last status: [horizontalOverflowRef.current]
    and [verticalOverflowRef.current]. *)
Record OverflowRefs : Type := {
  horizontalOverflowRef : bool;
  verticalOverflowRef : bool
}.

(** [useRef(false)] for both. *)
Definition initialRefs : OverflowRefs :=
  {| horizontalOverflowRef := false; verticalOverflowRef := false |}.

(** The two callbacks of the props: whether each is given. *)
Record ScrollAreaProps : Type := {
  onHorizontalOverflowStatusChange : bool;
  onVerticalOverflowStatusChange : bool
}.

(** A call of a callback of the props, with its argument. *)
Inductive CallbackCall : Type :=
  | HorizontalOverflowStatusChange (status : bool)
  | VerticalOverflowStatusChange (status : bool).

(** [onContentResize], [viewport] being [viewportRef.current] ([None]
    for [null]): the calls it makes, in their order, and the refs as it
    leaves them. The callbacks are taken to return. *)
Definition onContentResize (props : ScrollAreaProps)
    (viewport : option Element) (refs : OverflowRefs)
  : list CallbackCall * OverflowRefs :=
  match viewport with
  | None => ([], refs)
  | Some el =>
      let newHorizontalOverflow := checkHorizontalOverflow el in
      let newVerticalOverflow := checkVerticalOverflow el in
      ((if negb (eqb newHorizontalOverflow (horizontalOverflowRef refs))
           && onHorizontalOverflowStatusChange props
        then [HorizontalOverflowStatusChange newHorizontalOverflow] else [])
       ++ (if negb (eqb newVerticalOverflow (verticalOverflowRef refs))
              && onVerticalOverflowStatusChange props
           then [VerticalOverflowStatusChange newVerticalOverflow] else []),
       {| horizontalOverflowRef := newHorizontalOverflow;
          verticalOverflowRef := newVerticalOverflow |})
  end.

(** The resizes that the observer reports, one after the other, each
    with the viewport of that moment. *)
Fixpoint resizes (props : ScrollAreaProps) (viewports : list (option Element))
    (refs : OverflowRefs) : list CallbackCall * OverflowRefs :=
  match viewports with
  | [] => ([], refs)
  | viewport :: rest =>
      let '(calls, refs) := onContentResize props viewport refs in
      let '(calls', refs) := resizes props rest refs in
      (calls ++ calls', refs)
  end.

(** ** Vocabulary of the properties *)

(** The two calls of [Array] return: [rows] is an array length, and so
    is [columns] unless there is no row. *)
Definition buildable {B : Type} (grid : GridDimensionsOf B) : Prop :=
  0 <= rows grid < 2 ^ 32
  /\ (rows grid = 0 \/ 0 <= columns grid < 2 ^ 32).

#[global] Instance buildable_dec {B : Type} (grid : GridDimensionsOf B)
  : Decision (buildable grid).
Proof. unfold buildable. apply _. Defined.

(** Cell [(cx, cy)] belongs to the footprint of [item]. *)
Definition covers {T : Type} (item : LayoutItem T) (cx cy : Z) : Prop :=
  x (itemPosition item) <= cx < x (itemPosition item) + width (itemSize item)
  /\ y (itemPosition item) <= cy < y (itemPosition item) + height (itemSize item).

(** What reading [arr[cy][cx]] as a condition gives when row [cy] exists. *)
Definition occupied (arr : Grid2DArray) (cx cy : Z) : bool :=
  truthy (row ← get arr cy; get row cx).

(** Cell [(cx, cy)] is an element of the matrix. *)
Definition inMatrix (arr : Grid2DArray) (cx cy : Z) : Prop :=
  0 <= cy < arrayLength arr
  /\ exists row, get arr cy = Some row /\ 0 <= cx < arrayLength row.

(** A [boolean[]] without holes; [plain] when it also has no property
    besides its elements. *)
Definition denseRow (row : JsArray bool) : Prop :=
  forall cx, 0 <= cx < arrayLength row -> is_Some (get row cx).

Definition plainRow (row : JsArray bool) : Prop :=
  forall cx, is_Some (get row cx) <-> 0 <= cx < arrayLength row.

(** A [boolean[][]] without holes. *)
Definition denseMatrix (arr : Grid2DArray) : Prop :=
  forall cy, 0 <= cy < arrayLength arr ->
    exists row, get arr cy = Some row /\ denseRow row.

Definition plainMatrix (arr : Grid2DArray) : Prop :=
  forall cy, 0 <= cy < arrayLength arr ->
    exists row, get arr cy = Some row /\ plainRow row.

(** The matrix has the extent of [grid]. *)
Definition hasDimensions (grid : GridDimensions) (arr : Grid2DArray) : Prop :=
  arrayLength arr = rows grid
  /\ (forall cy, is_Some (get arr cy) <-> 0 <= cy < rows grid)
  /\ forall cy row, get arr cy = Some row ->
       arrayLength row = columns grid /\ denseRow row.

(** [item] cut down to the part of its footprint that is left of column
    [columns] and above row [rows]. *)
Definition clipItem {T : Type} (grid : GridDimensions) (item : LayoutItem T)
  : LayoutItem T :=
  {| itemPosition := itemPosition item;
     itemSize :=
       {| width := Z.min (width (itemSize item))
                         (columns grid - x (itemPosition item));
          height := Z.min (height (itemSize item))
                          (rows grid - y (itemPosition item)) |};
     payload := payload item |}.

(** Origin [p] is a cell of the grid. *)
Definition inGrid (grid : GridDimensions) (p : Position) : Prop :=
  0 <= x p < columns grid /\ 0 <= y p < rows grid.

(** An item of size [item] put at [p] stays inside the grid. *)
Definition fitsGrid (grid : GridDimensions) (item : LayoutItemSize)
    (p : Position) : Prop :=
  0 <= x p /\ 0 <= y p
  /\ x p + width item <= columns grid /\ y p + height item <= rows grid.

(** An item of size [item] put at [p] covers no occupied cell. *)
Definition collisionFree (arr : Grid2DArray) (item : LayoutItemSize)
    (p : Position) : Prop :=
  forall cx cy, covers (sizeAt item p) cx cy -> occupied arr cx cy = false.

(** What the scan asks of an origin [p] before it returns it: the cell
    at [p] is free, the item stays inside the grid and covers no
    occupied cell. *)
Definition accepted (grid : GridDimensions) (arr : Grid2DArray)
    (item : LayoutItemSize) (p : Position) : Prop :=
  occupied arr (x p) (y p) = false
  /\ fitsGrid grid item p
  /\ collisionFree arr item p.

(** Scan order: top to bottom, then left to right. *)
Definition rowMajorLt (p q : Position) : Prop :=
  y p < y q \/ (y p = y q /\ x p < x q).

Definition rowMajorLe (p q : Position) : Prop :=
  y p < y q \/ (y p = y q /\ x p <= x q).

(** The distance from the pixel position of [a] to [q], as it is
    computed: [Math.hypot] of the differences of the coordinates. *)
Definition distanceTo {B : Type} `{PixelNumbers B} (q : PixelPosition B)
    (a : SnapPoint B) : B :=
  Math_hypot (minus (pixelX q) (pixelX (pixelPosition a)))
             (minus (pixelY q) (pixelY (pixelPosition a))).

(** The number that ranks [a] against [b] around [q]: the difference of
    their computed distances. *)
Definition distanceDifference {B : Type} `{PixelNumbers B}
    (q : PixelPosition B) (a b : SnapPoint B) : B :=
  minus (distanceTo q a) (distanceTo q b).

(** The number [v] is below ([Lt]), at ([Eq]) or above ([Gt]) zero. *)
Definition signIs {B : Type} `{PixelNumbers B} (c : comparison) (v : B)
  : bool :=
  match sign v, c with
  | Some Lt, Lt | Some Eq, Eq | Some Gt, Gt => true
  | _, _ => false
  end.

(** [compareFn] is a consistent comparator for [values], as ECMAScript
    has it: its result is never [NaN]; a value is equal to itself, and
    being equal is symmetric and transitive; being less is transitive,
    and so is being greater. *)
Definition consistentComparator {A B : Type} `{PixelNumbers B}
    (compareFn : A -> A -> B) (values : list A) : bool :=
  let holds c a b := signIs c (compareFn a b) in
  forallb (fun a => forallb (fun b => forallb (fun c =>
    (holds Lt a b || holds Eq a b || holds Gt a b)
    && holds Eq a a
    && implb (holds Eq a b) (holds Eq b a)
    && implb (holds Eq a b && holds Eq b c) (holds Eq a c)
    && implb (holds Lt a b && holds Lt b c) (holds Lt a c)
    && implb (holds Gt a b && holds Gt b c) (holds Gt a c))
    values) values) values.

(** [a] has its place in front of [b] in a list sorted by [compareFn]
    that was in the order [before]: [compareFn(a, b)] is negative, or it
    is zero and [a] was in front already. *)
Definition rankedBy {A B : Type} `{PixelNumbers B} (compareFn : A -> A -> B)
    (before : relation A) (a b : A) : Prop :=
  sign (compareFn a b) = Some Lt
  \/ (sign (compareFn a b) = Some Eq /\ before a b).

(** The order of the row-major enumeration of the snap points. *)
Definition enumeratedBefore {B : Type} (a b : SnapPoint B) : Prop :=
  rowMajorLt (position a) (position b).

(** [a] has its place in front of [b] in the ranking around [q]: its
    computed distance is smaller, or it is the same and [a] is earlier
    in the row-major enumeration. *)
Definition rankedBefore {B : Type} `{PixelNumbers B} (q : PixelPosition B)
  : relation (SnapPoint B) :=
  rankedBy (distanceDifference q) enumeratedBefore.

(** The items of [layout] whose footprint overflows the grid
    ([x + width > columns] or [y + height > rows]), in layout order. *)
Definition overflowing {T : Type} (grid : GridDimensions)
    (layout : list (Obj T)) : list (Obj T) :=
  filter (fun i =>
            x (itemPosition (fields i)) + width (itemSize (fields i))
            > columns grid
            \/ y (itemPosition (fields i)) + height (itemSize (fields i))
               > rows grid) layout.

(** [layout] without the objects of [gone], in layout order. *)
Definition remaining {T : Type} (layout gone : list (Obj T)) : list (Obj T) :=
  filter (fun i => addr i ∉ addr <$> gone) layout.

(** The objects that the outcomes of the visits created, in order. *)
Definition created {T : Type} (outcomes : list (option (Obj T)))
  : list (Obj T) :=
  omap (fun o => o) outcomes.

(** What became of the overflowing [item], searched against the working
    copy [work]: [Some new] when a slot [p] was found, [new] being a new
    object at [p] with the size and payload of [item], [None] when there
    was no slot. *)
Definition stepOutcome {T : Type} (grid : GridDimensions)
    (layout work : list (Obj T)) (item : Obj T) (outcome : option (Obj T))
  : Prop :=
  match outcome with
  | Some new =>
      exists p,
        findPositionForItemInGrid grid (fields <$> work)
          (itemSize (fields item)) = OK (Some p)
        /\ itemPosition (fields new) = p
        /\ itemSize (fields new) = itemSize (fields item)
        /\ payload (fields new) = payload (fields item)
        /\ addr new ∉ addr <$> (layout ++ work)
  | None =>
      findPositionForItemInGrid grid (fields <$> work)
        (itemSize (fields item)) = OK None
  end.

(** The order in which [layoutItemToSectors] lists cells: by column,
    and by row within a column. *)
Definition columnMajorLt (s t : Position) : Prop :=
  x s < x t \/ (x s = x t /\ y s < y t).

(** Cell [(cx, cy)] is one that [layoutTo2DArray] writes for [item]: a
    cell of the footprint left of column [columns] and above row [rows]. *)
Definition marks {T : Type} (grid : GridDimensions) (item : LayoutItem T)
    (cx cy : Z) : Prop :=
  covers item cx cy /\ cx < columns grid /\ cy < rows grid.

(** No cell that is written for [a] belongs to [b]. *)
Definition disjointInGrid {T : Type} (grid : GridDimensions)
    (a b : LayoutItem T) : Prop :=
  forall cx cy, marks grid a cx cy -> ~ covers b cx cy.

(** No cell that is written for [item] lies in a row above row 0. *)
Definition rowsFromZero {T : Type} (grid : GridDimensions)
    (item : LayoutItem T) : Prop :=
  forall cx cy, marks grid item cx cy -> 0 <= cy.

(** A row of a matrix of [grid] holds nothing but marks outside the
    columns of the grid. *)
Definition marksOutside (grid : GridDimensions) (arr : Grid2DArray) : Prop :=
  forall cy row cx b,
    get arr cy = Some row -> get row cx = Some b ->
    0 <= cx < columns grid \/ b = true.

(** The statuses that the vertical callback, or the horizontal one, was
    called with, in the order of the calls. *)
Definition verticalCalls (calls : list CallbackCall) : list bool :=
  omap (fun c => match c with
                 | VerticalOverflowStatusChange status => Some status
                 | HorizontalOverflowStatusChange _ => None
                 end) calls.

Definition horizontalCalls (calls : list CallbackCall) : list bool :=
  omap (fun c => match c with
                 | HorizontalOverflowStatusChange status => Some status
                 | VerticalOverflowStatusChange _ => None
                 end) calls.

(** Each status of the list is the opposite of the one before it, the
    first being the opposite of [previous]. *)
Fixpoint alternates (previous : bool) (statuses : list bool) : Prop :=
  match statuses with
  | [] => True
  | status :: rest => status = negb previous /\ alternates status rest
  end.

(** The status of the last viewport that was there to be measured,
    [previous] when there was none. *)
Definition lastStatus (check : Element -> bool) (previous : bool)
    (viewports : list (option Element)) : bool :=
  foldl (fun status viewport =>
           match viewport with
           | Some el => check el
           | None => status
           end) previous viewports.

(** ** Values for the scenarios *)

Definition grid3 : GridDimensions :=
  {| boxSize := 10; columns := 3; rows := 3; minColumns := 3; minRows := 3 |}.

Definition grid1 : GridDimensions :=
  {| boxSize := 10; columns := 1; rows := 1; minColumns := 1; minRows := 1 |}.

Definition grid2 : GridDimensions :=
  {| boxSize := 10; columns := 2; rows := 2; minColumns := 2; minRows := 2 |}.

Definition mkItem (a b w h : Z) : LayoutItem unit :=
  {| itemPosition := {| x := a; y := b |};
     itemSize := {| width := w; height := h |};
     payload := tt |}.

Definition mkSize (w h : Z) : LayoutItemSize := {| width := w; height := h |}.

Definition mkObj (n : nat) (a b w h : Z) : Obj unit :=
  {| addr := n; fields := mkItem a b w h |}.

(** Numbers for the scenarios: the integers with [-Infinity], which is
    [None]; the quotient is rounded down, and is [NaN] for a divisor
    that is 0 or [-Infinity]. *)
Definition integerLe (u v : option Z) : Prop :=
  match u, v with
  | None, _ => True
  | Some _, None => False
  | Some a, Some b => a <= b
  end.

#[global] Instance integerLe_dec : RelDecision integerLe.
Proof.
  intros [a|] [b|]; simpl; apply _.
Defined.

#[global] Instance integerNumbers : JsNumbers (option Z) := {|
  numLe := integerLe;
  negInfinity := None;
  ofInteger := Some;
  divide := fun a b =>
    match a, b with
    | Num (Some u), Num (Some v) => if decide (v = 0) then NaN
                                    else Num (Some (u / v))
    | _, _ => NaN
    end;
  Math_floor := fun a => a;
  Math_round := fun a => a
|}.

(** An element of 30 by 45 pixels at [(8, 16)]. *)
Definition measuredElement : HTMLElement (option Z) :=
  {| element := {| clientWidth := 30; clientHeight := 45;
                   scrollWidth := 30; scrollHeight := 45 |};
     getBoundingClientRect :=
       {| rectLeft := Num (Some 8); rectTop := Num (Some 16);
          rectWidth := Num (Some 30); rectHeight := Num (Some 45) |} |}.

(** Viewports of 100 by 100 pixels, one with content of 100 by 250
    pixels, one with content that fits. *)
Definition tallContent : Element :=
  {| clientWidth := 100; clientHeight := 100;
     scrollWidth := 100; scrollHeight := 250 |}.

Definition fittingContent : Element :=
  {| clientWidth := 100; clientHeight := 100;
     scrollWidth := 100; scrollHeight := 100 |}.

(** The 2 x 2 grid with boxes of 10 pixels, in doubles. *)
Definition squareOfFour : GridDimensionsOf float :=
  {| boxSize := 10%float; columns := 2; rows := 2;
     minColumns := 2; minRows := 2 |}.

(** One row of two cells with boxes of 1 pixel, in doubles. *)
Definition rowOfTwo : GridDimensionsOf float :=
  {| boxSize := 1%float; columns := 2; rows := 1;
     minColumns := 2; minRows := 1 |}.

(** * Scenarios *)

(** The 3 x 3 grid with a 2 x 2 item at the origin: the first free cell
    in row-major order takes a 1 x 1 item. *)
Example find_example :
  findPositionForItemInGrid grid3 [mkItem 0 0 2 2] (mkSize 1 1)
  = OK (Some {| x := 2; y := 0 |}).
Proof.
  vm_compute. reflexivity.
Qed.

(** An occupied origin is passed over before anything else is looked at,
    also for an item without cells. *)
Example find_empty_item_example :
  findPositionForItemInGrid grid3 [mkItem 0 0 2 2] (mkSize 0 0)
  = OK (Some {| x := 2; y := 0 |}).
Proof.
  vm_compute. reflexivity.
Qed.

(** No 2 x 2 slot is left: not found. *)
Example find_nothing_example :
  findPositionForItemInGrid grid3 [mkItem 0 0 2 2; mkItem 2 2 1 1] (mkSize 2 2)
  = OK None.
Proof.
  vm_compute. reflexivity.
Qed.

(** A cell in a row above the grid: [arr[-1]] is [undefined]. *)
Example negative_row_example :
  layoutTo2DArray grid3 [mkItem 0 (-1) 1 1] false = Err TypeError.
Proof.
  vm_compute. reflexivity.
Qed.

(** A cell in a column left of the grid is remembered as the property
    [-1] of its row: the second item finds it marked. *)
Example negative_column_example :
  layoutTo2DArray grid3 [mkItem (-1) 0 1 1; mkItem (-1) 0 1 1] false
  = Err OverlapError.
Proof.
  vm_compute. reflexivity.
Qed.

(** The 2 x 2 grid with a 2 x 2 item at the origin and a second one at
    [(1, 1)], which overflows and finds no slot: it is dropped, and the
    input array is as it was. *)
Example repair_example :
  exists h,
    fixHorizontalOverflows grid2 0 [[mkObj 0 0 0 2 2; mkObj 1 1 1 2 2]]
    = (OK 2%nat, h)
    /\ h !! 0%nat = Some [mkObj 0 0 0 2 2; mkObj 1 1 1 2 2]
    /\ h !! 2%nat = Some [mkObj 0 0 0 2 2].
Proof.
  eexists. repeat split; vm_compute; reflexivity.
Qed.

(** The second item overflows and moves to [(0, 2)], where the third,
    which overflows too, still leaves room; the third then finds no
    slot. *)
Example repair_example_relocated :
  exists r h,
    fixHorizontalOverflows grid3 0
      [[mkObj 0 0 0 2 2; mkObj 1 2 2 2 1; mkObj 2 2 1 2 2]] = (OK r, h)
    /\ h !! r = Some [mkObj 0 0 0 2 2; mkObj 3 0 2 2 1].
Proof.
  do 2 eexists. split; vm_compute; reflexivity.
Qed.

(** The search for the overflowing third item throws, the first two
    lying on top of each other; the input array is as it was. *)
Example repair_example_throws :
  exists h,
    fixHorizontalOverflows grid2 0
      [[mkObj 0 0 0 1 1; mkObj 1 0 0 1 1; mkObj 2 1 1 2 2]]
    = (Err OverlapError, h)
    /\ h !! 0%nat = Some [mkObj 0 0 0 1 1; mkObj 1 0 0 1 1; mkObj 2 1 1 2 2].
Proof.
  eexists. split; vm_compute; reflexivity.
Qed.

(** [canPlaceItemInGrid] answers without building the matrix when the
    item would leave the grid. *)
Example canPlace_example :
  canPlaceItemInGrid grid3 [mkItem 0 0 2 2] (mkSize 1 1) {| x := 2; y := 0 |}
  = OK true
  /\ canPlaceItemInGrid grid3 [mkItem 0 0 2 2] (mkSize 1 1) {| x := 1; y := 1 |}
     = OK false
  /\ canPlaceItemInGrid grid3 [mkItem 0 (-1) 1 1] (mkSize 2 2)
       {| x := 2; y := 2 |}
     = OK false.
Proof.
  repeat split; vm_compute; reflexivity.
Qed.

(** The content grows, is measured again, the viewport is gone for one
    report, and the content shrinks: the owner is called twice. *)
Example resizes_example :
  resizes {| onHorizontalOverflowStatusChange := true;
             onVerticalOverflowStatusChange := true |}
    [Some tallContent; Some tallContent; None; Some fittingContent]
    initialRefs
  = ([VerticalOverflowStatusChange true; VerticalOverflowStatusChange false],
     {| horizontalOverflowRef := false; verticalOverflowRef := false |}).
Proof.
  vm_compute. reflexivity.
Qed.

(** Column widths over the integers: three columns of 333 pixels are cut
    down to the desired 300; a container of width 0 gets the desired
    size, the quotient by 0 columns being [NaN]. *)
Example calculateColumnWidth_example :
  calculateColumnWidth (Num (Some 1000)) (Num (Some 300)) (Num (Some 100))
  = Num (Some 300)
  /\ calculateColumnWidth (Num (Some 0)) (Num (Some 300)) (Num (Some 100))
     = Num (Some 300).
Proof.
  split; vm_compute; reflexivity.
Qed.

(** The scenario of the specification, in doubles: on the 2 x 2 grid
    with boxes of 10 pixels, the candidates around the pixel [(4, 4)]
    come out with cell [(0, 0)] first; the cells [(1, 0)] and [(0, 1)]
    are equally far and stay in row-major order. *)
Example snapToSector_example :
  snapToSector squareOfFour {| pixelX := 4%float; pixelY := 4%float |}
  = OK [snapPoint squareOfFour 0 0; snapPoint squareOfFour 0 1;
        snapPoint squareOfFour 1 0; snapPoint squareOfFour 1 1].
Proof.
  vm_compute. reflexivity.
Qed.

(** A query far below a row of two cells, in doubles: the computed
    distances of the two cells are the same number, and the cells stay
    in row-major order. *)
Example snapToSector_far_example :
  snapToSector rowOfTwo {| pixelX := 0.75%float; pixelY := 1e16%float |}
  = OK [snapPoint rowOfTwo 0 0; snapPoint rowOfTwo 0 1]
  /\ distanceTo {| pixelX := 0.75%float; pixelY := 1e16%float |}
       (snapPoint rowOfTwo 0 0) = 1e16%float
  /\ distanceTo {| pixelX := 0.75%float; pixelY := 1e16%float |}
       (snapPoint rowOfTwo 0 1) = 1e16%float.
Proof.
  repeat split; vm_compute; reflexivity.
Qed.

(** [Array(n)] at the first length that it refuses. *)
Example array_length_example :
  isArrayLength (2 ^ 32 - 1) = true /\ isArrayLength (2 ^ 32) = false
  /\ emptyGrid {| boxSize := 10; columns := 2 ^ 32; rows := 1;
                  minColumns := 0; minRows := 0 |} = Err RangeError
  /\ emptyGrid {| boxSize := 10; columns := 2 ^ 32; rows := 0;
                  minColumns := 0; minRows := 0 |} = OK (fromList []).
Proof.
  repeat split; vm_compute; reflexivity.
Qed.

(** * Lemmas *)

(** ** Outcomes and folds *)

Lemma bind_OK {A B : Type} (r : Result A) (f : A -> Result B) (b : B) :
  r ≫= f = OK b <-> exists a, r = OK a /\ f a = OK b.
Proof.
  destruct r as [a|e]; simpl; split.
  - intros H. exists a. auto.
  - intros (a' & Ha & Hf). congruence.
  - discriminate.
  - intros (a' & Ha & _). discriminate.
Qed.

Lemma bind_Err {A B : Type} (r : Result A) (f : A -> Result B) (e : JsError) :
  r ≫= f = Err e <-> r = Err e \/ exists a, r = OK a /\ f a = Err e.
Proof.
  destruct r as [a|e']; simpl; split.
  - intros H. right. exists a. auto.
  - intros [H|(a' & Ha & Hf)]; congruence.
  - intros H. left. congruence.
  - intros [H|(a' & Ha & _)]; congruence.
Qed.

Lemma foldM_app {A B : Type} (f : B -> A -> Result B) (b : B) (l1 l2 : list A) :
  foldM f b (l1 ++ l2) = foldM f b l1 ≫= fun b' => foldM f b' l2.
Proof.
  revert b. induction l1 as [|a l1 IH]; intros b; simpl; [reflexivity|].
  destruct (f b a) as [b'|e]; simpl; [apply IH|reflexivity].
Qed.

Lemma foldM_bind {A B C : Type} (f : B -> A -> Result B) (g : C -> list A)
    (b : B) (l : list C) :
  foldM (fun b c => foldM f b (g c)) b l = foldM f b (l ≫= g).
Proof.
  revert b. induction l as [|c l IH]; intros b; [reflexivity|].
  rewrite bind_cons, foldM_app. simpl.
  destruct (foldM f b (g c)) as [b'|e]; simpl; [apply IH|reflexivity].
Qed.

(** A fold that skips the elements on which [f] does nothing. *)
Lemma foldM_filter {A B : Type} (f : B -> A -> Result B) (P : A -> Prop)
    `{!forall a, Decision (P a)} (b : B) (l : list A) :
  (forall b a, ~ P a -> f b a = OK b) ->
  foldM f b l = foldM f b (filter P l).
Proof.
  intros Hskip. revert b. induction l as [|a l IH]; intros b; [reflexivity|].
  destruct (decide (P a)) as [Ha|Ha].
  - rewrite filter_cons_True by assumption. simpl.
    destruct (f b a); simpl; [apply IH|reflexivity].
  - rewrite filter_cons_False by assumption. simpl.
    rewrite Hskip by assumption. simpl. apply IH.
Qed.

(** ** Arrays *)

Lemma get_set {A : Type} (arr : JsArray A) (i j : Z) (v : A) :
  get (set arr i v) j = if decide (i = j) then Some v else get arr j.
Proof.
  unfold get, set. simpl. apply lookup_insert.
Qed.

Lemma get_mutated {A : Type} (arr : JsArray A) (i j : Z) (v : A) :
  get (mutated arr i v) j = if decide (i = j) then Some v else get arr j.
Proof.
  unfold get, mutated. simpl. apply lookup_insert.
Qed.

Lemma arrayLength_set {A : Type} (arr : JsArray A) (i : Z) (v : A) :
  i < arrayLength arr -> arrayLength (set arr i v) = arrayLength arr.
Proof.
  intros Hi. unfold set. simpl. case_decide; [lia|reflexivity].
Qed.

Lemma get_fromList {A : Type} (l : list A) (i : Z) :
  get (fromList l) i = if decide (0 <= i) then l !! Z.to_nat i else None.
Proof.
  unfold get, fromList. simpl. rewrite lookup_map_seqZ.
  case_decide.
  - rewrite option_guard_True by assumption. simpl. by rewrite Z.sub_0_r.
  - by rewrite option_guard_False by assumption.
Qed.

Lemma get_fromList_replicate {A : Type} (n : Z) (v : A) (i : Z) :
  get (fromList (replicate (Z.to_nat n) v)) i
  = if decide (0 <= i < n) then Some v else None.
Proof.
  rewrite get_fromList. case_decide as H0; case_decide as H1; try lia.
  - apply lookup_replicate_2. lia.
  - apply lookup_replicate_None. lia.
  - reflexivity.
Qed.

Lemma occupied_row (arr : Grid2DArray) (row : JsArray bool) (cx cy : Z) :
  get arr cy = Some row -> occupied arr cx cy = truthy (get row cx).
Proof.
  intros H. unfold occupied. rewrite H. reflexivity.
Qed.

(** ** The empty matrix *)

Lemma isArrayLength_true (n : Z) :
  isArrayLength n = true <-> 0 <= n < 2 ^ 32.
Proof.
  unfold isArrayLength, maxArrayLength.
  rewrite andb_true_iff, !Z.leb_le. lia.
Qed.

Lemma isArrayLength_false (n : Z) :
  isArrayLength n = false <-> n < 0 \/ 2 ^ 32 <= n.
Proof.
  unfold isArrayLength, maxArrayLength.
  rewrite andb_false_iff, !Z.leb_gt. lia.
Qed.

Lemma emptyGrid_unfold (grid : GridDimensions) :
  emptyGrid grid
  = if decide (buildable grid)
    then OK (fromList (replicate (Z.to_nat (rows grid))
                         (fromList (replicate (Z.to_nat (columns grid)) false))))
    else Err RangeError.
Proof.
  unfold emptyGrid, buildable.
  destruct (isArrayLength (rows grid)) eqn:Hr; simpl.
  - apply isArrayLength_true in Hr.
    destruct (Z.ltb_spec 0 (rows grid)); simpl.
    + destruct (isArrayLength (columns grid)) eqn:Hc; simpl.
      * apply isArrayLength_true in Hc. rewrite decide_True; [done|]. lia.
      * apply isArrayLength_false in Hc. rewrite decide_False; [done|]. lia.
    + rewrite decide_True; [done|]. lia.
  - apply isArrayLength_false in Hr. rewrite decide_False; [done|]. lia.
Qed.

Lemma emptyGrid_OK (grid : GridDimensions) (arr : Grid2DArray) :
  emptyGrid grid = OK arr ->
  hasDimensions grid arr /\ forall cx cy, occupied arr cx cy = false.
Proof.
  intros H.
  assert (0 <= rows grid /\ (rows grid = 0 \/ 0 <= columns grid)
          /\ arr = fromList (replicate (Z.to_nat (rows grid))
                    (fromList (replicate (Z.to_nat (columns grid)) false))))
    as (Hr & Hc & ->).
  { rewrite emptyGrid_unfold in H. case_decide as Hgrid; [|discriminate].
    injection H as <-. unfold buildable in Hgrid.
    repeat split; lia. }
  clear H. split; [split; [|split]|].
  - simpl. rewrite length_replicate. lia.
  - intros cy. rewrite get_fromList_replicate. case_decide; split.
    + intros _. assumption.
    + eauto.
    + intros [? [=]].
    + lia.
  - intros cy row. rewrite get_fromList_replicate.
    case_decide; [|discriminate]. intros [= <-]. split.
    + simpl. rewrite length_replicate. lia.
    + intros cx Hcx. simpl in Hcx. rewrite length_replicate in Hcx.
      rewrite get_fromList_replicate. case_decide; [eauto|lia].
  - intros cx cy. unfold occupied. rewrite get_fromList_replicate.
    case_decide; [|reflexivity]. simpl.
    rewrite get_fromList_replicate. by case_decide.
Qed.

Lemma emptyGrid_nonneg (grid : GridDimensions) :
  0 <= rows grid < 2 ^ 32 -> 0 <= columns grid < 2 ^ 32 ->
  exists arr, emptyGrid grid = OK arr.
Proof.
  intros Hr Hc. rewrite emptyGrid_unfold, decide_True; [eauto|].
  unfold buildable. lia.
Qed.

Lemma emptyGrid_Err (grid : GridDimensions) (e : JsError) :
  emptyGrid grid = Err e -> e = RangeError.
Proof.
  unfold emptyGrid. repeat case_match; congruence.
Qed.

(** ** Marking one sector *)

Lemma markSector_skip (grid : GridDimensions) (allow : bool)
    (arr : Grid2DArray) (s : Position) :
  columns grid <= x s \/ rows grid <= y s ->
  markSector grid allow arr s = OK arr.
Proof.
  intros H. unfold markSector.
  destruct (Z.leb_spec (columns grid) (x s));
    destruct (Z.leb_spec (rows grid) (y s)); simpl; try reflexivity; lia.
Qed.

Lemma markSector_OK (grid : GridDimensions) (allow : bool)
    (arr arr' : Grid2DArray) (s : Position) :
  hasDimensions grid arr ->
  markSector grid allow arr s = OK arr' ->
  hasDimensions grid arr'
  /\ forall cx cy,
       occupied arr' cx cy = true <->
       occupied arr cx cy = true
       \/ (x s < columns grid /\ y s < rows grid /\ cx = x s /\ cy = y s).
Proof.
  intros (Hlen & Hrows & Hrow) H.
  destruct (decide (columns grid <= x s \/ rows grid <= y s)) as [Hskip|Hin].
  { rewrite markSector_skip in H by assumption. injection H as <-.
    split; [done|]. intros cx cy. split; [auto|]. intros [?|?]; [done|lia]. }
  unfold markSector in H.
  destruct (Z.leb_spec (columns grid) (x s)); [lia|].
  destruct (Z.leb_spec (rows grid) (y s)); [lia|]. simpl in H.
  destruct (get arr (y s)) as [row|] eqn:Hget; [|discriminate].
  destruct (truthy (get row (x s)) && negb allow); [discriminate|].
  injection H as <-.
  destruct (Hrow _ _ Hget) as [Hrl Hrd].
  split; [split; [done|split]|].
  - intros cy. rewrite get_mutated. case_decide as Hcy; [|apply Hrows].
    subst cy. rewrite <- Hrows, Hget. split; eauto.
  - intros cy row'. rewrite get_mutated. case_decide as Hcy; [|apply Hrow].
    intros [= <-]. rewrite arrayLength_set by lia. split; [done|].
    intros cx Hcx. rewrite arrayLength_set in Hcx by lia.
    rewrite get_set. case_decide; [eauto|]. by apply Hrd.
  - intros cx cy. unfold occupied. rewrite get_mutated.
    case_decide as Hcy.
    + subst cy. rewrite Hget. simpl. rewrite get_set.
      case_decide as Hcx; simpl.
      * split; [|done]. intros _. right. lia.
      * split; [auto|]. intros [?|?]; [done|lia].
    + split; [auto|]. intros [?|?]; [done|lia].
Qed.

Lemma markSector_Err (grid : GridDimensions) (allow : bool)
    (arr : Grid2DArray) (s : Position) (e : JsError) :
  hasDimensions grid arr ->
  markSector grid allow arr s = Err e ->
  x s < columns grid /\ y s < rows grid
  /\ ((e = TypeError /\ y s < 0)
      \/ (e = OverlapError /\ allow = false /\ 0 <= y s
          /\ occupied arr (x s) (y s) = true)).
Proof.
  intros (Hlen & Hrows & Hrow) H. unfold markSector in H.
  destruct (Z.leb_spec (columns grid) (x s)); [discriminate|].
  destruct (Z.leb_spec (rows grid) (y s)); [discriminate|]. simpl in H.
  split; [assumption|]. split; [assumption|].
  destruct (get arr (y s)) as [row|] eqn:Hget.
  - destruct (truthy (get row (x s))) eqn:Hocc; [|discriminate].
    destruct allow; [discriminate|]. simpl in H. injection H as <-.
    right. repeat split.
    + apply Hrows. eauto.
    + rewrite (occupied_row _ _ _ _ Hget). assumption.
  - injection H as <-. left. split; [reflexivity|].
    destruct (decide (0 <= y s)); [|lia].
    assert (is_Some (get arr (y s))) as [? ?] by (apply Hrows; lia).
    congruence.
Qed.

Lemma markSector_overlap (grid : GridDimensions) (arr : Grid2DArray)
    (s : Position) :
  x s < columns grid -> y s < rows grid ->
  occupied arr (x s) (y s) = true ->
  markSector grid false arr s = Err OverlapError.
Proof.
  intros Hx Hy Hocc. unfold markSector.
  destruct (Z.leb_spec (columns grid) (x s)); [lia|].
  destruct (Z.leb_spec (rows grid) (y s)); [lia|]. simpl.
  unfold occupied in Hocc.
  destruct (get arr (y s)) as [row|]; [|discriminate].
  simpl in Hocc. rewrite Hocc. reflexivity.
Qed.

(** ** Marking a list of sectors *)

Lemma markSectors_OK (grid : GridDimensions) (allow : bool)
    (sectors : list Position) (arr arr' : Grid2DArray) :
  hasDimensions grid arr ->
  foldM (markSector grid allow) arr sectors = OK arr' ->
  hasDimensions grid arr'
  /\ forall cx cy,
       occupied arr' cx cy = true <->
       occupied arr cx cy = true
       \/ (cx < columns grid /\ cy < rows grid
           /\ {| x := cx; y := cy |} ∈ sectors).
Proof.
  revert arr. induction sectors as [|s sectors IH]; intros arr Hdim H.
  - injection H as <-. split; [done|]. intros cx cy. split; [auto|].
    intros [?|(_ & _ & Hin)]; [done|]. by apply elem_of_nil in Hin.
  - simpl in H. apply bind_OK in H as (arr1 & H1 & H2).
    destruct (markSector_OK _ _ _ _ _ Hdim H1) as [Hdim1 Hocc1].
    destruct (IH _ Hdim1 H2) as [Hdim' Hocc'].
    split; [done|]. intros cx cy. rewrite Hocc', Hocc1, elem_of_cons.
    split.
    + intros [[?|(? & ? & -> & ->)]|(? & ? & ?)]; auto.
      right. repeat split; try done. left. by destruct s.
    + intros [?|(? & ? & [Heq|?])]; auto.
      left. right. subst s. simpl. auto.
Qed.

Lemma markSectors_Err (grid : GridDimensions) (allow : bool)
    (sectors : list Position) (arr : Grid2DArray) (e : JsError) :
  hasDimensions grid arr ->
  foldM (markSector grid allow) arr sectors = Err e ->
  (e = TypeError /\ exists s, s ∈ sectors /\ x s < columns grid /\ y s < 0)
  \/ (e = OverlapError /\ allow = false).
Proof.
  revert arr. induction sectors as [|s sectors IH]; intros arr Hdim H.
  - discriminate.
  - simpl in H. apply bind_Err in H as [H|(arr1 & H1 & H2)].
    + apply markSector_Err in H; [|assumption].
      destruct H as (Hx & Hy & [[-> Hneg]|(-> & -> & _)]); [left|by right].
      split; [done|]. exists s. split; [apply list_elem_of_here|done].
    + destruct (markSector_OK _ _ _ _ _ Hdim H1) as [Hdim1 _].
      destruct (IH _ Hdim1 H2) as [(-> & s' & Hin & Hs')|?]; [left|by right].
      split; [done|]. exists s'. split; [by apply list_elem_of_further|done].
Qed.

(** A cell that is written twice is detected. *)
Lemma markSectors_twice (grid : GridDimensions) (arr : Grid2DArray)
    (s : Position) (l1 l2 l3 : list Position) :
  hasDimensions grid arr ->
  x s < columns grid -> y s < rows grid ->
  forall arr', foldM (markSector grid false) arr (l1 ++ s :: l2 ++ s :: l3)
               <> OK arr'.
Proof.
  intros Hdim Hx Hy arr' H.
  rewrite foldM_app in H. apply bind_OK in H as (arr1 & H1 & H).
  destruct (markSectors_OK _ _ _ _ _ Hdim H1) as [Hdim1 _].
  simpl in H. apply bind_OK in H as (arr2 & H2 & H).
  destruct (markSector_OK _ _ _ _ _ Hdim1 H2) as [Hdim2 Hocc2].
  rewrite foldM_app in H. apply bind_OK in H as (arr3 & H3 & H).
  destruct (markSectors_OK _ _ _ _ _ Hdim2 H3) as [Hdim3 Hocc3].
  simpl in H. apply bind_OK in H as (arr4 & H4 & _).
  rewrite markSector_overlap in H4; [discriminate|assumption..|].
  apply Hocc3. left. apply Hocc2. right. auto.
Qed.

(** ** Footprints *)

Lemma elem_of_layoutItemToSectors {T : Type} (item : LayoutItem T)
    (s : Position) :
  s ∈ layoutItemToSectors item <-> covers item (x s) (y s).
Proof.
  unfold layoutItemToSectors, covers. rewrite list_elem_of_bind. split.
  - intros (i & Hs & Hi). apply list_elem_of_bind in Hs as (j & Hs & Hj).
    apply list_elem_of_singleton in Hs as ->. simpl.
    apply elem_of_seqZ in Hi, Hj. lia.
  - intros [Hx Hy]. exists (x s). split; [|apply elem_of_seqZ; lia].
    apply list_elem_of_bind. exists (y s).
    split; [|apply elem_of_seqZ; lia].
    destruct s. apply list_elem_of_singleton. reflexivity.
Qed.

Lemma layoutItemToSectors_nonneg {T : Type} (item : LayoutItem T)
    (s : Position) :
  s ∈ layoutItemToSectors item ->
  x (itemPosition item) <= x s /\ y (itemPosition item) <= y s.
Proof.
  intros H. apply elem_of_layoutItemToSectors in H. unfold covers in H. lia.
Qed.

(** ** Filtering footprints *)

Lemma filter_all {A : Type} (P : A -> Prop) `{!forall a, Decision (P a)}
    (l : list A) :
  Forall P l -> filter P l = l.
Proof.
  induction 1 as [|a l Ha _ IH]; [reflexivity|].
  rewrite filter_cons_True by assumption. by rewrite IH.
Qed.

Lemma filter_none {A : Type} (P : A -> Prop) `{!forall a, Decision (P a)}
    (l : list A) :
  Forall (fun a => ~ P a) l -> filter P l = [].
Proof.
  induction 1 as [|a l Ha _ IH]; [reflexivity|].
  by rewrite filter_cons_False by assumption.
Qed.

Lemma filter_bind {A B : Type} (P : B -> Prop) `{!forall b, Decision (P b)}
    (f : A -> list B) (l : list A) :
  filter P (l ≫= f) = l ≫= fun a => filter P (f a).
Proof.
  induction l as [|a l IH]; [reflexivity|].
  rewrite !bind_cons, filter_app. by rewrite IH.
Qed.

Lemma bind_guard {A B : Type} (Q : A -> Prop) `{!forall a, Decision (Q a)}
    (f : A -> list B) (l : list A) :
  (l ≫= fun a => if decide (Q a) then f a else []) = filter Q l ≫= f.
Proof.
  induction l as [|a l IH]; [reflexivity|].
  rewrite bind_cons, IH. destruct (decide (Q a)) as [Ha|Ha].
  - by rewrite filter_cons_True, bind_cons by assumption.
  - by rewrite filter_cons_False by assumption.
Qed.

Lemma bind_all_nil {A B : Type} (f : A -> list B) (l : list A) :
  (forall a, f a = []) -> l ≫= f = [].
Proof.
  intros Hf. induction l as [|a l IH]; [reflexivity|].
  by rewrite bind_cons, Hf, IH.
Qed.

Lemma filter_lt_seqZ (m n c : Z) :
  filter (fun i => i < c) (seqZ m n) = seqZ m (Z.min n (c - m)).
Proof.
  destruct (decide (Z.min n (c - m) <= 0)) as [Hk|Hk].
  - rewrite (seqZ_nil m (Z.min _ _)) by assumption.
    apply filter_none. apply Forall_seqZ. lia.
  - replace n with (Z.min n (c - m) + (n - Z.min n (c - m))) at 1 by lia.
    rewrite seqZ_app, filter_app by lia.
    rewrite filter_all by (apply Forall_seqZ; lia).
    rewrite filter_none by (apply Forall_seqZ; lia).
    apply app_nil_r.
Qed.

Lemma layoutItemToSectors_clip {T : Type} (grid : GridDimensions)
    (item : LayoutItem T) :
  filter (fun s => x s < columns grid /\ y s < rows grid)
         (layoutItemToSectors item)
  = layoutItemToSectors (clipItem grid item).
Proof.
  unfold layoutItemToSectors, clipItem. simpl.
  set (px := x (itemPosition item)). set (py := y (itemPosition item)).
  set (w := width (itemSize item)). set (h := height (itemSize item)).
  rewrite <- (filter_lt_seqZ px w), <- (filter_lt_seqZ py h).
  rewrite filter_bind, <- bind_guard.
  apply list_bind_ext; [|reflexivity]. intros i.
  rewrite filter_bind.
  destruct (decide (i < columns grid)) as [Hi|Hi].
  - rewrite <- bind_guard. apply list_bind_ext; [|reflexivity]. intros j.
    rewrite filter_singleton; [|exact []]. simpl.
    repeat case_decide; try reflexivity; lia.
  - apply bind_all_nil. intros j.
    apply filter_singleton_False; [exact []|]. simpl. lia.
Qed.

(** ** Building the occupancy matrix *)

Lemma layoutTo2DArray_flat {T : Type} (grid : GridDimensions)
    (layout : Layout T) (allow : bool) :
  layoutTo2DArray grid layout allow
  = emptyGrid grid ≫= fun arr =>
      foldM (markSector grid allow) arr (layout ≫= layoutItemToSectors).
Proof.
  unfold layoutTo2DArray. destruct (emptyGrid grid); simpl; [|reflexivity].
  apply foldM_bind.
Qed.

Lemma layoutTo2DArray_OK {T : Type} (grid : GridDimensions)
    (layout : Layout T) (allow : bool) (arr : Grid2DArray) :
  layoutTo2DArray grid layout allow = OK arr ->
  hasDimensions grid arr
  /\ forall cx cy,
       occupied arr cx cy = true <->
       cx < columns grid /\ cy < rows grid
       /\ exists item, item ∈ layout /\ covers item cx cy.
Proof.
  rewrite layoutTo2DArray_flat. intros H.
  apply bind_OK in H as (arr0 & H0 & H).
  apply emptyGrid_OK in H0 as [Hdim0 Hocc0].
  destruct (markSectors_OK _ _ _ _ _ Hdim0 H) as [Hdim Hocc].
  split; [assumption|]. intros cx cy. rewrite Hocc, Hocc0.
  rewrite list_elem_of_bind.
  setoid_rewrite elem_of_layoutItemToSectors. simpl.
  split.
  - intros [?|(? & ? & item & ? & ?)]; [discriminate|eauto].
  - intros (? & ? & item & ? & ?). right. eauto.
Qed.

Lemma layoutTo2DArray_Err {T : Type} (grid : GridDimensions)
    (layout : Layout T) (allow : bool) (e : JsError) :
  layoutTo2DArray grid layout allow = Err e ->
  (e = RangeError /\ ~ buildable grid)
  \/ (e = TypeError /\ exists item, item ∈ layout /\ y (itemPosition item) < 0)
  \/ (e = OverlapError /\ allow = false).
Proof.
  rewrite layoutTo2DArray_flat. intros H.
  apply bind_Err in H as [H|(arr0 & H0 & H)].
  - left. rewrite emptyGrid_unfold in H.
    case_decide; [discriminate|]. split; [congruence|assumption].
  - right. apply emptyGrid_OK in H0 as [Hdim0 _].
    apply markSectors_Err in H as [(-> & s & Hin & _ & Hneg)|?];
      [|by right|assumption].
    left. split; [reflexivity|].
    apply list_elem_of_bind in Hin as (item & Hs & Hitem).
    exists item. split; [assumption|].
    apply elem_of_layoutItemToSectors in Hs. unfold covers in Hs.
    lia.
Qed.

Lemma layoutTo2DArray_clip {T : Type} (grid : GridDimensions)
    (layout : Layout T) (allow : bool) :
  layoutTo2DArray grid layout allow
  = layoutTo2DArray grid (clipItem grid <$> layout) allow.
Proof.
  rewrite !layoutTo2DArray_flat. destruct (emptyGrid grid) as [arr|e];
    simpl; [|reflexivity].
  rewrite (foldM_filter (markSector grid allow)
             (fun s => x s < columns grid /\ y s < rows grid)).
  - rewrite filter_bind, list_fmap_bind. f_equal.
    apply list_bind_ext; [|reflexivity]. intros item. simpl.
    apply layoutItemToSectors_clip.
  - intros arr' s Hs. apply markSector_skip. lia.
Qed.

Lemma lookup_two_split {A : Type} (l : list A) (i j : nat) (a b : A) :
  (i < j)%nat -> l !! i = Some a -> l !! j = Some b ->
  exists l1 l2 l3, l = l1 ++ a :: l2 ++ b :: l3.
Proof.
  intros Hij Ha Hb.
  exists (take i l), (take (j - S i) (drop (S i) l)),
         (drop (S (j - S i)) (drop (S i) l)).
  rewrite (take_drop_middle (drop (S i) l) (j - S i) b).
  - symmetry. by apply take_drop_middle.
  - rewrite lookup_drop. replace (S i + (j - S i))%nat with j by lia. done.
Qed.

Lemma layoutTo2DArray_overlap_split {T : Type} (grid : GridDimensions)
    (l1 l2 l3 : Layout T) (a b : LayoutItem T) (cx cy : Z) :
  covers a cx cy -> covers b cx cy ->
  cx < columns grid -> cy < rows grid ->
  forall arr, layoutTo2DArray grid (l1 ++ a :: l2 ++ b :: l3) false <> OK arr.
Proof.
  intros Ha Hb Hcx Hcy arr H. rewrite layoutTo2DArray_flat in H.
  apply bind_OK in H as (arr0 & H0 & H).
  apply emptyGrid_OK in H0 as [Hdim0 _].
  set (s := {| x := cx; y := cy |}).
  assert (s ∈ layoutItemToSectors a) as Hsa
    by by apply elem_of_layoutItemToSectors.
  assert (s ∈ layoutItemToSectors b) as Hsb
    by by apply elem_of_layoutItemToSectors.
  apply list_elem_of_split in Hsa as (a1 & a2 & Hsa).
  apply list_elem_of_split in Hsb as (b1 & b2 & Hsb).
  rewrite bind_app, bind_cons, bind_app, bind_cons, Hsa, Hsb in H.
  revert H.
  replace ((l1 ≫= layoutItemToSectors) ++ (a1 ++ s :: a2)
           ++ (l2 ≫= layoutItemToSectors) ++ (b1 ++ s :: b2)
           ++ (l3 ≫= layoutItemToSectors))
    with (((l1 ≫= layoutItemToSectors) ++ a1)
          ++ s :: (a2 ++ (l2 ≫= layoutItemToSectors) ++ b1)
          ++ s :: (b2 ++ (l3 ≫= layoutItemToSectors))).
  - by apply markSectors_twice.
  - rewrite <- !app_assoc. simpl. reflexivity.
Qed.

Lemma mark_again_noop (grid : GridDimensions) (arr : Grid2DArray)
    (s : Position) (row : JsArray bool) :
  get arr (y s) = Some row -> get row (x s) = Some true ->
  x s < arrayLength row ->
  markSector grid true arr s = OK arr.
Proof.
  intros Hrow Hcell Hlen. unfold markSector.
  destruct (_ || _); [reflexivity|]. rewrite Hrow, Hcell. simpl. f_equal.
  assert (set row (x s) true = row) as ->.
  { destruct row as [n m]. unfold set, get in *. simpl in *.
    rewrite insert_id by assumption. by case_decide; [lia|]. }
  destruct arr as [n m]. unfold mutated, get in *. simpl in *.
  by rewrite insert_id.
Qed.

(** ** The collision checker *)

Lemma hasDimensions_dense (grid : GridDimensions) (arr : Grid2DArray) :
  hasDimensions grid arr -> denseMatrix arr.
Proof.
  intros (Hlen & Hrows & Hrow) cy Hcy.
  destruct (proj2 (Hrows cy)) as [row Hget]; [lia|].
  exists row. split; [assumption|]. by apply (Hrow _ _ Hget).
Qed.

Lemma plainMatrix_dense (arr : Grid2DArray) :
  plainMatrix arr -> denseMatrix arr.
Proof.
  intros H cy Hcy. destruct (H cy Hcy) as (row & Hget & Hplain).
  exists row. split; [assumption|]. intros cx Hcx. by apply Hplain.
Qed.

Lemma overlayLoop_spec (arr : Grid2DArray) (sectors : list Position) :
  denseMatrix arr ->
  Forall (fun s => 0 <= y s) sectors ->
  exists b,
    overlayLoop arr sectors = OK b
    /\ (b = true <->
        exists s row, s ∈ sectors /\ y s < arrayLength arr
          /\ get arr (y s) = Some row /\ x s < arrayLength row
          /\ truthy (get row (x s)) = true).
Proof.
  intros Hdense. induction 1 as [|s sectors Hs _ IH].
  - exists false. split; [reflexivity|]. split; [discriminate|].
    intros (s & _ & Hin & _). by apply elem_of_nil in Hin.
  - destruct IH as (b & Hb & Hiff). simpl.
    destruct (Z.leb_spec (arrayLength arr) (y s)) as [Hy|Hy].
    { exists b. split; [assumption|]. rewrite Hiff. split.
      - intros (s' & row & Hin & ?). exists s', row.
        split; [by apply list_elem_of_further|assumption].
      - intros (s' & row & Hin & Hrest). apply elem_of_cons in Hin as [->|Hin].
        + lia.
        + by exists s', row. }
    destruct (Hdense (y s)) as (row & Hget & _); [lia|]. rewrite Hget.
    destruct (Z.leb_spec (arrayLength row) (x s)) as [Hx|Hx].
    { exists b. split; [assumption|]. rewrite Hiff. split.
      - intros (s' & row' & Hin & ?). exists s', row'.
        split; [by apply list_elem_of_further|assumption].
      - intros (s' & row' & Hin & Hrest).
        apply elem_of_cons in Hin as [->|Hin].
        + destruct Hrest as (_ & Hget' & ? & _).
          rewrite Hget in Hget'. injection Hget' as <-. lia.
        + by exists s', row'. }
    destruct (truthy (get row (x s))) eqn:Hcell.
    { exists true. split; [reflexivity|]. split; [|reflexivity]. intros _.
      exists s, row. split; [apply list_elem_of_here|]. auto. }
    exists b. split; [assumption|]. rewrite Hiff. split.
    + intros (s' & row' & Hin & ?). exists s', row'.
      split; [by apply list_elem_of_further|assumption].
    + intros (s' & row' & Hin & Hrest).
      apply elem_of_cons in Hin as [->|Hin].
      * destruct Hrest as (_ & Hget' & _ & Htrue).
        rewrite Hget in Hget'. injection Hget' as <-. congruence.
      * by exists s', row'.
Qed.

Lemma willItemOverlay_spec {T : Type} (arr : Grid2DArray)
    (item : LayoutItem T) :
  denseMatrix arr ->
  0 <= y (itemPosition item) ->
  exists b,
    willItemOverlay arr item = OK b
    /\ (b = true <->
        exists cx cy row, covers item cx cy /\ cy < arrayLength arr
          /\ get arr cy = Some row /\ cx < arrayLength row
          /\ truthy (get row cx) = true).
Proof.
  intros Hdense Hy. unfold willItemOverlay.
  destruct (overlayLoop_spec arr (layoutItemToSectors item) Hdense)
    as (b & Hb & Hiff).
  { apply Forall_forall. intros s Hs.
    apply layoutItemToSectors_nonneg in Hs. lia. }
  exists b. split; [assumption|]. rewrite Hiff. split.
  - intros (s & row & Hin & Hrest). exists (x s), (y s), row.
    split; [by apply elem_of_layoutItemToSectors|assumption].
  - intros (cx & cy & row & Hcov & Hrest). exists {| x := cx; y := cy |}, row.
    split; [by apply elem_of_layoutItemToSectors|assumption].
Qed.

(** ** The scan *)

Lemma accepted_iff (grid : GridDimensions) (arr : Grid2DArray)
    (item : LayoutItemSize) (p : Position) (row : JsArray bool) :
  hasDimensions grid arr -> inGrid grid p -> get arr (y p) = Some row ->
  (truthy (get row (x p)) = false
   /\ willItemOverlay arr (sizeAt item p) = OK false
   /\ (columns grid <? x p + width item) || (rows grid <? y p + height item)
      = false)
  <-> accepted grid arr item p.
Proof.
  intros Hdim [Hpx Hpy] Hget.
  destruct (willItemOverlay_spec arr (sizeAt item p)) as (b & Hb & Hiff);
    [by eapply hasDimensions_dense|simpl; lia|].
  destruct Hdim as (Hlen & Hrows & Hrow).
  unfold accepted, fitsGrid. rewrite (occupied_row _ _ _ _ Hget).
  rewrite Hb, orb_false_iff, !Z.ltb_ge. split.
  - intros (Hfree & [= ->] & Hw & Hh). split; [assumption|].
    split; [lia|]. intros cx cy Hcov.
    destruct (occupied arr cx cy) eqn:Hocc; [|reflexivity].
    assert (false = true); [|discriminate]. apply Hiff.
    unfold covers in Hcov. simpl in Hcov.
    destruct (proj2 (Hrows cy)) as [row' Hget']; [lia|].
    exists cx, cy, row'. rewrite (occupied_row _ _ _ _ Hget') in Hocc.
    destruct (Hrow _ _ Hget') as [Hrl _].
    split; [exact Hcov|]. repeat split; try assumption; lia.
  - intros (Hfree & Hfits & Hcoll). split; [assumption|]. split; [|lia].
    destruct b; [|reflexivity].
    destruct (proj1 Hiff eq_refl) as (cx & cy & row' & Hcov & _ & Hget' & _ & Hocc).
    rewrite <- (occupied_row _ _ _ _ Hget'), (Hcoll _ _ Hcov) in Hocc.
    discriminate.
Qed.

Lemma accepted_or_not (grid : GridDimensions) (arr : Grid2DArray)
    (item : LayoutItemSize) (p : Position) (row : JsArray bool) :
  hasDimensions grid arr -> inGrid grid p -> get arr (y p) = Some row ->
  accepted grid arr item p \/ ~ accepted grid arr item p.
Proof.
  intros Hdim Hin Hget. rewrite <- (accepted_iff _ _ _ _ _ Hdim Hin Hget).
  destruct (truthy (get row (x p)));
    [right; by intros ([=] & _)|].
  destruct (willItemOverlay arr (sizeAt item p)) as [[|]|e];
    [right; by intros (_ & [=] & _)| |right; by intros (_ & [=] & _)].
  destruct (_ || _); [right; by intros (_ & _ & [=])|by left].
Qed.

Lemma scanRow_accept (grid : GridDimensions) (arr : Grid2DArray)
    (item : LayoutItemSize) (i j : Z) (row : JsArray bool) (js : list Z) :
  hasDimensions grid arr -> inGrid grid {| x := j; y := i |} ->
  get arr i = Some row ->
  accepted grid arr item {| x := j; y := i |} ->
  scanRow grid arr item i row (j :: js) = OK (Some {| x := j; y := i |}).
Proof.
  intros Hdim Hin Hget Hacc.
  apply (accepted_iff _ _ _ _ _ Hdim Hin Hget) in Hacc as (Hfree & Hov & Hfl).
  simpl in *. by rewrite Hfree, Hov, Hfl.
Qed.

Lemma scanRow_reject (grid : GridDimensions) (arr : Grid2DArray)
    (item : LayoutItemSize) (i j : Z) (row : JsArray bool) (js : list Z) :
  hasDimensions grid arr -> inGrid grid {| x := j; y := i |} ->
  get arr i = Some row ->
  ~ accepted grid arr item {| x := j; y := i |} ->
  scanRow grid arr item i row (j :: js) = scanRow grid arr item i row js.
Proof.
  intros Hdim Hin Hget Hrej.
  rewrite <- (accepted_iff _ _ _ _ _ Hdim Hin Hget) in Hrej.
  destruct (willItemOverlay_spec arr (sizeAt item {| x := j; y := i |}))
    as (b & Hb & _);
    [by eapply hasDimensions_dense|simpl; destruct Hin; simpl in *; lia|].
  simpl in *. destruct (truthy (get row j)); [reflexivity|].
  rewrite Hb in *. simpl. destruct b; [reflexivity|]. simpl.
  destruct (_ || _); [reflexivity|]. exfalso. by apply Hrej.
Qed.

Lemma scanRow_spec (grid : GridDimensions) (arr : Grid2DArray)
    (item : LayoutItemSize) (i : Z) (row : JsArray bool) :
  hasDimensions grid arr -> 0 <= i < rows grid -> get arr i = Some row ->
  forall (n : nat) (j0 : Z),
    0 <= j0 -> j0 + Z.of_nat n <= columns grid ->
    exists r,
      scanRow grid arr item i row (seqZ j0 (Z.of_nat n)) = OK r
      /\ match r with
         | Some p =>
             y p = i /\ j0 <= x p < j0 + Z.of_nat n
             /\ accepted grid arr item p
             /\ forall j, j0 <= j < x p ->
                  ~ accepted grid arr item {| x := j; y := i |}
         | None =>
             forall j, j0 <= j < j0 + Z.of_nat n ->
               ~ accepted grid arr item {| x := j; y := i |}
         end.
Proof.
  intros Hdim Hi Hget. induction n as [|n IH]; intros j0 Hj0 Hn.
  - exists None. split; [reflexivity|]. intros j Hj. lia.
  - rewrite seqZ_cons by lia.
    replace (Z.pred (Z.of_nat (S n))) with (Z.of_nat n) by lia.
    assert (inGrid grid {| x := j0; y := i |}) as Hin
      by (unfold inGrid; simpl; lia).
    destruct (accepted_or_not grid arr item {| x := j0; y := i |} row
                Hdim Hin Hget) as [Hacc|Hrej].
    + exists (Some {| x := j0; y := i |}).
      split; [by apply scanRow_accept|]. simpl.
      split; [reflexivity|]. split; [lia|]. split; [assumption|].
      intros j Hj. lia.
    + rewrite scanRow_reject by assumption.
      destruct (IH (Z.succ j0)) as (r & Hr & Hspec); [lia..|].
      exists r. split; [assumption|]. destruct r as [p|].
      * destruct Hspec as (Hy & Hx & Hacc & Hfirst).
        split; [assumption|]. split; [lia|]. split; [assumption|].
        intros j Hj.
        destruct (decide (j = j0)) as [->|?]; [assumption|].
        apply Hfirst. lia.
      * intros j Hj. destruct (decide (j = j0)) as [->|?]; [assumption|].
        apply Hspec. lia.
Qed.

Lemma scanRows_spec (grid : GridDimensions) (arr : Grid2DArray)
    (item : LayoutItemSize) :
  hasDimensions grid arr ->
  forall (n : nat) (i0 : Z),
    0 <= i0 -> i0 + Z.of_nat n <= rows grid ->
    exists r,
      scanRows grid arr item (seqZ i0 (Z.of_nat n)) = OK r
      /\ match r with
         | Some p =>
             inGrid grid p /\ i0 <= y p
             /\ accepted grid arr item p
             /\ forall q, inGrid grid q -> i0 <= y q -> rowMajorLt q p ->
                  ~ accepted grid arr item q
         | None =>
             forall q, inGrid grid q -> i0 <= y q < i0 + Z.of_nat n ->
               ~ accepted grid arr item q
         end.
Proof.
  intros Hdim. induction n as [|n IH]; intros i0 Hi0 Hn.
  - exists None. split; [reflexivity|]. intros q _ Hq. lia.
  - rewrite seqZ_cons by lia.
    replace (Z.pred (Z.of_nat (S n))) with (Z.of_nat n) by lia. simpl.
    destruct Hdim as (Hlen & Hrows & Hrow).
    destruct (proj2 (Hrows i0)) as [row Hget]; [lia|]. rewrite Hget.
    destruct (Hrow _ _ Hget) as [Hrl _]. rewrite Hrl.
    assert (exists r,
              scanRow grid arr item i0 row (seqZ 0 (columns grid)) = OK r
              /\ match r with
                 | Some p =>
                     y p = i0 /\ 0 <= x p < columns grid
                     /\ accepted grid arr item p
                     /\ forall j, 0 <= j < x p ->
                          ~ accepted grid arr item {| x := j; y := i0 |}
                 | None =>
                     forall j, 0 <= j < columns grid ->
                       ~ accepted grid arr item {| x := j; y := i0 |}
                 end) as (r & Hr & Hspec).
    { destruct (decide (0 <= columns grid)) as [Hc|Hc].
      - destruct (scanRow_spec grid arr item i0 row) with
          (n := Z.to_nat (columns grid)) (j0 := 0) as (r & Hr & Hspec);
          [done|lia|assumption|lia|lia|].
        rewrite Z2Nat.id in Hr, Hspec by assumption. by exists r.
      - exists None. rewrite seqZ_nil by lia. split; [reflexivity|]. lia. }
    rewrite Hr. simpl. destruct r as [p|].
    + destruct Hspec as (Hy & Hx & Hacc & Hfirst).
      exists (Some p). split; [reflexivity|].
      split; [unfold inGrid; lia|]. split; [lia|]. split; [assumption|].
      intros q [Hqx Hqy] Hq0 [Hlt|[Heq Hlt]]; [lia|].
      destruct q as [qx qy]. simpl in *. subst qy. rewrite Hy.
      apply Hfirst. lia.
    + destruct (IH (Z.succ i0)) as (r & Hr' & Hspec'); [lia..|].
      exists r. split; [assumption|]. destruct r as [p|].
      * destruct Hspec' as (Hin & Hy & Hacc & Hfirst).
        split; [assumption|]. split; [lia|]. split; [assumption|].
        intros q Hq Hq0 Hlt.
        destruct (decide (y q = i0)) as [Heq|Hne].
        -- destruct q as [qx qy]. simpl in *. subst qy. apply Hspec.
           by destruct Hq.
        -- apply Hfirst; [assumption|lia|assumption].
      * intros q Hq Hqy.
        destruct (decide (y q = i0)) as [Heq|Hne].
        -- destruct q as [qx qy]. simpl in *. subst qy. apply Hspec.
           by destruct Hq.
        -- apply Hspec'; [assumption|lia].
Qed.

Lemma findPosition_spec {T : Type} (grid : GridDimensions)
    (layout : Layout T) (item : LayoutItemSize) (arr : Grid2DArray) :
  layoutTo2DArray grid layout false = OK arr ->
  exists r,
    findPositionForItemInGrid grid layout item = OK r
    /\ match r with
       | Some p =>
           inGrid grid p /\ accepted grid arr item p
           /\ forall q, inGrid grid q -> rowMajorLt q p ->
                ~ accepted grid arr item q
       | None => forall q, inGrid grid q -> ~ accepted grid arr item q
       end.
Proof.
  intros Harr. unfold findPositionForItemInGrid. rewrite Harr. simpl.
  apply layoutTo2DArray_OK in Harr as [Hdim _].
  destruct (decide (0 <= rows grid)) as [Hrows|Hrows].
  - destruct (scanRows_spec grid arr item Hdim)
      with (n := Z.to_nat (rows grid)) (i0 := 0) as (r & Hr & Hspec);
      [lia..|].
    rewrite Z2Nat.id in Hr, Hspec by assumption.
    destruct Hdim as (Hlen & _). rewrite Hlen.
    exists r. split; [assumption|]. destruct r as [p|].
    + destruct Hspec as (Hin & _ & Hacc & Hfirst).
      split; [assumption|]. split; [assumption|].
      intros q Hq Hlt. apply Hfirst; [assumption| |assumption].
      by destruct Hq as [_ [? _]].
    + intros q Hq. apply Hspec; [assumption|]. destruct Hq as [_ ?]. lia.
  - destruct Hdim as (Hlen & _). rewrite Hlen, seqZ_nil by lia.
    exists None. split; [reflexivity|]. intros q [_ Hq]. lia.
Qed.

Lemma findPosition_returns {T : Type} (grid : GridDimensions)
    (layout : Layout T) (item : LayoutItemSize) (r : option Position) :
  findPositionForItemInGrid grid layout item = OK r ->
  exists arr, layoutTo2DArray grid layout false = OK arr.
Proof.
  unfold findPositionForItemInGrid.
  destruct (layoutTo2DArray grid layout false) as [arr|e]; [eauto|discriminate].
Qed.

Lemma collisionFree_origin (arr : Grid2DArray) (item : LayoutItemSize)
    (p : Position) :
  1 <= width item -> 1 <= height item ->
  collisionFree arr item p -> occupied arr (x p) (y p) = false.
Proof.
  intros Hw Hh Hcoll. apply Hcoll. unfold covers. simpl. lia.
Qed.

(** ** Array literals are plain *)

Lemma fromList_plainRow (l : list bool) : plainRow (fromList l).
Proof.
  intros cx. rewrite get_fromList. simpl. case_decide as Hcx.
  - rewrite lookup_lt_is_Some. lia.
  - split; [by intros [? [=]]|lia].
Qed.

Lemma fromList_plainMatrix (l : list (JsArray bool)) :
  Forall plainRow l -> plainMatrix (fromList l).
Proof.
  intros Hl cy Hcy. simpl in Hcy. rewrite get_fromList.
  case_decide; [|lia].
  destruct (l !! Z.to_nat cy) as [row|] eqn:Hrow.
  - exists row. split; [reflexivity|].
    by apply (Forall_lookup_1 _ _ _ _ Hl Hrow).
  - apply lookup_ge_None in Hrow. lia.
Qed.

(** ** The heap of arrays *)

Lemma freshAddr_fresh {T : Type} (h : Heap T) (o : Obj T) :
  o ∈ mjoin h -> addr o ≠ freshAddr h.
Proof.
  intros Hin Heq. apply (list_elem_of_fmap_2 addr) in Hin.
  apply max_list_elem_of_le in Hin. unfold freshAddr in Heq. lia.
Qed.

Lemma elements_lookup {T : Type} (h : Heap T) (r : nat) (elems : list (Obj T)) :
  h !! r = Some elems -> elements h r = elems.
Proof.
  intros H. unfold elements. by rewrite H.
Qed.

Lemma elem_of_heap {T : Type} (h : Heap T) (r : nat) (elems : list (Obj T))
    (o : Obj T) :
  h !! r = Some elems -> o ∈ elems -> o ∈ mjoin h.
Proof.
  intros Hr Ho. apply list_elem_of_join. exists elems.
  split; [assumption|]. by eapply list_elem_of_lookup_2.
Qed.

Lemma lookup_newArray {T : Type} (h : Heap T) (elems : list (Obj T)) :
  (h ++ [elems]) !! length h = Some elems.
Proof.
  by apply list_lookup_middle.
Qed.

Lemma lookup_push {T : Type} (h : Heap T) (r : nat) (elems : list (Obj T))
    (o : Obj T) :
  h !! r = Some elems -> push h r o !! r = Some (elems ++ [o]).
Proof.
  intros H. unfold push. by rewrite list_lookup_alter_eq, H.
Qed.

Lemma lookup_push_other {T : Type} (h : Heap T) (r r' : nat) (o : Obj T) :
  r ≠ r' -> push h r o !! r' = h !! r'.
Proof.
  intros H. unfold push. by apply list_lookup_alter_ne.
Qed.

Lemma elem_of_push {T : Type} (h : Heap T) (r : nat) (o new : Obj T) :
  o ∈ mjoin h -> o ∈ mjoin (push h r new).
Proof.
  intros Ho. apply list_elem_of_join in Ho as (elems & Ho & Helems).
  apply list_elem_of_lookup_1 in Helems as [r' Hr'].
  destruct (decide (r = r')) as [->|Hne].
  - apply (elem_of_heap _ r' (elems ++ [new])); [by apply lookup_push|].
    apply elem_of_app. by left.
  - apply (elem_of_heap _ r' elems); [|assumption].
    by rewrite lookup_push_other.
Qed.

(** ** The repair loop *)

Lemma repairLoop_no_overflow {T : Type} (grid : GridDimensions)
    (items : list (Obj T)) (newLayout : nat) (h : Heap T) :
  Forall (fun i => overflows grid (fields i) = false) items ->
  repairLoop grid items newLayout h = (OK newLayout, h).
Proof.
  induction 1 as [|item items Hitem _ IH]; [reflexivity|].
  simpl. by rewrite Hitem.
Qed.

Lemma remaining_snoc {T : Type} (layout gone : list (Obj T)) (item : Obj T) :
  filter (fun i => addr i ≠ addr item) (remaining layout gone)
  = remaining layout (gone ++ [item]).
Proof.
  unfold remaining. rewrite list_filter_filter. apply list_filter_iff.
  intros i. rewrite fmap_app, elem_of_app. simpl.
  rewrite list_elem_of_singleton. tauto.
Qed.

Lemma filter_keeps_new {T : Type} (news : list (Obj T)) (item : Obj T)
    (layout : list (Obj T)) :
  item ∈ layout ->
  (forall new, new ∈ news -> addr new ∉ addr <$> layout) ->
  filter (fun i => addr i ≠ addr item) news = news.
Proof.
  intros Hitem Hnew. apply filter_all, Forall_forall. intros new Hin Heq.
  apply (Hnew new Hin). rewrite Heq. by apply list_elem_of_fmap_2.
Qed.

Lemma created_app {T : Type} (outs1 outs2 : list (option (Obj T))) :
  created (outs1 ++ outs2) = created outs1 ++ created outs2.
Proof.
  apply omap_app.
Qed.

(** Whatever the outcome, the loop leaves the arrays that exist when it
    starts as they are: it pushes to arrays of its own only. *)
Lemma repairLoop_frame {T : Type} (grid : GridDimensions)
    (items : list (Obj T)) :
  forall newLayout h outcome h',
    repairLoop grid items newLayout h = (outcome, h') ->
    forall r, (r < length h)%nat -> h' !! r = h !! r.
Proof.
  induction items as [|item items IH]; intros newLayout h outcome h' H r Hr.
  - by injection H as _ <-.
  - simpl in H. destruct (negb (overflows grid (fields item))).
    { by apply (IH _ _ _ _ H). }
    set (work := filter (fun i => addr i ≠ addr item) (elements h newLayout))
      in *.
    rewrite (elements_lookup _ _ _ (lookup_newArray h work)) in H.
    destruct (findPositionForItemInGrid grid (fields <$> work)
                (itemSize (fields item))) as [[p|]|e].
    + rewrite (IH _ _ _ _ H)
        by (unfold push; rewrite length_alter, length_app; lia).
      rewrite lookup_push_other by lia. by apply lookup_app_l.
    + rewrite (IH _ _ _ _ H) by (rewrite length_app; lia).
      by apply lookup_app_l.
    + injection H as _ <-. by apply lookup_app_l.
Qed.

(** The test of the loop is the test of the footprint. *)
Lemma overflows_true {T : Type} (grid : GridDimensions) (item : LayoutItem T) :
  overflows grid item = true
  <-> x (itemPosition item) + width (itemSize item) > columns grid
      \/ y (itemPosition item) + height (itemSize item) > rows grid.
Proof.
  unfold overflows. rewrite orb_true_iff, !Z.ltb_lt. lia.
Qed.

Lemma overflows_false {T : Type} (grid : GridDimensions)
    (item : LayoutItem T) :
  overflows grid item = false
  <-> x (itemPosition item) + width (itemSize item) <= columns grid
      /\ y (itemPosition item) + height (itemSize item) <= rows grid.
Proof.
  unfold overflows. rewrite orb_false_iff, !Z.ltb_ge. lia.
Qed.

Lemma overflowing_overflows {T : Type} (grid : GridDimensions)
    (layout : list (Obj T)) :
  overflowing grid layout
  = filter (fun i => overflows grid (fields i) = true) layout.
Proof.
  unfold overflowing. apply list_filter_iff. intros i.
  symmetry. apply overflows_true.
Qed.

Lemma fitting_overflows {T : Type} (grid : GridDimensions)
    (layout : list (Obj T)) :
  filter (fun i =>
            x (itemPosition (fields i)) + width (itemSize (fields i))
            <= columns grid
            /\ y (itemPosition (fields i)) + height (itemSize (fields i))
               <= rows grid) layout
  = filter (fun i => overflows grid (fields i) = false) layout.
Proof.
  apply list_filter_iff. intros i. symmetry. apply overflows_false.
Qed.

(** The loop from a state in which [newLayout] refers to a new array that
    holds the layout without the objects of [gone], followed by the
    objects created so far, [h0] being the heap at the call. *)
Lemma repairLoop_spec {T : Type} (grid : GridDimensions) (h0 : Heap T)
    (layout : list (Obj T)) (items : list (Obj T)) :
  (forall i, i ∈ items -> i ∈ layout) ->
  forall gone outs newLayout h result h',
    (forall r, (r < length h0)%nat -> h !! r = h0 !! r) ->
    (length h0 <= newLayout)%nat ->
    h !! newLayout = Some (remaining layout gone ++ created outs) ->
    (forall i, i ∈ layout -> i ∈ mjoin h) ->
    (forall new, new ∈ created outs -> addr new ∉ addr <$> layout) ->
    repairLoop grid items newLayout h = (OK result, h') ->
    (forall r, (r < length h0)%nat -> h' !! r = h0 !! r)
    /\ (length h0 <= result)%nat
    /\ exists outs',
         length outs' = length (overflowing grid items)
         /\ h' !! result
            = Some (remaining layout (gone ++ overflowing grid items)
                    ++ created (outs ++ outs'))
         /\ forall k item outcome,
              overflowing grid items !! k = Some item ->
              outs' !! k = Some outcome ->
              stepOutcome grid layout
                (remaining layout
                   (gone ++ take (S k) (overflowing grid items))
                 ++ created (outs ++ take k outs'))
                item outcome.
Proof.
  rewrite !overflowing_overflows.
  induction items as [|item items IH];
    intros Hsub gone outs newLayout h result h' Hframe Hnew Hwork Hlive Hout H.
  - injection H as <- <-. split; [assumption|]. split; [assumption|].
    exists []. rewrite !app_nil_r.
    split; [reflexivity|]. split; [assumption|]. intros k item outcome [=].
  - assert (forall i, i ∈ items -> i ∈ layout) as Hsub'
      by (intros i Hi; apply Hsub; by apply list_elem_of_further).
    simpl in H. destruct (overflows grid (fields item)) eqn:Hov; simpl in H.
    2: { rewrite filter_cons_False by congruence. by eapply IH. }
    rewrite filter_cons_True by assumption.
    rewrite (elements_lookup _ _ _ Hwork), filter_app, remaining_snoc in H.
    rewrite (filter_keeps_new _ item layout) in H;
      [|apply Hsub, list_elem_of_here|assumption].
    set (work := remaining layout (gone ++ [item]) ++ created outs) in *.
    rewrite (elements_lookup _ _ _ (lookup_newArray h work)) in H.
    assert (forall r, (r < length h0)%nat -> (h ++ [work]) !! r = h0 !! r)
      as Hframe1.
    { intros r Hr. rewrite lookup_app_l; [by apply Hframe|].
      apply lookup_lt_is_Some. rewrite Hframe by assumption.
      by apply lookup_lt_is_Some. }
    assert (length h0 <= length h)%nat as Hnew1.
    { apply lookup_lt_Some in Hwork. lia. }
    assert (forall i, i ∈ layout -> i ∈ mjoin (h ++ [work])) as Hlive1.
    { intros i Hi. rewrite join_app, elem_of_app. left. by apply Hlive. }
    destruct (findPositionForItemInGrid grid (fields <$> work)
                (itemSize (fields item))) as [[p|]|e] eqn:Hfind;
      [| |discriminate].
    + set (new := {| addr := freshAddr (h ++ [work]);
                     fields := withPosition (fields item) p |}) in *.
      assert (addr new ∉ addr <$> (layout ++ work)) as Hfresh.
      { intros Hin. apply list_elem_of_fmap in Hin as (o & Ho & Hin).
        apply (freshAddr_fresh (h ++ [work]) o); [|by rewrite <- Ho].
        apply elem_of_app in Hin as [Hin|Hin]; [by apply Hlive1|].
        apply (elem_of_heap _ (length h) work);
          [apply lookup_newArray|assumption]. }
      destruct (IH Hsub' (gone ++ [item]) (outs ++ [Some new]) (length h)
                  (push (h ++ [work]) (length h) new) result h')
        as (Hframe' & Hnew' & outs' & Hlen & Hres & Hsteps);
        [| | | | |exact H|].
      { intros r Hr. rewrite lookup_push_other by lia. by apply Hframe1. }
      { assumption. }
      { rewrite created_app, app_assoc. apply lookup_push, lookup_newArray. }
      { intros i Hi. by apply elem_of_push, Hlive1. }
      { intros new'. rewrite created_app, elem_of_app. simpl.
        rewrite list_elem_of_singleton. intros [?| ->]; [by apply Hout|].
        rewrite fmap_app, elem_of_app in Hfresh. tauto. }
      split; [assumption|]. split; [assumption|].
      exists (Some new :: outs'). split; [simpl; by rewrite Hlen|].
      split; [by rewrite <- !app_assoc in Hres|].
      intros [|k] item' outcome Hitem' Hout'; simpl in Hitem', Hout'.
      * injection Hitem' as <-. injection Hout' as <-. simpl.
        rewrite app_nil_r. exists p. fold work. by repeat split.
      * specialize (Hsteps k item' outcome Hitem' Hout').
        by rewrite <- !app_assoc in Hsteps.
    + destruct (IH Hsub' (gone ++ [item]) (outs ++ [None]) (length h)
                  (h ++ [work]) result h')
        as (Hframe' & Hnew' & outs' & Hlen & Hres & Hsteps);
        [assumption|assumption| |assumption| |exact H|].
      { rewrite created_app, app_nil_r. apply lookup_newArray. }
      { intros new'. rewrite created_app, app_nil_r. apply Hout. }
      split; [assumption|]. split; [assumption|].
      exists (None :: outs'). split; [simpl; by rewrite Hlen|].
      split; [by rewrite <- !app_assoc in Hres|].
      intros [|k] item' outcome Hitem' Hout'; simpl in Hitem', Hout'.
      * injection Hitem' as <-. injection Hout' as <-. simpl.
        rewrite app_nil_r. by fold work.
      * specialize (Hsteps k item' outcome Hitem' Hout').
        by rewrite <- !app_assoc in Hsteps.
Qed.

Lemma remaining_nil {T : Type} (layout : list (Obj T)) :
  remaining layout [] = layout.
Proof.
  unfold remaining. apply filter_all, Forall_forall. intros i _.
  simpl. apply not_elem_of_nil.
Qed.

(** When an address stands for one object, the objects that stay are
    those that do not overflow. *)
Lemma remaining_overflowing {T : Type} (grid : GridDimensions)
    (layout : list (Obj T)) :
  (forall a b, a ∈ layout -> b ∈ layout -> addr a = addr b -> a = b) ->
  remaining layout (overflowing grid layout)
  = filter (fun i =>
              x (itemPosition (fields i)) + width (itemSize (fields i))
              <= columns grid
              /\ y (itemPosition (fields i)) + height (itemSize (fields i))
                 <= rows grid) layout.
Proof.
  intros Hobj. rewrite overflowing_overflows.
  rewrite fitting_overflows. unfold remaining.
  assert (forall l : list (Obj T), (forall i, i ∈ l -> i ∈ layout) ->
            filter (fun i => addr i ∉ addr <$>
                               filter (fun i => overflows grid (fields i) = true)
                                 layout) l
            = filter (fun i => overflows grid (fields i) = false) l) as Hgen.
  { induction l as [|i l IH]; intros Hsub; [reflexivity|].
    assert (i ∈ layout) as Hi by apply Hsub, list_elem_of_here.
    rewrite !filter_cons, IH
      by (intros; by apply Hsub, list_elem_of_further).
    destruct (overflows grid (fields i)) eqn:Hov.
    - rewrite decide_False; [by rewrite decide_False|].
      intros Hnot. apply Hnot. apply list_elem_of_fmap_2.
      by apply list_elem_of_filter.
    - rewrite decide_True; [by rewrite decide_True|].
      intros Hin. apply list_elem_of_fmap in Hin as (b & Hab & Hb).
      apply list_elem_of_filter in Hb as [Hovb Hb].
      rewrite (Hobj i b Hi Hb Hab) in Hov. congruence. }
  by apply Hgen.
Qed.

(** ** Sorting *)

Lemma sortInsert_perm {A B : Type} `{PixelNumbers B}
    (compareFn : A -> A -> B) (a : A) (l : list A) :
  sortInsert compareFn a l ≡ₚ a :: l.
Proof.
  induction l as [|b l IH]; simpl; [reflexivity|].
  destruct (sign (compareFn a b)) as [[]|]; try reflexivity.
  rewrite IH. apply perm_swap.
Qed.

Lemma sort_perm {A B : Type} `{PixelNumbers B} (compareFn : A -> A -> B)
    (l : list A) :
  sort compareFn l ≡ₚ l.
Proof.
  induction l as [|a l IH]; simpl; [reflexivity|].
  unfold sort in IH. by rewrite sortInsert_perm, IH.
Qed.

Lemma signIs_true {B : Type} `{PixelNumbers B} (c : comparison) (v : B) :
  signIs c v = true <-> sign v = Some c.
Proof.
  unfold signIs. destruct (sign v) as [[]|], c; split; congruence.
Qed.

Lemma forallb_elem_of {A : Type} (f : A -> bool) (l : list A) :
  forallb f l = true <-> forall a, a ∈ l -> f a = true.
Proof.
  rewrite forallb_forall. split; intros Hf a Ha; apply Hf;
    by apply list_elem_of_In.
Qed.

(** The requirements on a consistent comparator, one by one. *)
Lemma consistentComparator_true {A B : Type} `{PixelNumbers B}
    (compareFn : A -> A -> B) (values : list A) :
  consistentComparator compareFn values = true <->
  forall a b c, a ∈ values -> b ∈ values -> c ∈ values ->
    (exists s, sign (compareFn a b) = Some s)
    /\ sign (compareFn a a) = Some Eq
    /\ (sign (compareFn a b) = Some Eq -> sign (compareFn b a) = Some Eq)
    /\ (sign (compareFn a b) = Some Eq -> sign (compareFn b c) = Some Eq ->
        sign (compareFn a c) = Some Eq)
    /\ (sign (compareFn a b) = Some Lt -> sign (compareFn b c) = Some Lt ->
        sign (compareFn a c) = Some Lt)
    /\ (sign (compareFn a b) = Some Gt -> sign (compareFn b c) = Some Gt ->
        sign (compareFn a c) = Some Gt).
Proof.
  unfold consistentComparator. rewrite forallb_elem_of.
  setoid_rewrite forallb_elem_of. setoid_rewrite forallb_elem_of.
  assert (forall a b c : A,
            (signIs Lt (compareFn a b) || signIs Eq (compareFn a b)
             || signIs Gt (compareFn a b))
            && signIs Eq (compareFn a a)
            && implb (signIs Eq (compareFn a b)) (signIs Eq (compareFn b a))
            && implb (signIs Eq (compareFn a b) && signIs Eq (compareFn b c))
                 (signIs Eq (compareFn a c))
            && implb (signIs Lt (compareFn a b) && signIs Lt (compareFn b c))
                 (signIs Lt (compareFn a c))
            && implb (signIs Gt (compareFn a b) && signIs Gt (compareFn b c))
                 (signIs Gt (compareFn a c)) = true
            <-> (exists s, sign (compareFn a b) = Some s)
                /\ sign (compareFn a a) = Some Eq
                /\ (sign (compareFn a b) = Some Eq ->
                    sign (compareFn b a) = Some Eq)
                /\ (sign (compareFn a b) = Some Eq ->
                    sign (compareFn b c) = Some Eq ->
                    sign (compareFn a c) = Some Eq)
                /\ (sign (compareFn a b) = Some Lt ->
                    sign (compareFn b c) = Some Lt ->
                    sign (compareFn a c) = Some Lt)
                /\ (sign (compareFn a b) = Some Gt ->
                    sign (compareFn b c) = Some Gt ->
                    sign (compareFn a c) = Some Gt)) as Hone.
  { intros a b c. unfold signIs.
    destruct (sign (compareFn a b)) as [[]|];
      destruct (sign (compareFn a a)) as [[]|];
      destruct (sign (compareFn b a)) as [[]|];
      destruct (sign (compareFn b c)) as [[]|];
      destruct (sign (compareFn a c)) as [[]|]; simpl;
      (split; [intros; try discriminate; repeat split; eauto; congruence
              |intros ([s Hs] & ? & Hsym & Heq & Hlt & Hgt);
               try discriminate; try reflexivity;
               try (specialize (Hsym eq_refl); discriminate);
               try (specialize (Heq eq_refl eq_refl); discriminate);
               try (specialize (Hlt eq_refl eq_refl); discriminate);
               try (specialize (Hgt eq_refl eq_refl); discriminate)]). }
  split.
  - intros Hall a b c Ha Hb Hc. apply Hone. by apply Hall.
  - intros Hall a Ha b Hb c Hc. apply Hone. by apply Hall.
Qed.

(** In a consistent comparator, a greater value is compared as greater
    from the other side as less, and an equal value takes the place of
    the other. *)
Lemma comparator_flip {A B : Type} `{PixelNumbers B}
    (compareFn : A -> A -> B) (values : list A) (a b : A) :
  consistentComparator compareFn values = true ->
  a ∈ values -> b ∈ values ->
  sign (compareFn a b) = Some Gt -> sign (compareFn b a) = Some Lt.
Proof.
  intros Hcons Ha Hb Hgt.
  pose proof (proj1 (consistentComparator_true _ _) Hcons) as Hall.
  destruct (Hall b a b Hb Ha Hb) as ([s Hs] & _ & Hsym & _ & _ & Hgg).
  destruct (Hall a b a Ha Hb Ha) as (_ & Hrefl & _ & _ & _ & Hgg').
  destruct s; [|assumption|].
  - specialize (Hsym Hs). congruence.
  - specialize (Hgg' Hgt Hs). congruence.
Qed.

Lemma comparator_flip_lt {A B : Type} `{PixelNumbers B}
    (compareFn : A -> A -> B) (values : list A) (a b : A) :
  consistentComparator compareFn values = true ->
  a ∈ values -> b ∈ values ->
  sign (compareFn a b) = Some Lt -> sign (compareFn b a) = Some Gt.
Proof.
  intros Hcons Ha Hb Hlt.
  pose proof (proj1 (consistentComparator_true _ _) Hcons) as Hall.
  destruct (Hall b a b Hb Ha Hb) as ([s Hs] & _ & Hsym & _ & _ & _).
  destruct (Hall a b a Ha Hb Ha) as (_ & Hrefl & _ & _ & Hll & _).
  destruct s; [| |assumption].
  - specialize (Hsym Hs). congruence.
  - specialize (Hll Hlt Hs). congruence.
Qed.

Lemma comparator_lt_eq {A B : Type} `{PixelNumbers B}
    (compareFn : A -> A -> B) (values : list A) (a b c : A) :
  consistentComparator compareFn values = true ->
  a ∈ values -> b ∈ values -> c ∈ values ->
  sign (compareFn a b) = Some Lt -> sign (compareFn b c) = Some Eq ->
  sign (compareFn a c) = Some Lt.
Proof.
  intros Hcons Ha Hb Hc Hab Hbc.
  pose proof (proj1 (consistentComparator_true _ _) Hcons) as Hall.
  destruct (Hall a c b Ha Hc Hb) as ([s Hs] & _ & _ & Hee & _ & _).
  destruct (Hall b c a Hb Hc Ha) as (_ & _ & Hsym & _ & _ & _).
  specialize (Hsym Hbc).
  destruct s; [|assumption|].
  - specialize (Hee Hs Hsym). congruence.
  - apply (comparator_flip _ values) in Hs; [|assumption..].
    destruct (Hall c a b Hc Ha Hb) as (_ & _ & _ & _ & Hll & _).
    specialize (Hll Hs Hab). congruence.
Qed.

Lemma comparator_eq_lt {A B : Type} `{PixelNumbers B}
    (compareFn : A -> A -> B) (values : list A) (a b c : A) :
  consistentComparator compareFn values = true ->
  a ∈ values -> b ∈ values -> c ∈ values ->
  sign (compareFn a b) = Some Eq -> sign (compareFn b c) = Some Lt ->
  sign (compareFn a c) = Some Lt.
Proof.
  intros Hcons Ha Hb Hc Hab Hbc.
  pose proof (proj1 (consistentComparator_true _ _) Hcons) as Hall.
  destruct (Hall a c b Ha Hc Hb) as ([s Hs] & _ & _ & _ & _ & _).
  destruct (Hall a b c Ha Hb Hc) as (_ & _ & Hsym & _ & _ & _).
  specialize (Hsym Hab).
  destruct s; [|assumption|].
  - destruct (Hall b a c Hb Ha Hc) as (_ & _ & _ & Hee & _ & _).
    specialize (Hee Hsym Hs). congruence.
  - apply (comparator_flip _ values) in Hs; [|assumption..].
    destruct (Hall b c a Hb Hc Ha) as (_ & _ & _ & _ & Hll & _).
    specialize (Hll Hbc Hs). congruence.
Qed.

(** What is ranked in front of [b] is ranked in front of what [b] is
    ranked in front of. *)
Lemma rankedBy_trans {A B : Type} `{PixelNumbers B}
    (compareFn : A -> A -> B) (before : relation A) (values : list A)
    (a b c : A) :
  consistentComparator compareFn values = true ->
  a ∈ values -> b ∈ values -> c ∈ values ->
  before a c ->
  sign (compareFn a b) = Some Lt \/ sign (compareFn a b) = Some Eq ->
  rankedBy compareFn before b c ->
  rankedBy compareFn before a c.
Proof.
  intros Hcons Ha Hb Hc Hac Hab Hbc.
  pose proof (proj1 (consistentComparator_true _ _) Hcons) as Hall.
  destruct (Hall a b c Ha Hb Hc) as (_ & _ & _ & Hee & Hll & _).
  unfold rankedBy in *.
  destruct Hab as [Hab|Hab]; destruct Hbc as [Hbc|[Hbc _]].
  - left. by apply Hll.
  - left. by apply (comparator_lt_eq _ values a b c).
  - left. by apply (comparator_eq_lt _ values a b c).
  - right. split; [by apply Hee|assumption].
Qed.

Lemma sortInsert_sorted {A B : Type} `{PixelNumbers B}
    (compareFn : A -> A -> B) (before : relation A) (values : list A)
    (a : A) (l : list A) :
  consistentComparator compareFn values = true ->
  a ∈ values -> Forall (.∈ values) l ->
  Forall (before a) l ->
  StronglySorted (rankedBy compareFn before) l ->
  StronglySorted (rankedBy compareFn before) (sortInsert compareFn a l).
Proof.
  intros Hcons Hin Hl Ha Hsorted.
  pose proof (proj1 (consistentComparator_true _ _) Hcons) as Hall.
  induction Hsorted as [|b l Hsorted IH Hb]; simpl.
  - repeat constructor.
  - apply Forall_cons in Ha as [Hab Ha]. apply Forall_cons in Hl as [Hbin Hl].
    destruct (Hall a b a Hin Hbin Hin) as ([s Hs] & _).
    rewrite Hs. destruct s.
    + constructor; [by constructor|]. constructor; [by right|].
      rewrite Forall_forall in Ha, Hb, Hl |- *. intros c Hc.
      apply (rankedBy_trans _ _ values a b c); auto.
    + constructor; [by constructor|]. constructor; [by left|].
      rewrite Forall_forall in Ha, Hb, Hl |- *. intros c Hc.
      apply (rankedBy_trans _ _ values a b c); auto.
    + constructor; [by apply IH|].
      rewrite sortInsert_perm. constructor; [|assumption].
      left. by apply (comparator_flip _ values).
Qed.

(** Sorting a list that is in the order [before] with a comparator that
    is consistent for it ranks the list, elements that compare as equal
    staying in the order [before]: the sort is stable. *)
Lemma sort_sorted {A B : Type} `{PixelNumbers B} (compareFn : A -> A -> B)
    (before : relation A) (l : list A) :
  consistentComparator compareFn l = true ->
  StronglySorted before l ->
  StronglySorted (rankedBy compareFn before) (sort compareFn l).
Proof.
  intros Hcons.
  assert (forall l', Forall (.∈ l) l' -> StronglySorted before l' ->
            StronglySorted (rankedBy compareFn before) (sort compareFn l'))
    as Hgen.
  { intros l' Hl' Hsorted.
    induction Hsorted as [|a l' Hsorted IH Ha]; simpl; [constructor|].
    apply Forall_cons in Hl' as [Hin Hl'].
    apply (sortInsert_sorted _ _ l); try assumption.
    - fold (sort compareFn l'). by rewrite sort_perm.
    - fold (sort compareFn l'). by rewrite sort_perm.
    - by apply IH. }
  apply Hgen. by apply Forall_forall.
Qed.

(** Two elements that are ranked in front of each other are one. *)
Lemma rankedBy_antisym {A B : Type} `{PixelNumbers B}
    (compareFn : A -> A -> B) (before : relation A) (values : list A)
    (a b : A) :
  consistentComparator compareFn values = true ->
  a ∈ values -> b ∈ values ->
  (before a b -> before b a -> False) ->
  rankedBy compareFn before a b -> rankedBy compareFn before b a -> False.
Proof.
  intros Hcons Ha Hb Hasym Hab Hba. unfold rankedBy in *.
  destruct Hab as [Hab|[Hab Hbef]].
  - apply (comparator_flip_lt _ values) in Hab; [|assumption..].
    destruct Hba as [Hba|[Hba _]]; congruence.
  - destruct Hba as [Hba|[_ Hbef']]; [|by apply Hasym].
    apply (comparator_flip_lt _ values) in Hba; [|assumption..]. congruence.
Qed.

(** The real numbers: the sign of a difference is the order of the
    numbers, and a difference of keys is a consistent comparator. *)
Lemma sign_real (v : R) :
  (sign v = Some Lt <-> (v < 0)%R)
  /\ (sign v = Some Eq <-> v = 0%R)
  /\ (sign v = Some Gt <-> (0 < v)%R).
Proof.
  simpl. destruct (Rlt_dec v 0); [|destruct (Rlt_dec 0 v)];
    (split; [|split]); split; intros; try congruence; try lra.
Qed.

Lemma consistentComparator_real {A : Type} (key : A -> R) (values : list A) :
  consistentComparator (fun a b => minus (key a) (key b)) values = true.
Proof.
  apply consistentComparator_true. intros a b c _ _ _.
  split; [eexists; reflexivity|].
  pose proof (sign_real (minus (key a) (key a))) as (? & Haa & ?).
  pose proof (sign_real (minus (key a) (key b))) as (Hab1 & Hab2 & Hab3).
  pose proof (sign_real (minus (key b) (key a))) as (Hba1 & Hba2 & Hba3).
  pose proof (sign_real (minus (key b) (key c))) as (Hbc1 & Hbc2 & Hbc3).
  pose proof (sign_real (minus (key a) (key c))) as (Hac1 & Hac2 & Hac3).
  change (@minus R reals) with Rminus in *.
  split; [apply Haa; lra|].
  split; [intros H1%Hab2; apply Hba2; lra|].
  split; [intros H1%Hab2 H2%Hbc2; apply Hac2; lra|].
  split; [intros H1%Hab1 H2%Hbc1; apply Hac1; lra|].
  intros H1%Hab3 H2%Hbc3. apply Hac3. lra.
Qed.

Lemma StronglySorted_lookup {A : Type} (R : relation A) (l : list A)
    (i j : nat) (a b : A) :
  StronglySorted R l -> (i < j)%nat ->
  l !! i = Some a -> l !! j = Some b -> R a b.
Proof.
  intros Hl. revert i j. induction Hl as [|c l Hl IH Hc]; intros i j Hij Ha Hb.
  - discriminate.
  - destruct j as [|j]; [lia|]. simpl in Hb. destruct i as [|i].
    + injection Ha as <-. rewrite Forall_forall in Hc. apply Hc.
      by eapply list_elem_of_lookup_2.
    + simpl in Ha. apply (IH i j); [lia|assumption..].
Qed.

Lemma StronglySorted_bind {A B : Type} (R1 : relation A) (R2 : relation B)
    (f : A -> list B) (l : list A) :
  StronglySorted R1 l ->
  (forall a, a ∈ l -> StronglySorted R2 (f a)) ->
  (forall a b u v, R1 a b -> u ∈ f a -> v ∈ f b -> R2 u v) ->
  StronglySorted R2 (l ≫= f).
Proof.
  intros Hl Hf Hcross. induction Hl as [|a l Hl IH Ha]; [constructor|].
  rewrite bind_cons. apply StronglySorted_app. split; [|split].
  - intros u v Hu Hv. apply list_elem_of_bind in Hv as (b & Hv & Hb).
    rewrite Forall_forall in Ha. by apply (Hcross a b); [apply Ha|..].
  - apply Hf, list_elem_of_here.
  - apply IH. intros b Hb. by apply Hf, list_elem_of_further.
Qed.

Lemma seqZ_sorted (m n : Z) : StronglySorted Z.lt (seqZ m n).
Proof.
  unfold seqZ. apply (StronglySorted_fmap _ lt).
  - intros i j Hij. lia.
  - generalize 0%nat. induction (Z.to_nat n) as [|k IH]; intros s; simpl;
      constructor; [apply IH|].
    apply Forall_forall. intros i Hi. apply elem_of_seq in Hi. lia.
Qed.

Lemma length_bind_const {A B : Type} (f : A -> list B) (l : list A) (n : nat) :
  (forall a, length (f a) = n) -> length (l ≫= f) = (length l * n)%nat.
Proof.
  intros Hf. induction l as [|a l IH]; [reflexivity|].
  rewrite bind_cons, length_app, Hf, IH. simpl. lia.
Qed.

(** ** The snap points *)

Lemma elem_of_possibleSnapPoints {B : Type} `{PixelNumbers B}
    (grid : GridDimensionsOf B) (a : SnapPoint B) :
  a ∈ possibleSnapPoints grid <->
  exists row column,
    0 <= row < rows grid /\ 0 <= column < columns grid
    /\ a = snapPoint grid row column.
Proof.
  unfold possibleSnapPoints. rewrite list_elem_of_bind. split.
  - intros (row & Ha & Hrow). apply list_elem_of_bind in Ha as (col & Ha & Hcol).
    apply list_elem_of_singleton in Ha. apply elem_of_seqZ in Hrow, Hcol.
    exists row, col. split; [lia|]. split; [lia|assumption].
  - intros (row & col & Hrow & Hcol & ->). exists row.
    split; [|apply elem_of_seqZ; lia]. apply list_elem_of_bind. exists col.
    split; [apply list_elem_of_singleton; reflexivity|apply elem_of_seqZ; lia].
Qed.

Lemma length_possibleSnapPoints {B : Type} `{PixelNumbers B}
    (grid : GridDimensionsOf B) :
  0 <= rows grid -> 0 <= columns grid ->
  length (possibleSnapPoints grid) = Z.to_nat (rows grid * columns grid).
Proof.
  intros Hr Hc. unfold possibleSnapPoints.
  rewrite (length_bind_const _ _ (Z.to_nat (columns grid))).
  - rewrite length_seqZ. lia.
  - intros row. rewrite (length_bind_const _ _ 1%nat) by reflexivity.
    rewrite length_seqZ. lia.
Qed.

Lemma possibleSnapPoints_sorted {B : Type} `{PixelNumbers B}
    (grid : GridDimensionsOf B) :
  StronglySorted enumeratedBefore (possibleSnapPoints grid).
Proof.
  unfold possibleSnapPoints, enumeratedBefore.
  apply (StronglySorted_bind Z.lt); [apply seqZ_sorted| |].
  - intros row _. apply (StronglySorted_bind Z.lt); [apply seqZ_sorted| |].
    + intros col _. repeat constructor.
    + intros c1 c2 u v Hc Hu Hv. apply list_elem_of_singleton in Hu, Hv.
      subst u v. right. simpl. lia.
  - intros r1 r2 u v Hr Hu Hv.
    apply list_elem_of_bind in Hu as (c1 & Hu & _).
    apply list_elem_of_bind in Hv as (c2 & Hv & _).
    apply list_elem_of_singleton in Hu, Hv. subst u v. left. simpl. lia.
Qed.

(** The two calls of [Array] return exactly for the grids that are
    [buildable]; the candidates are then sorted by the difference of
    their computed distances. *)
Lemma snapToSector_unfold {B : Type} `{PixelNumbers B}
    (grid : GridDimensionsOf B) (query : PixelPosition B) :
  snapToSector grid query
  = if decide (buildable grid)
    then OK (sort (distanceDifference query) (possibleSnapPoints grid))
    else Err RangeError.
Proof.
  unfold snapToSector, buildable.
  change (fun a b : SnapPoint B =>
            minus (distanceBetweenPoints (pixelPosition a) query)
                  (distanceBetweenPoints (pixelPosition b) query))
    with (distanceDifference query).
  destruct (isArrayLength (rows grid)) eqn:Hr; simpl.
  - apply isArrayLength_true in Hr.
    destruct (Z.ltb_spec 0 (rows grid)); simpl.
    + destruct (isArrayLength (columns grid)) eqn:Hc; simpl.
      * apply isArrayLength_true in Hc. rewrite decide_True; [done|]. lia.
      * apply isArrayLength_false in Hc. rewrite decide_False; [done|]. lia.
    + rewrite decide_True; [done|]. lia.
  - apply isArrayLength_false in Hr. rewrite decide_False; [done|]. lia.
Qed.

(** The ranking of a grid that is [buildable], for a comparator that is
    consistent: it is the candidates, ranked. *)
Lemma snapToSector_ranked {B : Type} `{PixelNumbers B}
    (grid : GridDimensionsOf B) (query : PixelPosition B) :
  buildable grid ->
  consistentComparator (distanceDifference query) (possibleSnapPoints grid)
  = true ->
  exists ranked,
    snapToSector grid query = OK ranked
    /\ ranked ≡ₚ possibleSnapPoints grid
    /\ StronglySorted (rankedBefore query) ranked.
Proof.
  intros Hgrid Hcons. rewrite snapToSector_unfold, decide_True by assumption.
  eexists. split; [reflexivity|]. split; [apply sort_perm|].
  apply sort_sorted; [assumption|apply possibleSnapPoints_sorted].
Qed.

Lemma enumeratedBefore_asym {B : Type} (a b : SnapPoint B) :
  enumeratedBefore a b -> enumeratedBefore b a -> False.
Proof.
  unfold enumeratedBefore, rowMajorLt. lia.
Qed.

(** ** Repairing what was repaired *)

Lemma findPosition_fits {T : Type} (grid : GridDimensions)
    (layout : Layout T) (item : LayoutItemSize) (p : Position) :
  findPositionForItemInGrid grid layout item = OK (Some p) ->
  fitsGrid grid item p.
Proof.
  intros Hfind.
  destruct (findPosition_returns _ _ _ _ Hfind) as [arr Harr].
  destruct (findPosition_spec grid layout item arr Harr) as (r & Hr & Hspec).
  rewrite Hfind in Hr. injection Hr as <-.
  by destruct Hspec as (_ & (_ & Hfits & _) & _).
Qed.

Lemma elem_of_created {T : Type} (outcomes : list (option (Obj T)))
    (new : Obj T) :
  new ∈ created outcomes -> exists k, outcomes !! k = Some (Some new).
Proof.
  unfold created. rewrite list_elem_of_omap.
  intros ([o|] & Hin & [= ->]). by apply list_elem_of_lookup_1.
Qed.

(** Nothing in a repaired layout overflows, so that repairing it again
    gives a layout that is equal to it by value. *)
Lemma fixHorizontalOverflows_twice {T : Type} (grid : GridDimensions)
    (h h' : Heap T) (layout newLayout : nat) (items : list (Obj T)) :
  h !! layout = Some items ->
  fixHorizontalOverflows grid layout h = (OK newLayout, h') ->
  exists result,
    h' !! newLayout = Some result
    /\ Forall (fun i => overflows grid (fields i) = false) result
    /\ fixHorizontalOverflows grid newLayout h'
       = (OK (length h'), h' ++ [result]).
Proof.
  intros Hlayout H. unfold fixHorizontalOverflows in H.
  rewrite (elements_lookup _ _ _ Hlayout) in H. simpl in H.
  destruct (repairLoop_spec grid h items items (fun i Hi => Hi) [] []
              (length h) (h ++ [items]) newLayout h')
    as (_ & _ & outcomes & Hlen & Hres & Hsteps).
  - intros r Hr. by apply lookup_app_l.
  - reflexivity.
  - rewrite remaining_nil, app_nil_r. apply lookup_newArray.
  - intros i Hi. apply (elem_of_heap _ (length h) items);
      [apply lookup_newArray|assumption].
  - intros new Hnew. by apply elem_of_nil in Hnew.
  - exact H.
  - simpl in Hres, Hsteps.
    eexists. split; [exact Hres|].
    assert (Forall (fun i => overflows grid (fields i) = false)
              (remaining items (overflowing grid items) ++ created outcomes))
      as Hfits.
    { apply Forall_app. split; apply Forall_forall.
      - intros i Hi. apply list_elem_of_filter in Hi as [Hgone Hi].
        destruct (overflows grid (fields i)) eqn:Hov; [|reflexivity].
        destruct Hgone. apply list_elem_of_fmap_2.
        rewrite overflowing_overflows. by apply list_elem_of_filter.
      - intros new Hnew. apply elem_of_created in Hnew as [k Hk].
        destruct (lookup_lt_is_Some_2 (overflowing grid items) k)
          as [item Hitem]; [rewrite <- Hlen; by eapply lookup_lt_Some|].
        destruct (Hsteps k item (Some new) Hitem Hk)
          as (p & Hfind & Hpos & Hsize & _).
        apply findPosition_fits in Hfind as (_ & _ & Hw & Hh).
        apply overflows_false. rewrite Hpos, Hsize. lia. }
    split; [exact Hfits|].
    unfold fixHorizontalOverflows. rewrite (elements_lookup _ _ _ Hres).
    simpl. by apply repairLoop_no_overflow.
Qed.

(** ** Where a fold stops *)

Lemma foldM_Err {A B : Type} (f : B -> A -> Result B) (b : B) (l : list A)
    (e : JsError) :
  foldM f b l = Err e ->
  exists l1 a l2 b1,
    l = l1 ++ a :: l2 /\ foldM f b l1 = OK b1 /\ f b1 a = Err e.
Proof.
  revert b. induction l as [|a l IH]; intros b H; [discriminate|].
  simpl in H. apply bind_Err in H as [H|(b' & Hb' & H)].
  - exists [], a, l, b. auto.
  - destruct (IH _ H) as (l1 & a' & l2 & b1 & -> & Hl1 & Ha').
    exists (a :: l1), a', l2, b1. split; [reflexivity|].
    split; [|assumption]. simpl. by rewrite Hb'.
Qed.

(** The overlap error is thrown at the first sector, in visiting order,
    whose cell is already marked. *)
Lemma layoutTo2DArray_overlap_first {T : Type} (grid : GridDimensions)
    (layout : Layout T) :
  layoutTo2DArray grid layout false = Err OverlapError ->
  exists arr0 before s after arr1,
    emptyGrid grid = OK arr0
    /\ layout ≫= layoutItemToSectors = before ++ s :: after
    /\ foldM (markSector grid false) arr0 before = OK arr1
    /\ occupied arr1 (x s) (y s) = true
    /\ markSector grid false arr1 s = Err OverlapError.
Proof.
  rewrite layoutTo2DArray_flat. intros H.
  apply bind_Err in H as [H|(arr0 & H0 & H)].
  - apply emptyGrid_Err in H. discriminate.
  - apply foldM_Err in H as (before & s & after & arr1 & Hsplit & Hbefore & Hs).
    exists arr0, before, s, after, arr1.
    split; [assumption|]. split; [assumption|]. split; [assumption|].
    split; [|assumption].
    destruct (emptyGrid_OK _ _ H0) as [Hdim0 _].
    destruct (markSectors_OK _ _ _ _ _ Hdim0 Hbefore) as [Hdim1 _].
    by apply markSector_Err in Hs as (_ & _ & [[[=] _]|(_ & _ & _ & ?)]).
Qed.

(** ** Matrices of layouts without negative columns *)

Lemma markSector_plain (grid : GridDimensions) (allow : bool)
    (arr arr' : Grid2DArray) (s : Position) :
  0 <= x s ->
  hasDimensions grid arr -> plainMatrix arr ->
  markSector grid allow arr s = OK arr' ->
  plainMatrix arr'.
Proof.
  intros Hx (Hlen & Hrows & Hrow) Hplain H.
  destruct (decide (columns grid <= x s \/ rows grid <= y s)) as [Hskip|Hin].
  { rewrite markSector_skip in H by assumption. by injection H as <-. }
  unfold markSector in H.
  destruct (Z.leb_spec (columns grid) (x s)); [lia|].
  destruct (Z.leb_spec (rows grid) (y s)); [lia|]. simpl in H.
  destruct (get arr (y s)) as [row|] eqn:Hget; [|discriminate].
  destruct (truthy (get row (x s)) && negb allow); [discriminate|].
  injection H as <-. destruct (Hrow _ _ Hget) as [Hrl _].
  intros cy Hcy. simpl in Hcy. rewrite get_mutated.
  case_decide as Heq; [|by apply Hplain].
  subst cy. eexists. split; [reflexivity|].
  destruct (Hplain (y s) Hcy) as (row' & Hget' & Hrow').
  rewrite Hget in Hget'. injection Hget' as <-.
  intros cx. rewrite get_set, arrayLength_set by lia.
  case_decide as Hcx; [|apply Hrow'].
  subst cx. split; [lia|eauto].
Qed.

Lemma layoutTo2DArray_plain {T : Type} (grid : GridDimensions)
    (layout : Layout T) (allow : bool) (arr : Grid2DArray) :
  Forall (fun item => 0 <= x (itemPosition item)) layout ->
  layoutTo2DArray grid layout allow = OK arr ->
  plainMatrix arr.
Proof.
  intros Hlayout. rewrite layoutTo2DArray_flat. intros H.
  apply bind_OK in H as (arr0 & H0 & H).
  assert (plainMatrix arr0) as Hplain0.
  { unfold emptyGrid in H0. repeat case_match; try discriminate;
      injection H0 as <-; apply fromList_plainMatrix, Forall_forall;
      intros row Hrow; apply elem_of_replicate in Hrow as [-> _];
      apply fromList_plainRow. }
  apply emptyGrid_OK in H0 as [Hdim0 _].
  assert (Forall (fun s => 0 <= x s) (layout ≫= layoutItemToSectors)) as Hs.
  { apply Forall_forall. intros s Hs.
    apply list_elem_of_bind in Hs as (item & Hs & Hitem).
    apply layoutItemToSectors_nonneg in Hs.
    rewrite Forall_forall in Hlayout. apply Hlayout in Hitem. lia. }
  revert arr0 Hplain0 Hdim0 H.
  induction Hs as [|s ss Hs _ IH]; intros arr0 Hplain0 Hdim0 H.
  - by injection H as <-.
  - simpl in H. apply bind_OK in H as (arr1 & H1 & H).
    apply (IH arr1); [|by eapply markSector_OK|assumption].
    by eapply markSector_plain.
Qed.

(** ** Placing at a given position *)

(** The collision checker on the matrix of a layout: a collision is a
    cell shared with an item of the layout below both extents. *)
Lemma willItemOverlay_layout {T U : Type} (grid : GridDimensions)
    (layout : Layout T) (allow : bool) (arr : Grid2DArray)
    (item : LayoutItem U) :
  layoutTo2DArray grid layout allow = OK arr ->
  0 <= y (itemPosition item) ->
  exists b,
    willItemOverlay arr item = OK b
    /\ (b = true <->
        exists cx cy other,
          covers item cx cy /\ cx < columns grid /\ cy < rows grid
          /\ other ∈ layout /\ covers other cx cy).
Proof.
  intros Harr Hy.
  apply layoutTo2DArray_OK in Harr as [Hdim Hocc].
  destruct (willItemOverlay_spec arr item (hasDimensions_dense _ _ Hdim) Hy)
    as (b & Hb & Hiff).
  destruct Hdim as (Hlen & Hrows & Hrow).
  exists b. split; [assumption|]. rewrite Hiff. split.
  - intros (cx & cy & row & Hcov & Hcy & Hget & Hcx & Htrue).
    rewrite <- (occupied_row _ _ _ _ Hget) in Htrue.
    apply Hocc in Htrue as (? & ? & other & ? & ?).
    by exists cx, cy, other.
  - intros (cx & cy & other & Hcov & Hcx & Hcy & Hother & Hcov').
    assert (0 <= cy) as Hcy0 by (unfold covers in Hcov; lia).
    destruct (proj2 (Hrows cy)) as [row Hget]; [lia|].
    destruct (Hrow _ _ Hget) as [Hrl _].
    exists cx, cy, row. split; [assumption|]. split; [lia|].
    split; [assumption|]. split; [lia|].
    rewrite <- (occupied_row _ _ _ _ Hget). apply Hocc. eauto.
Qed.

Lemma overlayLoop_Err (arr : Grid2DArray) (sectors : list Position)
    (e : JsError) :
  overlayLoop arr sectors = Err e ->
  e = TypeError /\ exists s, s ∈ sectors.
Proof.
  induction sectors as [|s sectors IH]; [discriminate|]. simpl. intros H.
  split; [|exists s; apply list_elem_of_here].
  destruct (arrayLength arr <=? y s); [by apply IH|].
  destruct (get arr (y s)) as [row|]; [|congruence].
  destruct (arrayLength row <=? x s); [by apply IH|].
  destruct (truthy (get row (x s))); [discriminate|by apply IH].
Qed.

Lemma canPlace_out_of_bounds {T : Type} (grid : GridDimensions)
    (layout : Layout T) (item : LayoutItemSize) (p : Position) :
  columns grid < x p + width item \/ rows grid < y p + height item ->
  canPlaceItemInGrid grid layout item p = OK false.
Proof.
  intros H. unfold canPlaceItemInGrid.
  destruct (Z.ltb_spec (columns grid) (x p + width item));
    destruct (Z.ltb_spec (rows grid) (y p + height item)); simpl;
    try reflexivity; lia.
Qed.

Lemma canPlace_in_bounds {T : Type} (grid : GridDimensions)
    (layout : Layout T) (item : LayoutItemSize) (p : Position) :
  x p + width item <= columns grid -> y p + height item <= rows grid ->
  canPlaceItemInGrid grid layout item p
  = arr ← layoutTo2DArray grid layout false;
    overlay ← willItemOverlay arr (sizeAt item p);
    if (overlay : bool) then OK false else OK true.
Proof.
  intros Hx Hy. unfold canPlaceItemInGrid.
  destruct (Z.ltb_spec (columns grid) (x p + width item)); [lia|].
  destruct (Z.ltb_spec (rows grid) (y p + height item)); [lia|].
  reflexivity.
Qed.

Lemma canPlace_spec {T : Type} (grid : GridDimensions)
    (layout : Layout T) (item : LayoutItemSize) (p : Position)
    (arr : Grid2DArray) :
  layoutTo2DArray grid layout false = OK arr ->
  0 <= y p ->
  exists b,
    canPlaceItemInGrid grid layout item p = OK b
    /\ (b = true <->
        x p + width item <= columns grid
        /\ y p + height item <= rows grid
        /\ forall cx cy other,
             covers (sizeAt item p) cx cy -> other ∈ layout ->
             ~ covers other cx cy).
Proof.
  intros Harr Hy.
  destruct (decide (columns grid < x p + width item
                    \/ rows grid < y p + height item)) as [Hout|Hin].
  { exists false. split; [by apply canPlace_out_of_bounds|].
    split; [discriminate|]. intros (? & ? & _). lia. }
  rewrite canPlace_in_bounds, Harr by lia. simpl.
  destruct (willItemOverlay_layout grid layout false arr (sizeAt item p)
              Harr Hy) as (b & -> & Hiff).
  simpl. exists (negb b). split; [by destruct b|].
  split.
  - intros Hb. split; [lia|]. split; [lia|].
    intros cx cy other Hcov Hother Hcov'.
    assert (b = true); [|subst b; discriminate].
    apply Hiff. exists cx, cy, other.
    unfold covers in Hcov. simpl in Hcov.
    split; [exact Hcov|]. split; [lia|]. split; [lia|]. done.
  - intros (_ & _ & Hfree). destruct b; [|reflexivity]. exfalso.
    destruct (proj1 Hiff eq_refl) as (cx & cy & other & Hcov & _ & _ & Hin' & Hcov').
    by apply (Hfree cx cy other).
Qed.

(** ** Footprints are enumerated once *)

Lemma StronglySorted_NoDup {A : Type} (R : relation A) (l : list A) :
  (forall a, ~ R a a) -> StronglySorted R l -> NoDup l.
Proof.
  intros Hirr. induction 1 as [|a l Hl IH Ha]; constructor; [|assumption].
  intros Hin. rewrite Forall_forall in Ha. by apply (Hirr a), Ha.
Qed.

Lemma layoutItemToSectors_sorted {T : Type} (item : LayoutItem T) :
  StronglySorted columnMajorLt (layoutItemToSectors item).
Proof.
  unfold layoutItemToSectors, columnMajorLt.
  apply (StronglySorted_bind Z.lt); [apply seqZ_sorted| |].
  - intros i _. apply (StronglySorted_bind Z.lt); [apply seqZ_sorted| |].
    + intros j _. repeat constructor.
    + intros j1 j2 u v Hj Hu Hv. apply list_elem_of_singleton in Hu, Hv.
      subst u v. right. simpl. lia.
  - intros i1 i2 u v Hi Hu Hv.
    apply list_elem_of_bind in Hu as (j1 & Hu & _).
    apply list_elem_of_bind in Hv as (j2 & Hv & _).
    apply list_elem_of_singleton in Hu, Hv. subst u v. left. simpl. lia.
Qed.

Lemma layoutItemToSectors_NoDup {T : Type} (item : LayoutItem T) :
  NoDup (layoutItemToSectors item).
Proof.
  apply (StronglySorted_NoDup columnMajorLt);
    [|apply layoutItemToSectors_sorted].
  intros s. unfold columnMajorLt. lia.
Qed.

Lemma length_layoutItemToSectors {T : Type} (item : LayoutItem T) :
  length (layoutItemToSectors item)
  = (Z.to_nat (width (itemSize item)) * Z.to_nat (height (itemSize item)))%nat.
Proof.
  unfold layoutItemToSectors.
  rewrite (length_bind_const _ _ (Z.to_nat (height (itemSize item)))).
  - by rewrite length_seqZ.
  - intros i. rewrite (length_bind_const _ _ 1%nat) by reflexivity.
    rewrite length_seqZ. lia.
Qed.

(** ** When marking returns *)

Lemma markSector_returns (grid : GridDimensions) (allow : bool)
    (arr : Grid2DArray) (s : Position) :
  hasDimensions grid arr ->
  (exists arr', markSector grid allow arr s = OK arr')
  <-> (x s < columns grid -> y s < rows grid ->
       0 <= y s /\ (allow = false -> occupied arr (x s) (y s) = false)).
Proof.
  intros Hdim. split.
  - intros [arr' H] Hx Hy. destruct Hdim as (Hlen & Hrows & Hrow).
    unfold markSector in H.
    destruct (Z.leb_spec (columns grid) (x s)); [lia|].
    destruct (Z.leb_spec (rows grid) (y s)); [lia|]. simpl in H.
    destruct (get arr (y s)) as [row|] eqn:Hget; [|discriminate].
    split; [apply Hrows; eauto|]. intros ->.
    rewrite (occupied_row _ _ _ _ Hget).
    by destruct (truthy (get row (x s))).
  - intros H.
    destruct (decide (columns grid <= x s \/ rows grid <= y s)) as [Hskip|Hin].
    { exists arr. by apply markSector_skip. }
    destruct H as [Hy Hfree]; [lia..|].
    destruct Hdim as (Hlen & Hrows & Hrow).
    destruct (proj2 (Hrows (y s))) as [row Hget]; [lia|].
    unfold markSector.
    destruct (Z.leb_spec (columns grid) (x s)); [lia|].
    destruct (Z.leb_spec (rows grid) (y s)); [lia|]. simpl.
    rewrite Hget. destruct allow; simpl.
    + rewrite andb_false_r. eauto.
    + rewrite (occupied_row _ _ _ _ Hget) in Hfree.
      rewrite Hfree by reflexivity. simpl. eauto.
Qed.

Lemma markSectors_returns (grid : GridDimensions) (allow : bool)
    (sectors : list Position) (arr : Grid2DArray) :
  hasDimensions grid arr ->
  (exists arr', foldM (markSector grid allow) arr sectors = OK arr')
  <-> (forall s, s ∈ sectors -> x s < columns grid -> y s < rows grid ->
         0 <= y s /\ (allow = false -> occupied arr (x s) (y s) = false))
      /\ (allow = false ->
          NoDup (filter (fun s => x s < columns grid /\ y s < rows grid)
                   sectors)).
Proof.
  revert arr. induction sectors as [|s sectors IH]; intros arr Hdim.
  { split; [|by eexists]. intros _. split; [|constructor].
    intros s Hs. by apply elem_of_nil in Hs. }
  simpl. split.
  - intros [arr' H]. apply bind_OK in H as (arr1 & H1 & H).
    destruct (markSector_OK _ _ _ _ _ Hdim H1) as [Hdim1 Hocc1].
    destruct (proj1 (IH arr1 Hdim1)) as [Hss Hnodup]; [eauto|].
    pose proof (proj1 (markSector_returns grid allow arr s Hdim)
                  (ex_intro _ arr1 H1)) as Hs.
    split.
    + intros s' Hs' Hx Hy. apply elem_of_cons in Hs' as [->|Hs'].
      * by apply Hs.
      * destruct (Hss s' Hs' Hx Hy) as [Hy0 Hfree]. split; [assumption|].
        intros Hallow. specialize (Hfree Hallow).
        destruct (occupied arr (x s') (y s')) eqn:Hocc; [|reflexivity].
        rewrite <- Hfree. symmetry. apply Hocc1. by left.
    + intros Hallow.
      destruct (decide (x s < columns grid /\ y s < rows grid)) as [Hin|Hout].
      * rewrite filter_cons_True by assumption. constructor; [|auto].
        intros Hdup. apply list_elem_of_filter in Hdup as [_ Hdup].
        destruct (Hss s Hdup) as [_ Hfree]; [lia..|].
        assert (occupied arr1 (x s) (y s) = true) as Htrue
          by (apply Hocc1; right; lia).
        rewrite Hfree in Htrue by assumption. discriminate.
      * rewrite filter_cons_False by assumption. auto.
  - intros [Hss Hnodup].
    destruct (proj2 (markSector_returns grid allow arr s Hdim)) as [arr1 H1].
    { apply Hss, list_elem_of_here. }
    rewrite H1. simpl.
    destruct (markSector_OK _ _ _ _ _ Hdim H1) as [Hdim1 Hocc1].
    apply IH; [assumption|]. split.
    + intros s' Hs' Hx Hy.
      destruct (Hss s') as [Hy0 Hfree];
        [by apply list_elem_of_further|assumption..|].
      split; [assumption|]. intros Hallow. specialize (Hfree Hallow).
      destruct (occupied arr1 (x s') (y s')) eqn:Hocc; [|reflexivity].
      apply Hocc1 in Hocc as [Hocc|(Hsx & Hsy & Hex & Hey)]; [congruence|].
      exfalso. specialize (Hnodup Hallow).
      rewrite filter_cons_True in Hnodup by lia.
      apply NoDup_cons in Hnodup as [Hnot _]. apply Hnot.
      apply list_elem_of_filter. split; [lia|].
      destruct s, s'. simpl in *. by subst.
    + intros Hallow. specialize (Hnodup Hallow).
      destruct (decide (x s < columns grid /\ y s < rows grid)) as [Hin|Hout].
      * rewrite filter_cons_True in Hnodup by assumption.
        by apply NoDup_cons in Hnodup as [_ ?].
      * by rewrite filter_cons_False in Hnodup by assumption.
Qed.

Lemma elem_of_marked_sectors {T : Type} (grid : GridDimensions)
    (item : LayoutItem T) (s : Position) :
  s ∈ filter (fun s => x s < columns grid /\ y s < rows grid)
        (layoutItemToSectors item)
  <-> marks grid item (x s) (y s).
Proof.
  rewrite list_elem_of_filter, elem_of_layoutItemToSectors. unfold marks.
  tauto.
Qed.

(** The cells that are written for the items of a layout are written
    once when the items are disjoint two by two. *)
Lemma NoDup_marked_sectors {T : Type} (grid : GridDimensions)
    (layout : Layout T) :
  NoDup (filter (fun s => x s < columns grid /\ y s < rows grid)
           (layout ≫= layoutItemToSectors))
  <-> StronglySorted (disjointInGrid grid) layout.
Proof.
  induction layout as [|a layout IH].
  { split; constructor. }
  rewrite bind_cons, filter_app, NoDup_app, StronglySorted_cons, IH.
  split.
  - intros (_ & Hdisj & Hrest). split; [|assumption].
    apply Forall_forall. intros b Hb cx cy Ha Hcov.
    apply (Hdisj {| x := cx; y := cy |}).
    + by apply elem_of_marked_sectors.
    + apply list_elem_of_filter. destruct Ha as (_ & ? & ?).
      split; [done|]. apply list_elem_of_bind. exists b.
      split; [|assumption]. by apply elem_of_layoutItemToSectors.
  - intros (Ha & Hrest). split; [|split; [|assumption]].
    + apply NoDup_filter, layoutItemToSectors_NoDup.
    + intros s Hs Hs'. apply elem_of_marked_sectors in Hs.
      apply list_elem_of_filter in Hs' as [_ Hs'].
      apply list_elem_of_bind in Hs' as (b & Hs' & Hb).
      apply elem_of_layoutItemToSectors in Hs'.
      rewrite Forall_forall in Ha. by apply (Ha b Hb (x s) (y s)).
Qed.

Lemma emptyGrid_returns (grid : GridDimensions) :
  (exists arr, emptyGrid grid = OK arr)
  <-> 0 <= rows grid < 2 ^ 32
      /\ (rows grid = 0 \/ 0 <= columns grid < 2 ^ 32).
Proof.
  rewrite emptyGrid_unfold. fold (buildable grid).
  case_decide; split; [done|eauto|by intros [? [=]]|done].
Qed.

(** Building the matrix returns exactly for the layouts that write no
    cell in a row above row 0 and, when overlap is not allowed, no cell
    twice. *)
Lemma layoutTo2DArray_returns {T : Type} (grid : GridDimensions)
    (layout : Layout T) (allow : bool) :
  (exists arr, layoutTo2DArray grid layout allow = OK arr)
  <-> 0 <= rows grid < 2 ^ 32
      /\ (rows grid = 0 \/ 0 <= columns grid < 2 ^ 32)
      /\ Forall (rowsFromZero grid) layout
      /\ (allow = false -> StronglySorted (disjointInGrid grid) layout).
Proof.
  rewrite layoutTo2DArray_flat, <- NoDup_marked_sectors. split.
  - intros [arr H]. apply bind_OK in H as (arr0 & H0 & H).
    pose proof (proj1 (emptyGrid_returns grid) (ex_intro _ arr0 H0)) as Hgrid.
    apply emptyGrid_OK in H0 as [Hdim0 Hfree].
    destruct (proj1 (markSectors_returns grid allow
                       (layout ≫= layoutItemToSectors) arr0 Hdim0))
      as [Hss Hnodup]; [eauto|].
    split; [tauto|]. split; [tauto|]. split; [|assumption].
    apply Forall_forall. intros item Hitem cx cy (Hcov & Hcx & Hcy).
    destruct (Hss {| x := cx; y := cy |}) as [? _]; [|done..].
    apply list_elem_of_bind. exists item.
    split; [|assumption]. by apply elem_of_layoutItemToSectors.
  - intros (Hrows & Hcols & Hzero & Hnodup).
    destruct (proj2 (emptyGrid_returns grid)) as [arr0 H0]; [tauto|].
    rewrite H0. simpl. apply emptyGrid_OK in H0 as [Hdim0 Hfree].
    apply markSectors_returns; [assumption|]. split; [|assumption].
    intros s Hs Hx Hy. split; [|intros _; apply Hfree].
    apply list_elem_of_bind in Hs as (item & Hs & Hitem).
    rewrite Forall_forall in Hzero. apply (Hzero item Hitem (x s) (y s)).
    split; [by apply elem_of_layoutItemToSectors|done].
Qed.

(** ** The slots of the matrix *)

Lemma emptyGrid_marksOutside (grid : GridDimensions) (arr : Grid2DArray) :
  emptyGrid grid = OK arr -> marksOutside grid arr.
Proof.
  intros H cy row cx b Hrow Hcell. left.
  assert (arr = fromList (replicate (Z.to_nat (rows grid))
                  (fromList (replicate (Z.to_nat (columns grid)) false))))
    as ->.
  { rewrite emptyGrid_unfold in H. case_decide; congruence. }
  rewrite get_fromList_replicate in Hrow. case_decide; [|discriminate].
  injection Hrow as <-. rewrite get_fromList_replicate in Hcell.
  case_decide; [assumption|discriminate].
Qed.

Lemma markSector_marksOutside (grid : GridDimensions) (allow : bool)
    (arr arr' : Grid2DArray) (s : Position) :
  marksOutside grid arr ->
  markSector grid allow arr s = OK arr' ->
  marksOutside grid arr'.
Proof.
  intros Hout H. unfold markSector in H.
  destruct (_ || _); [by injection H as <-|].
  destruct (get arr (y s)) as [row|] eqn:Hget; [|discriminate].
  destruct (_ && _); [discriminate|]. injection H as <-.
  intros cy row' cx b. rewrite get_mutated.
  case_decide as Hcy; [|apply Hout].
  intros [= <-]. rewrite get_set. case_decide; [|by apply (Hout (y s))].
  intros [= <-]. by right.
Qed.

Lemma markSectors_marksOutside (grid : GridDimensions) (allow : bool)
    (sectors : list Position) (arr arr' : Grid2DArray) :
  marksOutside grid arr ->
  foldM (markSector grid allow) arr sectors = OK arr' ->
  marksOutside grid arr'.
Proof.
  revert arr. induction sectors as [|s sectors IH]; intros arr Hout H.
  - by injection H as <-.
  - simpl in H. apply bind_OK in H as (arr1 & H1 & H).
    apply (IH arr1); [|assumption]. by eapply markSector_marksOutside.
Qed.

Lemma layoutTo2DArray_marksOutside {T : Type} (grid : GridDimensions)
    (layout : Layout T) (allow : bool) (arr : Grid2DArray) :
  layoutTo2DArray grid layout allow = OK arr -> marksOutside grid arr.
Proof.
  rewrite layoutTo2DArray_flat. intros H.
  apply bind_OK in H as (arr0 & H0 & H).
  eapply markSectors_marksOutside; [|exact H].
  by apply emptyGrid_marksOutside.
Qed.

(** What a slot of a row holds, read off the occupancy. *)
Lemma row_slot (grid : GridDimensions) (arr : Grid2DArray)
    (row : JsArray bool) (cx cy : Z) :
  hasDimensions grid arr -> marksOutside grid arr ->
  get arr cy = Some row ->
  get row cx = if occupied arr cx cy then Some true
               else if decide (0 <= cx < columns grid) then Some false
               else None.
Proof.
  intros (Hlen & Hrows & Hrow) Hout Hget.
  rewrite (occupied_row _ _ _ _ Hget).
  destruct (Hrow _ _ Hget) as [Hrl Hdense].
  destruct (get row cx) as [b|] eqn:Hcell; simpl.
  - destruct b; [reflexivity|].
    destruct (Hout _ _ _ _ Hget Hcell) as [?|[=]]. by rewrite decide_True.
  - case_decide as Hcx; [|reflexivity].
    destruct (Hdense cx) as [b Hb]; [lia|]. congruence.
Qed.

(** Two matrices of [grid] with the same occupancy are the same. *)
Lemma matrix_ext (grid : GridDimensions) (arr arr' : Grid2DArray) :
  hasDimensions grid arr -> marksOutside grid arr ->
  hasDimensions grid arr' -> marksOutside grid arr' ->
  (forall cx cy, occupied arr cx cy = occupied arr' cx cy) ->
  arr = arr'.
Proof.
  intros Hdim Hout Hdim' Hout' Hocc.
  assert (forall cy, get arr cy = get arr' cy) as Hrows.
  { intros cy.
    destruct (get arr cy) as [row|] eqn:Hget;
      destruct (get arr' cy) as [row'|] eqn:Hget'.
    - f_equal.
      assert (forall cx, get row cx = get row' cx) as Hcells.
      { intros cx. rewrite (row_slot grid arr row cx cy) by assumption.
        rewrite (row_slot grid arr' row' cx cy) by assumption.
        by rewrite Hocc. }
      destruct Hdim as (_ & _ & Hrow), Hdim' as (_ & _ & Hrow').
      destruct (Hrow _ _ Hget) as [Hrl _], (Hrow' _ _ Hget') as [Hrl' _].
      destruct row as [n m], row' as [n' m']. simpl in *. f_equal.
      + congruence.
      + apply map_eq. exact Hcells.
    - destruct Hdim as (_ & Hr & _), Hdim' as (_ & Hr' & _).
      assert (is_Some (get arr' cy)) as [? ?]
        by (apply Hr', Hr; eauto). congruence.
    - destruct Hdim as (_ & Hr & _), Hdim' as (_ & Hr' & _).
      assert (is_Some (get arr cy)) as [? ?]
        by (apply Hr, Hr'; eauto). congruence.
    - reflexivity. }
  destruct Hdim as (Hlen & _), Hdim' as (Hlen' & _).
  destruct arr as [n m], arr' as [n' m']. simpl in *. f_equal.
  - congruence.
  - apply map_eq. exact Hrows.
Qed.

(** ** The order of the items *)

Lemma layoutTo2DArray_Permutation {T : Type} (grid : GridDimensions)
    (layout layout' : Layout T) (allow : bool) (arr : Grid2DArray) :
  layout ≡ₚ layout' ->
  layoutTo2DArray grid layout allow = OK arr ->
  layoutTo2DArray grid layout' allow = OK arr.
Proof.
  intros Hperm Harr.
  assert (exists arr', layoutTo2DArray grid layout' allow = OK arr')
    as [arr' Harr'].
  { apply layoutTo2DArray_returns.
    destruct (proj1 (layoutTo2DArray_returns grid layout allow))
      as (Hrows & Hcols & Hzero & Hdisj); [eauto|].
    split; [assumption|]. split; [assumption|].
    split; [by rewrite <- Hperm|].
    intros Hallow. apply NoDup_marked_sectors. rewrite <- Hperm.
    by apply NoDup_marked_sectors, Hdisj. }
  rewrite Harr'. f_equal.
  destruct (layoutTo2DArray_OK _ _ _ _ Harr) as [Hdim Hocc].
  destruct (layoutTo2DArray_OK _ _ _ _ Harr') as [Hdim' Hocc'].
  apply (matrix_ext grid); try assumption;
    [by eapply layoutTo2DArray_marksOutside..|].
  intros cx cy. apply eq_true_iff_eq. rewrite Hocc, Hocc'.
  by setoid_rewrite Hperm.
Qed.

(** ** Pairs of items *)

Lemma StronglySorted_lookup_2 {A : Type} (R : relation A) (l : list A) :
  (forall i j a b,
     (i < j)%nat -> l !! i = Some a -> l !! j = Some b -> R a b) ->
  StronglySorted R l.
Proof.
  induction l as [|a l IH]; intros H; constructor.
  - apply IH. intros i j b c Hij Hb Hc. by apply (H (S i) (S j)); [lia|..].
  - apply Forall_forall. intros b Hb.
    apply list_elem_of_lookup_1 in Hb as [j Hj].
    by apply (H 0%nat (S j)); [lia|..].
Qed.

Lemma StronglySorted_sublist {A : Type} (R : relation A) (l1 l2 : list A) :
  l1 `sublist_of` l2 -> StronglySorted R l2 -> StronglySorted R l1.
Proof.
  induction 1 as [|a l1 l2 Hsub IH|a l1 l2 Hsub IH]; intros Hl2.
  - constructor.
  - apply StronglySorted_cons in Hl2 as [Ha Hl2].
    constructor; [by apply IH|]. rewrite Forall_forall in Ha |- *.
    intros b Hb. apply Ha. by eapply elem_of_sublist.
  - apply StronglySorted_cons in Hl2 as [_ Hl2]. by apply IH.
Qed.

(** ** Layouts whose matrix can be built *)

(** Taking items away from a layout whose matrix can be built leaves
    such a layout. *)
Lemma layoutTo2DArray_sublist {T : Type} (grid : GridDimensions)
    (layout layout' : Layout T) (allow : bool) :
  layout' `sublist_of` layout ->
  (exists arr, layoutTo2DArray grid layout allow = OK arr) ->
  exists arr', layoutTo2DArray grid layout' allow = OK arr'.
Proof.
  intros Hsub. rewrite !layoutTo2DArray_returns.
  intros (Hrows & Hcols & Hzero & Hdisj).
  split; [assumption|]. split; [assumption|]. split.
  - rewrite Forall_forall in Hzero |- *. intros item Hitem.
    apply Hzero. by eapply elem_of_sublist.
  - intros Hallow. eapply StronglySorted_sublist; [exact Hsub|auto].
Qed.

(** Adding an item at a position that the search returned leaves a
    layout whose matrix can be built. *)
Lemma layoutTo2DArray_snoc_found {T : Type} (grid : GridDimensions)
    (layout : Layout T) (new : LayoutItem T) :
  findPositionForItemInGrid grid layout (itemSize new)
  = OK (Some (itemPosition new)) ->
  exists arr', layoutTo2DArray grid (layout ++ [new]) false = OK arr'.
Proof.
  intros Hfind.
  destruct (findPosition_returns _ _ _ _ Hfind) as [arr Harr].
  destruct (findPosition_spec grid layout (itemSize new) arr Harr)
    as (r & Hr & Hspec).
  rewrite Hfind in Hr. injection Hr as <-.
  destruct Hspec as (_ & (_ & (Hx & Hy & _) & Hcoll) & _).
  destruct (proj1 (layoutTo2DArray_returns grid layout false))
    as (Hrows & Hcols & Hzero & Hdisj); [eauto|].
  apply layoutTo2DArray_OK in Harr as [_ Hocc].
  apply layoutTo2DArray_returns.
  split; [assumption|]. split; [assumption|]. split.
  - apply Forall_app. split; [assumption|].
    constructor; [|constructor].
    intros cx cy ((_ & Hcy) & _). lia.
  - intros _. apply StronglySorted_app. split; [|split].
    + intros a b Ha Hb cx cy (Hcov & Hcx & Hcy) Hcov'.
      apply list_elem_of_singleton in Hb as ->.
      assert (occupied arr cx cy = true) as Htrue by (apply Hocc; eauto).
      rewrite Hcoll in Htrue; [discriminate|exact Hcov'].
    + auto.
    + repeat constructor.
Qed.

(** The loop on a working copy whose matrix can be built: no search
    throws, and the matrix of what the loop leaves can be built. *)
Lemma repairLoop_returns {T : Type} (grid : GridDimensions)
    (items : list (Obj T)) :
  forall newLayout h (work : list (Obj T)),
    h !! newLayout = Some work ->
    (exists arr, layoutTo2DArray grid (fields <$> work) false = OK arr) ->
    exists result h' (work' : list (Obj T)) arr',
      repairLoop grid items newLayout h = (OK result, h')
      /\ h' !! result = Some work'
      /\ layoutTo2DArray grid (fields <$> work') false = OK arr'.
Proof.
  induction items as [|item items IH]; intros newLayout h work Hwork Hvalid.
  { destruct Hvalid as [arr Harr]. by exists newLayout, h, work, arr. }
  simpl. destruct (negb (overflows grid (fields item))); [by eapply IH|].
  rewrite (elements_lookup _ _ _ Hwork).
  set (work1 := filter (fun i => addr i ≠ addr item) work).
  rewrite (elements_lookup _ _ _ (lookup_newArray h work1)).
  assert (exists arr1, layoutTo2DArray grid (fields <$> work1) false = OK arr1)
    as Hvalid1.
  { eapply layoutTo2DArray_sublist; [|exact Hvalid].
    apply fmap_sublist, sublist_filter. }
  destruct Hvalid1 as [arr1 Harr1].
  destruct (findPosition_spec grid (fields <$> work1)
              (itemSize (fields item)) arr1 Harr1) as (r & Hr & _).
  rewrite Hr. destruct r as [p|].
  - eapply IH; [apply lookup_push, lookup_newArray|].
    rewrite fmap_app. simpl.
    by apply layoutTo2DArray_snoc_found.
  - eapply IH; [apply lookup_newArray|eauto].
Qed.

(** ** Counting *)

Lemma length_filter_disjoint {A : Type} (P Q : A -> Prop)
    `{!forall a, Decision (P a)} `{!forall a, Decision (Q a)} (l : list A) :
  (forall a, a ∈ l -> P a -> Q a -> False) ->
  (length (filter P l) + length (filter Q l) <= length l)%nat.
Proof.
  induction l as [|a l IH]; intros Hdis; [reflexivity|].
  assert (length (filter P l) + length (filter Q l) <= length l)%nat as IH'.
  { apply IH. intros b Hb. apply Hdis. by apply list_elem_of_further. }
  rewrite !filter_cons. specialize (Hdis a (list_elem_of_here _ _)).
  destruct (decide (P a)), (decide (Q a)); simpl; try lia. tauto.
Qed.

Lemma length_filter_split {A : Type} (P Q : A -> Prop)
    `{!forall a, Decision (P a)} `{!forall a, Decision (Q a)} (l : list A) :
  (forall a, P a <-> ~ Q a) ->
  (length (filter P l) + length (filter Q l) = length l)%nat.
Proof.
  intros Hsplit. induction l as [|a l IH]; [reflexivity|].
  rewrite !filter_cons. specialize (Hsplit a).
  destruct (decide (P a)), (decide (Q a)); simpl; try lia; tauto.
Qed.

Lemma length_created {T : Type} (outcomes : list (option (Obj T))) :
  (length (created outcomes) <= length outcomes)%nat.
Proof.
  unfold created, omap.
  induction outcomes as [|[o|] outcomes IH]; simpl; lia.
Qed.

(** ** A grid without cells *)

Lemma findPosition_without_cells {T : Type} (grid : GridDimensions)
    (layout : Layout T) (item : LayoutItemSize) :
  0 <= rows grid < 2 ^ 32 -> 0 <= columns grid < 2 ^ 32 ->
  rows grid = 0 \/ columns grid = 0 ->
  Forall (fun i => 0 <= x (itemPosition i) /\ 0 <= y (itemPosition i)) layout ->
  findPositionForItemInGrid grid layout item = OK None.
Proof.
  intros Hrows Hcols Hnone Hlayout. rewrite Forall_forall in Hlayout.
  assert (forall i cx cy, i ∈ layout -> marks grid i cx cy -> False) as Hmarks.
  { intros i cx cy Hi ((Hx & Hy) & Hcx & Hcy). apply Hlayout in Hi. lia. }
  destruct (proj2 (layoutTo2DArray_returns grid layout false)) as [arr Harr].
  { split; [assumption|]. split; [lia|]. split.
    - apply Forall_forall. intros i Hi cx cy Hm.
      by destruct (Hmarks i cx cy).
    - intros _. apply StronglySorted_lookup_2. intros i j a b _ Ha _ cx cy Hm.
      destruct (Hmarks a cx cy); [|assumption].
      by eapply list_elem_of_lookup_2. }
  destruct (findPosition_spec grid layout item arr Harr) as (r & -> & Hspec).
  destruct r as [p|]; [|reflexivity].
  destruct Hspec as ((Hx & Hy) & _). lia.
Qed.

Lemma repairLoop_without_cells {T : Type} (grid : GridDimensions)
    (layout : list (Obj T)) (items : list (Obj T)) :
  0 <= rows grid < 2 ^ 32 -> 0 <= columns grid < 2 ^ 32 ->
  rows grid = 0 \/ columns grid = 0 ->
  Forall (fun i => 0 <= x (itemPosition (fields i))
                   /\ 0 <= y (itemPosition (fields i))) layout ->
  forall gone newLayout h,
    h !! newLayout = Some (remaining layout gone) ->
    exists result h',
      repairLoop grid items newLayout h = (OK result, h')
      /\ h' !! result
         = Some (remaining layout (gone ++ overflowing grid items)).
Proof.
  intros Hrows Hcols Hnone Hlayout. rewrite overflowing_overflows.
  induction items as [|item items IH]; intros gone newLayout h Hwork.
  { exists newLayout, h. by rewrite app_nil_r. }
  simpl. destruct (overflows grid (fields item)) eqn:Hov; simpl.
  2: { rewrite filter_cons_False by congruence. by apply IH. }
  rewrite filter_cons_True by assumption.
  rewrite (elements_lookup _ _ _ Hwork), remaining_snoc.
  set (work := remaining layout (gone ++ [item])).
  rewrite (elements_lookup _ _ _ (lookup_newArray h work)).
  rewrite findPosition_without_cells; try assumption.
  - destruct (IH (gone ++ [item]) (length h) (h ++ [work]))
      as (result & h' & Hloop & Hres); [apply lookup_newArray|].
    exists result, h'. split; [assumption|].
    by rewrite <- app_assoc in Hres.
  - apply Forall_fmap, Forall_forall. intros i Hi.
    apply list_elem_of_filter in Hi as [_ Hi].
    rewrite Forall_forall in Hlayout. by apply Hlayout.
Qed.

(** ** Distances in real numbers *)

Lemma distanceTo_real (q : PixelPosition R) (a : SnapPoint R) :
  distanceTo q a
  = R_sqrt.sqrt ((pixelX q - pixelX (pixelPosition a))
                 * (pixelX q - pixelX (pixelPosition a))
                 + (pixelY q - pixelY (pixelPosition a))
                   * (pixelY q - pixelY (pixelPosition a)))%R.
Proof.
  reflexivity.
Qed.

Lemma distanceTo_nonneg (q : PixelPosition R) (a : SnapPoint R) :
  (0 <= distanceTo q a)%R.
Proof.
  rewrite distanceTo_real. apply sqrt_pos.
Qed.

Lemma distanceTo_zero (q : PixelPosition R) (a : SnapPoint R) :
  distanceTo q a = 0%R <-> pixelPosition a = q.
Proof.
  rewrite distanceTo_real. split.
  - intros H.
    pose proof (Rle_0_sqr (pixelX q - pixelX (pixelPosition a))) as Hx.
    pose proof (Rle_0_sqr (pixelY q - pixelY (pixelPosition a))) as Hy.
    unfold Rsqr in Hx, Hy.
    apply sqrt_eq_0 in H; [|lra].
    assert ((pixelX q - pixelX (pixelPosition a))
            * (pixelX q - pixelX (pixelPosition a)) = 0)%R as Hx0 by lra.
    assert ((pixelY q - pixelY (pixelPosition a))
            * (pixelY q - pixelY (pixelPosition a)) = 0)%R as Hy0 by lra.
    apply Rmult_integral in Hx0, Hy0.
    destruct (pixelPosition a), q. simpl in *. f_equal; lra.
  - intros ->. rewrite !Rminus_diag, Rmult_0_l, Rplus_0_l. apply sqrt_0.
Qed.

(** ** The nearest snap point *)

Lemma snapPoint_position {B : Type} `{PixelNumbers B}
    (grid : GridDimensionsOf B) (p : Position) :
  snapPoint grid (y p) (x p)
  = {| pixelPosition := positionToPixelPosition grid p; position := p |}.
Proof.
  by destruct p.
Qed.

Lemma positionToPixelPosition_inj (grid : GridDimensions) (p q : Position) :
  boxSize grid <> 0%R ->
  positionToPixelPosition grid p = positionToPixelPosition grid q -> p = q.
Proof.
  intros Hbox [= Hx Hy]. apply Rmult_eq_reg_r in Hx, Hy; try assumption.
  apply eq_IZR in Hx, Hy. destruct p, q. simpl in *. by subst.
Qed.

(** The head of a ranked list is ranked in front of every element, or
    is that element. *)
Lemma snapToSector_head {B : Type} `{PixelNumbers B}
    (grid : GridDimensionsOf B) (query : PixelPosition B) :
  0 < rows grid < 2 ^ 32 -> 0 < columns grid < 2 ^ 32 ->
  consistentComparator (distanceDifference query) (possibleSnapPoints grid)
  = true ->
  exists first rest,
    snapToSector grid query = OK (first :: rest)
    /\ first ∈ possibleSnapPoints grid
    /\ forall b, b ∈ possibleSnapPoints grid ->
         sign (distanceDifference query first b) = Some Lt
         \/ sign (distanceDifference query first b) = Some Eq.
Proof.
  intros Hrows Hcols Hcons.
  destruct (snapToSector_ranked grid query) as (ranked & Hsnap & Hperm & Hsorted);
    [unfold buildable; lia|assumption|].
  assert (snapPoint grid 0 0 ∈ ranked) as Hin.
  { rewrite Hperm. apply elem_of_possibleSnapPoints. exists 0, 0.
    split; [lia|]. split; [lia|reflexivity]. }
  destruct ranked as [|first rest]; [by apply elem_of_nil in Hin|].
  exists first, rest. split; [assumption|].
  assert (first ∈ possibleSnapPoints grid) as Hfirst
    by (rewrite <- Hperm; apply list_elem_of_here).
  split; [assumption|].
  intros b Hb. rewrite <- Hperm in Hb.
  apply StronglySorted_cons in Hsorted as [Ha _].
  apply elem_of_cons in Hb as [->|Hb].
  - right.
    by destruct (proj1 (consistentComparator_true _ _) Hcons
                   first first first Hfirst Hfirst Hfirst) as (_ & ? & _).
  - rewrite Forall_forall in Ha. destruct (Ha b Hb) as [?|[? _]]; auto.
Qed.

(** ** Measured numbers *)

Lemma integerNumbers_laws : JsNumbersLaws (option Z).
Proof.
  split.
  - intros [a|] [b|]; simpl; auto. lia.
  - intros [a|] [b|] [c|]; simpl; auto; try lia; tauto.
  - intros v. exact I.
  - intros a b. reflexivity.
Qed.

Lemma Math_max_Num {V : Type} `{JsNumbersLaws V} (a b : number V) (w : V) :
  Math_max a b = Num w ->
  exists u v, a = Num u /\ b = Num v /\ numLe u w /\ numLe v w
              /\ (w = u \/ w = v).
Proof.
  destruct a as [|u], b as [|v]; try discriminate. simpl.
  case_decide as Hle; intros [= <-]; exists u, v.
  - repeat split; auto. destruct (numLe_total v v); assumption.
  - repeat split; auto; destruct (numLe_total u v) as [?|?]; try done.
    destruct (numLe_total u u); assumption.
Qed.

Lemma Math_min_Num {V : Type} `{JsNumbersLaws V} (a b : number V) (w : V) :
  Math_min a b = Num w ->
  exists u v, a = Num u /\ b = Num v /\ numLe w u /\ numLe w v
              /\ (w = u \/ w = v).
Proof.
  destruct a as [|u], b as [|v]; try discriminate. simpl.
  case_decide as Hle; intros [= <-]; exists u, v.
  - repeat split; auto. destruct (numLe_total u u); assumption.
  - repeat split; auto; destruct (numLe_total u v) as [?|?]; try done.
    destruct (numLe_total v v); assumption.
Qed.

Lemma foldl_Math_max_Num {V : Type} `{JsNumbersLaws V}
    (values : list (number V)) (start : number V) (w : V) :
  foldl Math_max start values = Num w ->
  exists v, start = Num v /\ numLe v w.
Proof.
  revert start. induction values as [|c values IH]; intros start Hw;
    simpl in Hw.
  - exists w. split; [assumption|]. destruct (numLe_total w w); assumption.
  - destruct (IH _ Hw) as (v & Hv & Hle).
    apply Math_max_Num in Hv as (s' & c' & -> & _ & Hs & _).
    exists s'. split; [reflexivity|]. by eapply numLe_trans.
Qed.

Lemma Math_max_of_Num {V : Type} `{JsNumbersLaws V}
    (values : list (number V)) (w : V) :
  Math_max_of values = Num w ->
  forall a, a ∈ values -> exists v, a = Num v /\ numLe v w.
Proof.
  unfold Math_max_of. generalize (Num negInfinity : number V) as start.
  induction values as [|b values IH]; intros start Hw a Ha.
  - by apply elem_of_nil in Ha.
  - simpl in Hw. apply elem_of_cons in Ha as [->|Ha]; [|by eapply IH].
    destruct (foldl_Math_max_Num _ _ _ Hw) as (v & Hv & Hle).
    apply Math_max_Num in Hv as (s' & b' & _ & -> & _ & Hb & _).
    exists b'. split; [reflexivity|]. by eapply numLe_trans.
Qed.

Lemma Math_max_of_integers {V : Type} `{JsNumbersLaws V} (l : list Z) :
  exists v, Math_max_of ((fun a => Num (ofInteger a)) <$> l) = Num v.
Proof.
  unfold Math_max_of. generalize (negInfinity : V) as start.
  induction l as [|a l IH]; intros start; simpl; [eauto|].
  case_decide; apply IH.
Qed.

(** ** Reports of the overflow status *)

Lemma verticalCalls_app (calls calls' : list CallbackCall) :
  verticalCalls (calls ++ calls') = verticalCalls calls ++ verticalCalls calls'.
Proof.
  apply omap_app.
Qed.

Lemma horizontalCalls_app (calls calls' : list CallbackCall) :
  horizontalCalls (calls ++ calls')
  = horizontalCalls calls ++ horizontalCalls calls'.
Proof.
  apply omap_app.
Qed.

(** One resize: the calls of each callback and the refs. *)
Lemma onContentResize_calls (props : ScrollAreaProps) (el : Element)
    (refs : OverflowRefs) :
  verticalCalls (onContentResize props (Some el) refs).1
  = (if negb (eqb (checkVerticalOverflow el) (verticalOverflowRef refs))
        && onVerticalOverflowStatusChange props
     then [checkVerticalOverflow el] else [])
  /\ horizontalCalls (onContentResize props (Some el) refs).1
     = (if negb (eqb (checkHorizontalOverflow el) (horizontalOverflowRef refs))
           && onHorizontalOverflowStatusChange props
        then [checkHorizontalOverflow el] else [])
  /\ (onContentResize props (Some el) refs).2
     = {| horizontalOverflowRef := checkHorizontalOverflow el;
          verticalOverflowRef := checkVerticalOverflow el |}.
Proof.
  unfold onContentResize. simpl.
  rewrite verticalCalls_app, horizontalCalls_app.
  by destruct (_ && _), (_ && _).
Qed.

Lemma resizes_cons (props : ScrollAreaProps) (viewport : option Element)
    (rest : list (option Element)) (refs : OverflowRefs) :
  (resizes props (viewport :: rest) refs).1
  = (onContentResize props viewport refs).1
    ++ (resizes props rest (onContentResize props viewport refs).2).1
  /\ (resizes props (viewport :: rest) refs).2
     = (resizes props rest (onContentResize props viewport refs).2).2.
Proof.
  simpl. destruct (onContentResize props viewport refs) as [calls refs1].
  simpl. by destruct (resizes props rest refs1).
Qed.

(** The reports of one of the two callbacks over a run of resizes:
    [ref] is its ref, [check] its test, [given] tells whether the
    callback is given, and [callsOf] picks its calls. *)
Lemma resizes_channel (props : ScrollAreaProps) (ref : OverflowRefs -> bool)
    (check : Element -> bool) (given : bool)
    (callsOf : list CallbackCall -> list bool) :
  callsOf [] = [] ->
  (forall calls calls', callsOf (calls ++ calls')
                        = callsOf calls ++ callsOf calls') ->
  (forall el refs,
     callsOf (onContentResize props (Some el) refs).1
     = if negb (eqb (check el) (ref refs)) && given then [check el] else []) ->
  (forall el refs, ref (onContentResize props (Some el) refs).2 = check el) ->
  forall viewports refs,
    ref (resizes props viewports refs).2
    = lastStatus check (ref refs) viewports
    /\ alternates (ref refs) (callsOf (resizes props viewports refs).1)
    /\ (given = true ->
        default (ref refs) (last (callsOf (resizes props viewports refs).1))
        = ref (resizes props viewports refs).2)
    /\ (given = false -> callsOf (resizes props viewports refs).1 = []).
Proof.
  intros Hnil Happ Hcalls Href.
  induction viewports as [|viewport rest IH]; intros refs.
  { simpl. rewrite Hnil. simpl. auto. }
  destruct (resizes_cons props viewport rest refs) as [-> ->].
  rewrite Happ. destruct viewport as [el|].
  2: { change (onContentResize props None refs) with (@nil CallbackCall, refs).
       cbn [fst snd]. rewrite Hnil. apply IH. }
  change (lastStatus check (ref refs) (Some el :: rest))
    with (lastStatus check (check el) rest).
  destruct (IH (onContentResize props (Some el) refs).2)
    as (Hlast & Halt & Hsync & Hnone).
  rewrite Href in Hlast, Halt, Hsync. rewrite Hcalls.
  set (refs1 := (onContentResize props (Some el) refs).2) in *.
  split; [exact Hlast|].
  destruct (eqb (check el) (ref refs)) eqn:Hsame; simpl.
  - apply eqb_prop in Hsame. rewrite <- Hsame. auto.
  - assert (check el = negb (ref refs)) as Hflip.
    { destruct (check el), (ref refs); simpl in *; congruence. }
    destruct given; simpl.
    + split; [auto|]. split; [|discriminate]. intros _.
      rewrite last_cons. specialize (Hsync eq_refl).
      by destruct (last (callsOf (resizes props rest refs1).1)).
    + rewrite (Hnone eq_refl). simpl. split; [exact I|].
      split; [discriminate|reflexivity].
Qed.

(** * The properties of the specification *)

(** C1 — Placement soundness. When the placement search returns a
    position [p], the occupancy matrix of the layout was built, the
    collision checker reports no collision for the item placed at [p],
    every cell of the footprint is an element of the matrix that is not
    occupied, no item of the layout covers a cell of the footprint, and
    the footprint lies inside the grid: [0 <= p.x], [0 <= p.y],
    [p.x + width <= columns], [p.y + height <= rows]. *)
Theorem findPosition_sound {T : Type} (grid : GridDimensions)
    (layout : Layout T) (item : LayoutItemSize) (p : Position) :
  findPositionForItemInGrid grid layout item = OK (Some p) ->
  exists arr,
    layoutTo2DArray grid layout false = OK arr
    /\ willItemOverlay arr (sizeAt item p) = OK false
    /\ (forall cx cy, covers (sizeAt item p) cx cy ->
          inMatrix arr cx cy /\ occupied arr cx cy = false)
    /\ (forall cx cy other, covers (sizeAt item p) cx cy ->
          other ∈ layout -> ~ covers other cx cy)
    /\ 0 <= x p /\ 0 <= y p
    /\ x p + width item <= columns grid
    /\ y p + height item <= rows grid.
Proof.
  intros Hfind.
  destruct (findPosition_returns _ _ _ _ Hfind) as [arr Harr].
  destruct (findPosition_spec grid layout item arr Harr) as (r & Hr & Hspec).
  rewrite Hfind in Hr. injection Hr as <-.
  destruct Hspec as (Hin & Hacc & _).
  destruct (layoutTo2DArray_OK _ _ _ _ Harr) as [Hdim Hocc].
  exists arr. split; [assumption|].
  assert (exists row, get arr (y p) = Some row) as [row Hget].
  { destruct Hdim as (_ & Hrows & _). apply Hrows. by destruct Hin. }
  pose proof (proj2 (accepted_iff _ _ item _ _ Hdim Hin Hget) Hacc)
    as (_ & Hov & _).
  destruct Hacc as (_ & (Hx & Hy & Hw & Hh) & Hcoll).
  split; [assumption|]. split; [|split; [|done]].
  { intros cx cy Hcov. split; [|by apply Hcoll].
    unfold covers in Hcov. simpl in Hcov.
    destruct Hdim as (Hlen & Hrows & Hrow).
    destruct (proj2 (Hrows cy)) as [row' Hget']; [lia|].
    destruct (Hrow _ _ Hget') as [Hrl _].
    split; [lia|]. exists row'. split; [assumption|lia]. }
  intros cx cy other Hcov Hother Hcovers.
  assert (occupied arr cx cy = true) as Htrue.
  { apply Hocc. unfold covers in Hcov. simpl in Hcov.
    split; [lia|]. split; [lia|]. by exists other. }
  rewrite (Hcoll _ _ Hcov) in Htrue. discriminate.
Qed.

Lemma findPosition_sound_witness :
  exists arr,
    layoutTo2DArray grid3 [mkItem 0 0 2 2] false = OK arr
    /\ willItemOverlay arr (sizeAt (mkSize 1 1) {| x := 2; y := 0 |})
       = OK false.
Proof.
  destruct (findPosition_sound grid3 [mkItem 0 0 2 2] (mkSize 1 1)
              {| x := 2; y := 0 |}) as (arr & Harr & Hov & _).
  - vm_compute. reflexivity.
  - exists arr. split; assumption.
Defined.




(** C3 — Overflow repair policy. Whether the repair of the array
    [layout], which holds [items], returns or throws, every array that
    existed before the call is as it was, the input among them. When it
    returns, the result is a new array. It holds the items without the
    objects that overflow ([x + width > columns] or
    [y + height > rows]), in layout order, followed by the objects
    created for them, in the order in which the overflowing items come in
    the layout. The [k]-th overflowing item had its slot searched in the
    working copy of that moment: the items without the overflowing ones
    up to and including it, followed by the objects created for the
    earlier ones. When the search found a slot [p], one new object was
    created for the item, whose position is [p] and whose size and
    payload are the item's, with an identity that no object of the
    layout or of the working copy has; when it found none, nothing
    stands for the item in the result. When an address stands for one
    object, the objects that are kept are exactly the items with
    [x + width <= columns] and [y + height <= rows]. *)
Theorem fixHorizontalOverflows_policy {T : Type} (grid : GridDimensions)
    (h h' : Heap T) (layout : nat) (items : list (Obj T))
    (outcome : Result nat) :
  h !! layout = Some items ->
  fixHorizontalOverflows grid layout h = (outcome, h') ->
  (forall r, (r < length h)%nat -> h' !! r = h !! r)
  /\ h' !! layout = Some items
  /\ forall newLayout,
       outcome = OK newLayout ->
       (length h <= newLayout)%nat
       /\ exists outcomes,
            length outcomes = length (overflowing grid items)
            /\ h' !! newLayout
               = Some (remaining items (overflowing grid items)
                       ++ created outcomes)
            /\ (forall k item outcome,
                  overflowing grid items !! k = Some item ->
                  outcomes !! k = Some outcome ->
                  let work :=
                    remaining items (take (S k) (overflowing grid items))
                    ++ created (take k outcomes) in
                  match outcome with
                  | Some new =>
                      exists p,
                        findPositionForItemInGrid grid (fields <$> work)
                          (itemSize (fields item)) = OK (Some p)
                        /\ itemPosition (fields new) = p
                        /\ itemSize (fields new) = itemSize (fields item)
                        /\ payload (fields new) = payload (fields item)
                        /\ addr new ∉ addr <$> (items ++ work)
                  | None =>
                      findPositionForItemInGrid grid (fields <$> work)
                        (itemSize (fields item)) = OK None
                  end)
            /\ ((forall a b,
                   a ∈ items -> b ∈ items -> addr a = addr b -> a = b) ->
                remaining items (overflowing grid items)
                = filter (fun i =>
                            x (itemPosition (fields i))
                            + width (itemSize (fields i)) <= columns grid
                            /\ y (itemPosition (fields i))
                               + height (itemSize (fields i)) <= rows grid)
                    items).
Proof.
  intros Hlayout H. unfold fixHorizontalOverflows in H.
  rewrite (elements_lookup _ _ _ Hlayout) in H. simpl in H.
  assert (forall r, (r < length h)%nat -> h' !! r = h !! r) as Hframe.
  { intros r Hr. rewrite (repairLoop_frame _ _ _ _ _ _ H)
      by (rewrite length_app; lia). by apply lookup_app_l. }
  split; [exact Hframe|].
  split; [rewrite Hframe; [assumption|by eapply lookup_lt_Some]|].
  intros newLayout ->.
  destruct (repairLoop_spec grid h items items (fun i Hi => Hi) [] []
              (length h) (h ++ [items]) newLayout h')
    as (_ & Hnew & outcomes & Hlen & Hres & Hsteps).
  - intros r Hr. by apply lookup_app_l.
  - reflexivity.
  - rewrite remaining_nil, app_nil_r. apply lookup_newArray.
  - intros i Hi. apply (elem_of_heap _ (length h) items);
      [apply lookup_newArray|assumption].
  - intros new Hnew. by apply elem_of_nil in Hnew.
  - exact H.
  - split; [assumption|].
    exists outcomes. split; [assumption|]. split; [assumption|].
    split; [assumption|]. apply remaining_overflowing.
Qed.

Lemma fixHorizontalOverflows_policy_witness :
  exists newLayout h',
    fixHorizontalOverflows grid3 0
      [[mkObj 0 0 0 2 2; mkObj 1 2 2 2 1; mkObj 2 2 1 2 2]]
    = (OK newLayout, h')
    /\ h' !! 0%nat = Some [mkObj 0 0 0 2 2; mkObj 1 2 2 2 1; mkObj 2 2 1 2 2]
    /\ h' !! newLayout = Some [mkObj 0 0 0 2 2; mkObj 3 0 2 2 1].
Proof.
  do 2 eexists. split; [vm_compute; reflexivity|]. split.
  - refine (proj1 (proj2 (fixHorizontalOverflows_policy grid3
              [[mkObj 0 0 0 2 2; mkObj 1 2 2 2 1; mkObj 2 2 1 2 2]] _ 0
              [mkObj 0 0 0 2 2; mkObj 1 2 2 2 1; mkObj 2 2 1 2 2] _ _ _))).
    + reflexivity.
    + vm_compute. reflexivity.
  - vm_compute. reflexivity.
Defined.









(** A negative column is not an element of the row, yet the mark left
    there by occupancy construction is read back as a collision. *)
Example negative_column_is_remembered :
  exists arr,
    layoutTo2DArray grid1 [mkItem (-1) 0 1 1] false = OK arr
    /\ arrayLength arr = 1
    /\ willItemOverlay arr (mkItem (-1) 0 1 1) = OK true.
Proof.
  eexists. repeat split; vm_compute; reflexivity.
Qed.




(** C8 — Repair idempotence. When no item of the layout overflows
    (every item has [x + width <= columns] and [y + height <= rows]),
    the repair returns a layout equal to the input by value: a new array
    that holds the same objects, with the same coordinates, in the same
    order, every array that existed being left as it was. *)
Theorem fixHorizontalOverflows_unchanged {T : Type} (grid : GridDimensions)
    (h : Heap T) (layout : nat) (items : list (Obj T)) :
  h !! layout = Some items ->
  Forall (fun i =>
            x (itemPosition (fields i)) + width (itemSize (fields i))
            <= columns grid
            /\ y (itemPosition (fields i)) + height (itemSize (fields i))
               <= rows grid) items ->
  exists newLayout h',
    fixHorizontalOverflows grid layout h = (OK newLayout, h')
    /\ h' !! newLayout = Some items
    /\ h' !! layout = Some items
    /\ forall r, (r < length h)%nat -> h' !! r = h !! r.
Proof.
  intros Hlayout H. exists (length h), (h ++ [items]).
  unfold fixHorizontalOverflows. rewrite (elements_lookup _ _ _ Hlayout).
  simpl. split; [|split; [|split]].
  - apply repairLoop_no_overflow.
    eapply Forall_impl; [exact H|]. intros i [Hx Hy]. unfold overflows.
    apply orb_false_iff. rewrite !Z.ltb_ge. lia.
  - apply lookup_newArray.
  - by apply lookup_app_l_Some.
  - intros r Hr. by apply lookup_app_l.
Qed.

Lemma fixHorizontalOverflows_unchanged_witness :
  exists newLayout h',
    fixHorizontalOverflows grid3 0 [[mkObj 0 0 0 2 2; mkObj 1 2 2 1 1]]
    = (OK newLayout, h')
    /\ h' !! newLayout = Some [mkObj 0 0 0 2 2; mkObj 1 2 2 1 1].
Proof.
  destruct (fixHorizontalOverflows_unchanged grid3
              [[mkObj 0 0 0 2 2; mkObj 1 2 2 1 1]] 0
              [mkObj 0 0 0 2 2; mkObj 1 2 2 1 1])
    as (newLayout & h' & Hfix & Hnew & _).
  - reflexivity.
  - repeat constructor; simpl; lia.
  - exists newLayout, h'. split; assumption.
Defined.

(** C9 — Occupancy dimension invariant. Whenever occupancy construction
    returns normally, whatever the layout and the overlap flag, the
    matrix has exactly [rows] rows (its length is [rows] and its
    elements are the keys [0 .. rows-1]) and every row has exactly
    [columns] entries (its length is [columns], no entry missing). *)
Theorem layoutTo2DArray_dimensions {T : Type} (grid : GridDimensions)
    (layout : Layout T) (allowOverlay : bool) (arr : Grid2DArray) :
  layoutTo2DArray grid layout allowOverlay = OK arr ->
  arrayLength arr = rows grid
  /\ (forall cy, is_Some (get arr cy) <-> 0 <= cy < rows grid)
  /\ forall cy row, get arr cy = Some row ->
       arrayLength row = columns grid
       /\ forall cx, 0 <= cx < columns grid -> is_Some (get row cx).
Proof.
  intros H. apply layoutTo2DArray_OK in H as [(Hlen & Hrows & Hrow) _].
  split; [assumption|]. split; [assumption|].
  intros cy row Hget. destruct (Hrow _ _ Hget) as [Hrl Hrd].
  split; [assumption|]. intros cx Hcx. apply Hrd. lia.
Qed.

Lemma layoutTo2DArray_dimensions_witness :
  exists arr,
    layoutTo2DArray grid3 [mkItem 0 0 2 2; mkItem 2 2 5 5] false = OK arr
    /\ arrayLength arr = 3.
Proof.
  eexists. split; [vm_compute; reflexivity|].
  refine (proj1 (layoutTo2DArray_dimensions grid3
                   [mkItem 0 0 2 2; mkItem 2 2 5 5] false _ _)).
  vm_compute. reflexivity.
Defined.




(** * Further properties of the code *)










(** X8 — The content of the occupancy matrix. In a matrix that
    [layoutTo2DArray] returned, slot [cx] of row [cy] holds [true]
    exactly when [cx < columns] and some item of the layout covers the
    cell [(cx, cy)]; it holds [false] exactly when [0 <= cx < columns]
    and no item covers the cell; and it holds nothing exactly when
    [cx >= columns], or [cx < 0] and no item covers the cell. Two
    matrices that are built for the same grid and have the same
    occupied cells are equal. *)
Theorem layoutTo2DArray_contents {T : Type} (grid : GridDimensions)
    (layout : Layout T) (allowOverlay : bool) (arr : Grid2DArray) :
  layoutTo2DArray grid layout allowOverlay = OK arr ->
  (forall cx cy row,
     get arr cy = Some row ->
     (get row cx = Some true <->
        cx < columns grid /\ exists item, item ∈ layout /\ covers item cx cy)
     /\ (get row cx = Some false <->
           0 <= cx < columns grid
           /\ forall item, item ∈ layout -> ~ covers item cx cy)
     /\ (get row cx = None <->
           columns grid <= cx
           \/ (cx < 0 /\ forall item, item ∈ layout -> ~ covers item cx cy)))
  /\ forall (layout' : Layout T) allowOverlay' arr',
       layoutTo2DArray grid layout' allowOverlay' = OK arr' ->
       (forall cx cy, occupied arr cx cy = occupied arr' cx cy) ->
       arr = arr'.
Proof.
  intros Harr.
  pose proof (layoutTo2DArray_marksOutside _ _ _ _ Harr) as Hout.
  destruct (layoutTo2DArray_OK _ _ _ _ Harr) as [Hdim Hocc].
  split.
  - intros cx cy row Hget.
    assert (0 <= cy < rows grid) as Hcy
      by (destruct Hdim as (_ & Hrows & _); apply Hrows; eauto).
    assert (occupied arr cx cy = true <->
            cx < columns grid
            /\ exists item, item ∈ layout /\ covers item cx cy) as Hocc'.
    { rewrite Hocc. split; [tauto|]. intros [? ?]. split; [done|].
      split; [lia|done]. }
    assert (occupied arr cx cy = false <->
            (columns grid <= cx
             \/ forall item, item ∈ layout -> ~ covers item cx cy)) as Hfree.
    { rewrite <- not_true_iff_false, Hocc'. split.
      - intros Hnot. destruct (decide (columns grid <= cx)); [by left|right].
        intros item Hitem Hcov. apply Hnot. split; [lia|eauto].
      - intros [?|Hnone] (? & item & Hitem & Hcov); [lia|].
        by apply (Hnone item). }
    rewrite (row_slot grid arr row cx cy Hdim Hout Hget).
    destruct (occupied arr cx cy) eqn:Hc.
    + destruct (proj1 Hocc' eq_refl) as (Hcx & item & Hitem & Hcov).
      split; [tauto|]. split; split; try discriminate.
      * intros [_ Hnone]. by destruct (Hnone item).
      * intros [?|[_ Hnone]]; [lia|]. by destruct (Hnone item).
    + pose proof (proj1 Hfree eq_refl) as Hc'. case_decide as Hcx.
      * split; [split; [discriminate|]|].
        { intros Hex. apply Hocc' in Hex. discriminate. }
        split; split; try discriminate; try done.
        -- intros _. split; [assumption|]. destruct Hc'; [lia|assumption].
        -- intros [?|[? _]]; lia.
      * split; [split; [discriminate|]|].
        { intros Hex. apply Hocc' in Hex. discriminate. }
        split; split; try discriminate; try done.
        -- intros [? _]. lia.
        -- intros _. destruct Hc' as [?|Hnone]; [by left|].
           destruct (decide (columns grid <= cx)); [by left|right].
           split; [lia|assumption].
  - intros layout' allow' arr' Harr' Hsame.
    apply (matrix_ext grid); try assumption.
    + by apply layoutTo2DArray_OK in Harr' as [? _].
    + by eapply layoutTo2DArray_marksOutside.
Qed.

Lemma layoutTo2DArray_contents_witness :
  exists arr row,
    layoutTo2DArray grid3 [mkItem (-1) 0 2 1; mkItem 2 0 3 3] false = OK arr
    /\ get arr 0 = Some row
    /\ get row (-1) = Some true /\ get row 1 = Some false
    /\ get row 3 = None /\ get row (-2) = None.
Proof.
  destruct (layoutTo2DArray grid3 [mkItem (-1) 0 2 1; mkItem 2 0 3 3] false)
    as [arr|e] eqn:Harr; [|vm_compute in Harr; discriminate].
  destruct (layoutTo2DArray_OK _ _ _ _ Harr) as [(_ & Hrows & _) _].
  destruct (proj2 (Hrows 0)) as [row Hrow]; [simpl; lia|].
  destruct (layoutTo2DArray_contents grid3 _ false arr Harr) as [Hslot _].
  assert (forall cx item,
            item ∈ [mkItem (-1) 0 2 1; mkItem 2 0 3 3] ->
            covers item cx 0 -> -1 <= cx <= 0 \/ 2 <= cx) as Hcov.
  { intros cx item Hitem. unfold covers.
    apply elem_of_cons in Hitem as [->|Hitem];
      [|apply list_elem_of_singleton in Hitem as ->]; simpl; lia. }
  exists arr, row. split; [reflexivity|]. split; [assumption|].
  split; [|split; [|split]].
  - apply (Hslot (-1) 0 row Hrow). split; [simpl; lia|].
    exists (mkItem (-1) 0 2 1).
    split; [apply list_elem_of_here|unfold covers; simpl; lia].
  - apply (Hslot 1 0 row Hrow). split; [simpl; lia|].
    intros item Hitem Hc. apply Hcov in Hc; [lia|assumption].
  - apply (Hslot 3 0 row Hrow). left. simpl. lia.
  - apply (Hslot (-2) 0 row Hrow). right. split; [lia|].
    intros item Hitem Hc. apply Hcov in Hc; [lia|assumption].
Defined.

(** X9 — The order of the items does not matter to the matrix. When
    [layoutTo2DArray] returns a matrix for a layout, it returns the same
    matrix for the same items in any other order; so a layout that makes
    it throw makes it throw in every order of its items. *)
Theorem layoutTo2DArray_order_independent {T : Type} (grid : GridDimensions)
    (layout layout' : Layout T) (allowOverlay : bool) :
  layout ≡ₚ layout' ->
  (forall arr,
     layoutTo2DArray grid layout allowOverlay = OK arr ->
     layoutTo2DArray grid layout' allowOverlay = OK arr)
  /\ forall e,
       layoutTo2DArray grid layout allowOverlay = Err e ->
       exists e', layoutTo2DArray grid layout' allowOverlay = Err e'.
Proof.
  intros Hperm. split.
  - intros arr. by apply layoutTo2DArray_Permutation.
  - intros e He.
    destruct (layoutTo2DArray grid layout' allowOverlay) as [arr'|e'] eqn:H';
      [|by exists e'].
    apply (layoutTo2DArray_Permutation grid layout' layout) in H';
      [congruence|by symmetry].
Qed.

Lemma layoutTo2DArray_order_independent_witness :
  exists arr,
    layoutTo2DArray grid3 [mkItem 0 0 2 2; mkItem 2 1 1 2] false = OK arr
    /\ layoutTo2DArray grid3 [mkItem 2 1 1 2; mkItem 0 0 2 2] false = OK arr.
Proof.
  eexists. split; [vm_compute; reflexivity|].
  apply (proj1 (layoutTo2DArray_order_independent grid3
                  [mkItem 0 0 2 2; mkItem 2 1 1 2]
                  [mkItem 2 1 1 2; mkItem 0 0 2 2] false
                  (perm_swap _ _ _))).
  vm_compute. reflexivity.
Defined.

(** X10 — The order of the items does not matter to the placement.
    What the search returns for a layout, a position or not-found, it
    returns for the same items in any other order, and so does the
    placement test at a given position. *)
Theorem placement_order_independent {T : Type} (grid : GridDimensions)
    (layout layout' : Layout T) (item : LayoutItemSize) :
  layout ≡ₚ layout' ->
  (forall r,
     findPositionForItemInGrid grid layout item = OK r ->
     findPositionForItemInGrid grid layout' item = OK r)
  /\ forall p b,
       canPlaceItemInGrid grid layout item p = OK b ->
       canPlaceItemInGrid grid layout' item p = OK b.
Proof.
  intros Hperm. split.
  - intros r H. unfold findPositionForItemInGrid in *.
    apply bind_OK in H as (arr & Harr & H).
    by rewrite (layoutTo2DArray_Permutation _ _ _ _ _ Hperm Harr).
  - intros p b H.
    destruct (decide (columns grid < x p + width item
                      \/ rows grid < y p + height item)) as [Hout|Hin].
    { rewrite canPlace_out_of_bounds in H |- * by assumption. exact H. }
    rewrite canPlace_in_bounds in H |- * by lia.
    apply bind_OK in H as (arr & Harr & H).
    by rewrite (layoutTo2DArray_Permutation _ _ _ _ _ Hperm Harr).
Qed.

Lemma placement_order_independent_witness :
  findPositionForItemInGrid grid3 [mkItem 2 1 1 2; mkItem 0 0 2 2] (mkSize 1 1)
  = OK (Some {| x := 2; y := 0 |}).
Proof.
  apply (proj1 (placement_order_independent grid3
                  [mkItem 0 0 2 2; mkItem 2 1 1 2]
                  [mkItem 2 1 1 2; mkItem 0 0 2 2] (mkSize 1 1)
                  (perm_swap _ _ _))).
  vm_compute. reflexivity.
Defined.

(** X11 — The repair keeps a layout sound. When the occupancy matrix
    of the input layout can be built (no two items share a cell of the
    grid), the repair does not throw, and the occupancy matrix of the
    layout that it returns can be built as well; no item of that layout
    passes column [columns] or row [rows]. *)
Theorem fixHorizontalOverflows_keeps_valid {T : Type} (grid : GridDimensions)
    (h : Heap T) (layout : nat) (items : list (Obj T)) (arr : Grid2DArray) :
  h !! layout = Some items ->
  layoutTo2DArray grid (fields <$> items) false = OK arr ->
  exists newLayout h' (result : list (Obj T)) arr',
    fixHorizontalOverflows grid layout h = (OK newLayout, h')
    /\ h' !! newLayout = Some result
    /\ layoutTo2DArray grid (fields <$> result) false = OK arr'
    /\ Forall (fun i =>
                 x (itemPosition (fields i)) + width (itemSize (fields i))
                 <= columns grid
                 /\ y (itemPosition (fields i)) + height (itemSize (fields i))
                    <= rows grid) result.
Proof.
  intros Hlayout Harr.
  destruct (repairLoop_returns grid items (length h) (h ++ [items]) items)
    as (newLayout & h' & result & arr' & Hfix & Hres & Harr');
    [apply lookup_newArray|eauto|].
  assert (fixHorizontalOverflows grid layout h = (OK newLayout, h')) as Hfix'.
  { unfold fixHorizontalOverflows. by rewrite (elements_lookup _ _ _ Hlayout). }
  exists newLayout, h', result, arr'.
  split; [assumption|]. split; [assumption|]. split; [assumption|].
  destruct (fixHorizontalOverflows_twice grid h h' layout newLayout items
              Hlayout Hfix') as (result' & Hres' & Hfits & _).
  rewrite Hres in Hres'. injection Hres' as <-.
  eapply Forall_impl; [exact Hfits|]. intros i Hi. unfold overflows in Hi.
  apply orb_false_iff in Hi. rewrite !Z.ltb_ge in Hi. exact Hi.
Qed.

Lemma fixHorizontalOverflows_keeps_valid_witness :
  exists newLayout h' (result : list (Obj unit)) arr',
    fixHorizontalOverflows grid3 0
      [[mkObj 0 0 0 2 2; mkObj 1 2 2 2 1; mkObj 2 2 0 2 1]]
    = (OK newLayout, h')
    /\ h' !! newLayout = Some result
    /\ layoutTo2DArray grid3 (fields <$> result) false = OK arr'.
Proof.
  destruct (fixHorizontalOverflows_keeps_valid grid3
              [[mkObj 0 0 0 2 2; mkObj 1 2 2 2 1; mkObj 2 2 0 2 1]] 0
              [mkObj 0 0 0 2 2; mkObj 1 2 2 2 1; mkObj 2 2 0 2 1])
    with (arr := fromList [fromList [true; true; true];
                           fromList [true; true; false];
                           fromList [false; false; true]])
    as (newLayout & h' & result & arr' & Hfix & Hres & Harr' & _).
  - reflexivity.
  - vm_compute. reflexivity.
  - by exists newLayout, h', result, arr'.
Defined.

(** X12 — A repaired layout needs no repair. In the layout that the
    repair returns no item passes column [columns] or row [rows], so
    that repairing it again returns a new array that holds the very same
    objects in the same order, and leaves the first result as it is. *)
Theorem fixHorizontalOverflows_repaired {T : Type} (grid : GridDimensions)
    (h h' : Heap T) (layout newLayout : nat) (items : list (Obj T)) :
  h !! layout = Some items ->
  fixHorizontalOverflows grid layout h = (OK newLayout, h') ->
  exists result again h'',
    h' !! newLayout = Some result
    /\ Forall (fun i =>
                 x (itemPosition (fields i)) + width (itemSize (fields i))
                 <= columns grid
                 /\ y (itemPosition (fields i)) + height (itemSize (fields i))
                    <= rows grid) result
    /\ fixHorizontalOverflows grid newLayout h' = (OK again, h'')
    /\ again ≠ newLayout
    /\ h'' !! again = Some result
    /\ h'' !! newLayout = Some result.
Proof.
  intros Hlayout Hfix.
  destruct (fixHorizontalOverflows_twice grid h h' layout newLayout items
              Hlayout Hfix) as (result & Hres & Hfits & Hagain).
  exists result, (length h'), (h' ++ [result]).
  split; [assumption|]. split; [|split; [assumption|split; [|split]]].
  - eapply Forall_impl; [exact Hfits|]. intros i Hi. unfold overflows in Hi.
    apply orb_false_iff in Hi. rewrite !Z.ltb_ge in Hi. exact Hi.
  - apply lookup_lt_Some in Hres. lia.
  - apply lookup_newArray.
  - by apply lookup_app_l_Some.
Qed.

Lemma fixHorizontalOverflows_repaired_witness :
  exists newLayout h' result again h'',
    fixHorizontalOverflows grid3 0
      [[mkObj 0 0 0 2 2; mkObj 1 2 2 2 1; mkObj 2 2 1 2 2]]
    = (OK newLayout, h')
    /\ h' !! newLayout = Some result
    /\ fixHorizontalOverflows grid3 newLayout h' = (OK again, h'')
    /\ h'' !! again = Some result.
Proof.
  destruct (fixHorizontalOverflows grid3 0
              [[mkObj 0 0 0 2 2; mkObj 1 2 2 2 1; mkObj 2 2 1 2 2]])
    as [outcome h'] eqn:Hfix.
  assert (exists newLayout, outcome = OK newLayout) as [newLayout ->].
  { vm_compute in Hfix. injection Hfix as <- _. by eexists. }
  destruct (fixHorizontalOverflows_repaired grid3
              [[mkObj 0 0 0 2 2; mkObj 1 2 2 2 1; mkObj 2 2 1 2 2]]
              h' 0 newLayout
              [mkObj 0 0 0 2 2; mkObj 1 2 2 2 1; mkObj 2 2 1 2 2]
              eq_refl Hfix)
    as (result & again & h'' & Hres & _ & Hagain & _ & Hres' & _).
  by exists newLayout, h', result, again, h''.
Defined.

(** X13 — The repair adds no item. The layout that the repair returns
    has at most as many items as the input; and when an address stands
    for one object, it has at least as many items as the input has items
    that do not overflow: only an overflowing item can be lost. *)
Theorem fixHorizontalOverflows_length {T : Type} (grid : GridDimensions)
    (h h' : Heap T) (layout newLayout : nat) (items : list (Obj T)) :
  h !! layout = Some items ->
  fixHorizontalOverflows grid layout h = (OK newLayout, h') ->
  exists result : list (Obj T),
    h' !! newLayout = Some result
    /\ (length result <= length items)%nat
    /\ ((forall a b, a ∈ items -> b ∈ items -> addr a = addr b -> a = b) ->
        (length items - length (overflowing grid items)
         <= length result)%nat).
Proof.
  intros Hlayout H. unfold fixHorizontalOverflows in H.
  rewrite (elements_lookup _ _ _ Hlayout) in H. simpl in H.
  destruct (repairLoop_spec grid h items items (fun i Hi => Hi) [] []
              (length h) (h ++ [items]) newLayout h')
    as (_ & _ & outcomes & Hlen & Hres & _).
  - intros r Hr. by apply lookup_app_l.
  - reflexivity.
  - rewrite remaining_nil, app_nil_r. apply lookup_newArray.
  - intros i Hi. apply (elem_of_heap _ (length h) items);
      [apply lookup_newArray|assumption].
  - intros new Hnew. by apply elem_of_nil in Hnew.
  - exact H.
  - simpl in Hres. eexists. split; [exact Hres|].
    rewrite length_app. split.
    + pose proof (length_created outcomes) as Hc.
      rewrite Hlen in Hc. rewrite overflowing_overflows in Hc |- *.
      pose proof (length_filter_disjoint
                    (fun i => addr i ∉ addr <$>
                       filter (fun i => overflows grid (fields i) = true) items)
                    (fun i => overflows grid (fields i) = true) items) as Hd.
      unfold remaining. etrans; [|apply Hd].
      * lia.
      * intros a Ha Hnot Hov. apply Hnot. apply list_elem_of_fmap_2.
        by apply list_elem_of_filter.
    + intros Hobj. rewrite remaining_overflowing by assumption.
      rewrite fitting_overflows, overflowing_overflows.
      pose proof (length_filter_split
                    (fun i => overflows grid (fields i) = true)
                    (fun i => overflows grid (fields i) = false) items) as Hs.
      rewrite <- Hs; [lia|].
      intros a. by destruct (overflows grid (fields a)).
Qed.

Lemma fixHorizontalOverflows_length_witness :
  exists newLayout h' (result : list (Obj unit)),
    fixHorizontalOverflows grid3 0
      [[mkObj 0 0 0 2 2; mkObj 1 2 2 2 1; mkObj 2 2 1 2 2]]
    = (OK newLayout, h')
    /\ h' !! newLayout = Some result
    /\ (length result <= 3)%nat.
Proof.
  destruct (fixHorizontalOverflows grid3 0
              [[mkObj 0 0 0 2 2; mkObj 1 2 2 2 1; mkObj 2 2 1 2 2]])
    as [outcome h'] eqn:Hfix.
  assert (exists newLayout, outcome = OK newLayout) as [newLayout ->].
  { vm_compute in Hfix. injection Hfix as <- _. by eexists. }
  destruct (fixHorizontalOverflows_length grid3
              [[mkObj 0 0 0 2 2; mkObj 1 2 2 2 1; mkObj 2 2 1 2 2]]
              h' 0 newLayout
              [mkObj 0 0 0 2 2; mkObj 1 2 2 2 1; mkObj 2 2 1 2 2]
              eq_refl Hfix) as (result & Hres & Hlen & _).
  by exists newLayout, h', result.
Defined.





(** X17 — Cells and their pixel positions. For boxes of a size other
    than 0 different cells have different pixel positions, while for
    boxes of size 0 every cell is at pixel [(0, 0)]. Every candidate of
    [snapToSector] carries the pixel position that
    [positionToPixelPosition] gives for its cell. *)
Theorem positionToPixelPosition_cells (grid : GridDimensions) :
  (boxSize grid <> 0%R ->
   forall p q,
     positionToPixelPosition grid p = positionToPixelPosition grid q ->
     p = q)
  /\ (boxSize grid = 0%R ->
      forall p,
        positionToPixelPosition grid p = {| pixelX := 0; pixelY := 0 |})
  /\ forall query ranked a,
       snapToSector grid query = OK ranked -> a ∈ ranked ->
       pixelPosition a = positionToPixelPosition grid (position a).
Proof.
  split; [|split].
  - intros Hbox p q. by apply positionToPixelPosition_inj.
  - intros Hbox p. unfold positionToPixelPosition. rewrite Hbox.
    simpl. f_equal; ring.
  - intros query ranked a Hsnap Ha. rewrite snapToSector_unfold in Hsnap.
    case_decide; [|discriminate]. injection Hsnap as <-.
    rewrite sort_perm in Ha.
    by apply elem_of_possibleSnapPoints in Ha as (row & col & _ & _ & ->).
Qed.

(** X18 — Fewer items, an earlier slot. When the search finds a
    position for an item in a layout, it finds one in every layout that
    is left when items are taken away from it, and that position is the
    same or comes before it in row-major order. *)
Theorem findPosition_monotone {T : Type} (grid : GridDimensions)
    (layout layout' : Layout T) (item : LayoutItemSize) (p : Position) :
  layout' `sublist_of` layout ->
  findPositionForItemInGrid grid layout item = OK (Some p) ->
  exists p',
    findPositionForItemInGrid grid layout' item = OK (Some p')
    /\ rowMajorLe p' p.
Proof.
  intros Hsub Hfind.
  destruct (findPosition_returns _ _ _ _ Hfind) as [arr Harr].
  destruct (findPosition_spec grid layout item arr Harr) as (r & Hr & Hspec).
  rewrite Hfind in Hr. injection Hr as <-.
  destruct Hspec as (Hin & (Hfree & Hfits & Hcoll) & _).
  destruct (layoutTo2DArray_sublist grid layout layout' false Hsub)
    as [arr' Harr']; [eauto|].
  assert (forall cx cy, occupied arr cx cy = false ->
                        occupied arr' cx cy = false) as Hless.
  { apply layoutTo2DArray_OK in Harr as [_ Hocc].
    apply layoutTo2DArray_OK in Harr' as [_ Hocc'].
    intros cx cy Hc. destruct (occupied arr' cx cy) eqn:Hc'; [|reflexivity].
    rewrite <- Hc. symmetry. apply Hocc.
    apply Hocc' in Hc' as (? & ? & other & Hother & ?).
    split; [done|]. split; [done|]. exists other.
    split; [by eapply elem_of_sublist|done]. }
  assert (accepted grid arr' item p) as Hacc.
  { split; [by apply Hless|]. split; [assumption|].
    intros cx cy Hcov. by apply Hless, Hcoll. }
  destruct (findPosition_spec grid layout' item arr' Harr')
    as (r' & Hr' & Hspec').
  destruct r' as [p'|]; [|by destruct (Hspec' p Hin)].
  exists p'. split; [assumption|].
  destruct Hspec' as (_ & _ & Hfirst). unfold rowMajorLe.
  destruct (decide (rowMajorLt p p')) as [Hlt|Hge].
  - by destruct (Hfirst p Hin Hlt).
  - unfold rowMajorLt in Hge. lia.
Qed.

Lemma findPosition_monotone_witness :
  exists p',
    findPositionForItemInGrid grid3 [mkItem 2 2 1 1] (mkSize 1 1)
    = OK (Some p')
    /\ rowMajorLe p' {| x := 2; y := 0 |}.
Proof.
  apply (findPosition_monotone grid3 [mkItem 0 0 2 2; mkItem 2 2 1 1]
           [mkItem 2 2 1 1] (mkSize 1 1) {| x := 2; y := 0 |}).
  - apply sublist_cons, sublist_skip, sublist_nil.
  - vm_compute. reflexivity.
Defined.

(** X19 — The overlap flag decides about the error only. A matrix
    that is built with overlap disallowed is the matrix that is built
    with overlap allowed; and when building with overlap allowed throws,
    the error is not the overlap error, and building with overlap
    disallowed throws too. *)
Theorem layoutTo2DArray_flag {T : Type} (grid : GridDimensions)
    (layout : Layout T) :
  (forall arr,
     layoutTo2DArray grid layout false = OK arr ->
     layoutTo2DArray grid layout true = OK arr)
  /\ forall e,
       layoutTo2DArray grid layout true = Err e ->
       (e = RangeError \/ e = TypeError)
       /\ exists e', layoutTo2DArray grid layout false = Err e'.
Proof.
  assert (forall arr,
            layoutTo2DArray grid layout false = OK arr ->
            layoutTo2DArray grid layout true = OK arr) as Hflag.
  { intros arr Harr.
    assert (exists arr', layoutTo2DArray grid layout true = OK arr')
      as [arr' Harr'].
    { apply layoutTo2DArray_returns.
      destruct (proj1 (layoutTo2DArray_returns grid layout false))
        as (Hrows & Hcols & Hzero & _); [eauto|].
      split; [assumption|]. split; [assumption|].
      split; [assumption|discriminate]. }
    rewrite Harr'. f_equal. symmetry.
    destruct (layoutTo2DArray_OK _ _ _ _ Harr) as [Hdim Hocc].
    destruct (layoutTo2DArray_OK _ _ _ _ Harr') as [Hdim' Hocc'].
    apply (matrix_ext grid); try assumption;
      [by eapply layoutTo2DArray_marksOutside..|].
    intros cx cy. apply eq_true_iff_eq. by rewrite Hocc, Hocc'. }
  split; [exact Hflag|]. intros e He. split.
  - apply layoutTo2DArray_Err in He as [[-> _]|[[-> _]|[_ [=]]]]; auto.
  - destruct (layoutTo2DArray grid layout false) as [arr|e'] eqn:H;
      [|by exists e'].
    specialize (Hflag arr eq_refl). congruence.
Qed.

(** X20 — The column width stays between the two sizes. Whatever the
    container width is, and whatever the division, [Math.floor] and
    [Math.round] return, for a desired size that is not [NaN] the
    column width is a number that is not [NaN] and not greater than the
    desired size; it is not smaller than the minimal box size when that
    is not greater than the desired size, and it is the desired size
    when the minimal box size is greater or [NaN]. For a desired size
    that is [NaN] the column width is [NaN]. *)
Theorem calculateColumnWidth_bounds {V : Type} {N : JsNumbers V}
    {L : JsNumbersLaws V}
    (containerWidth minBoxSize : number V) :
  (forall desiredSize : V,
     exists r,
       calculateColumnWidth containerWidth (Num desiredSize) minBoxSize
       = Num r
       /\ numLe r desiredSize
       /\ (minBoxSize = NaN -> r = desiredSize)
       /\ forall m,
            minBoxSize = Num m ->
            (numLe m desiredSize -> numLe m r)
            /\ (~ numLe m desiredSize -> r = desiredSize))
  /\ calculateColumnWidth containerWidth NaN minBoxSize = NaN.
Proof.
  split.
  - intros d. unfold calculateColumnWidth.
    set (v := Math_floor _).
    assert (numLe d d) as Hdd by (destruct (numLe_total d d); assumption).
    destruct (Math_max v minBoxSize) as [|w] eqn:Hmax.
    { exists d. simpl. split; [reflexivity|]. split; [assumption|].
      split; [done|]. intros m Hm. split; [done|done]. }
    apply Math_max_Num in Hmax as (u & m' & _ & -> & _ & Hm' & _).
    simpl. case_decide as Hwd; simpl.
    + exists w. split; [reflexivity|]. split; [assumption|].
      split; [discriminate|]. intros m [= <-]. split; [done|].
      intros Hnot. destruct Hnot. by eapply numLe_trans.
    + exists d. split; [reflexivity|]. split; [assumption|].
      split; [done|]. intros m [= <-]. split; done.
  - unfold calculateColumnWidth.
    by destruct (Math_max _ minBoxSize).
Qed.

Lemma calculateColumnWidth_bounds_witness :
  calculateColumnWidth (Num (Some 1000)) (Num (Some 300)) (Num (Some 100))
  = Num (Some 300)
  /\ exists r,
       calculateColumnWidth (Num (Some 0)) (Num (Some 300)) (Num (Some 100))
       = Num r
       /\ numLe r (Some 300).
Proof.
  split; [vm_compute; reflexivity|].
  destruct (proj1 (calculateColumnWidth_bounds (L := integerNumbers_laws)
                     (Num (Some 0)) (Num (Some 100))) (Some 300))
    as (r & Hr & Hle & _).
  by exists r.
Defined.

(** X21 — The measured extents contain the layout. In the dimensions
    that [calculateDimensions] returns, [columns] is [NaN] exactly when
    [minColumns] is; when it is a number, [minColumns] is a number that
    is not greater, and no item of the layout has an [x + width] that is
    greater; the same holds of [rows], [minRows] and [y + height]. So no
    item of the layout overflows a grid that has the measured
    extents. *)
Theorem calculateDimensions_extents {V T : Type} {N : JsNumbers V}
    {L : JsNumbersLaws V}
    (desiredSize minSize : number V) (layout : Layout T)
    (el : HTMLElement V) :
  let dims := calculateDimensions desiredSize minSize layout el in
  (measuredColumns dims = NaN <-> measuredMinColumns dims = NaN)
  /\ (measuredRows dims = NaN <-> measuredMinRows dims = NaN)
  /\ (forall c,
        measuredColumns dims = Num c ->
        (exists mc, measuredMinColumns dims = Num mc /\ numLe mc c)
        /\ forall i, i ∈ layout ->
             numLe (ofInteger (x (itemPosition i) + width (itemSize i))) c)
  /\ (forall r,
        measuredRows dims = Num r ->
        (exists mr, measuredMinRows dims = Num mr /\ numLe mr r)
        /\ forall i, i ∈ layout ->
             numLe (ofInteger (y (itemPosition i) + height (itemSize i))) r)
  /\ forall grid,
       measuredColumns dims = Num (ofInteger (columns grid)) ->
       measuredRows dims = Num (ofInteger (rows grid)) ->
       Forall (fun i => overflows grid i = false) layout.
Proof.
  assert (forall (mn : number V) (f : LayoutItem T -> Z),
            (Math_max mn (Math_max_of ((fun i => Num (ofInteger (f i)))
                                       <$> layout)) = NaN <-> mn = NaN)
            /\ forall c,
                 Math_max mn (Math_max_of ((fun i => Num (ofInteger (f i)))
                                           <$> layout)) = Num c ->
                 (exists m, mn = Num m /\ numLe m c)
                 /\ forall i, i ∈ layout -> numLe (ofInteger (f i)) c)
    as Hmax.
  { intros mn f. split.
    - destruct (Math_max_of_integers (f <$> layout)) as [v Hv].
      rewrite <- list_fmap_compose in Hv. unfold compose in Hv. rewrite Hv.
      destruct mn as [|m]; simpl; [done|]. by case_decide.
    - intros c Hc.
      apply Math_max_Num in Hc as (m & v & -> & Hv & Hm & Hvc & _).
      split; [by exists m|]. intros i Hi.
      destruct (Math_max_of_Num _ _ Hv (Num (ofInteger (f i))))
        as (v' & [= <-] & Hle).
      + apply list_elem_of_fmap. by exists i.
      + by eapply numLe_trans. }
  intros dims. unfold dims, calculateDimensions. simpl.
  split; [apply Hmax|]. split; [apply Hmax|].
  split; [apply Hmax|]. split; [apply Hmax|].
  intros grid Hcols Hrows. apply Forall_forall. intros i Hi.
  unfold overflows. apply orb_false_iff. rewrite !Z.ltb_ge. split.
  - apply ofInteger_le. by apply (proj2 (Hmax _ _) _ Hcols).
  - apply ofInteger_le. by apply (proj2 (Hmax _ _) _ Hrows).
Qed.

Lemma calculateDimensions_extents_witness :
  measuredColumns
    (calculateDimensions (Num (Some 10)) (Num (Some 5))
       [mkItem 0 0 2 2; mkItem 3 1 2 2] measuredElement)
  = Num (Some 5)
  /\ measuredRows
       (calculateDimensions (Num (Some 10)) (Num (Some 5))
          [mkItem 0 0 2 2; mkItem 3 1 2 2] measuredElement)
     = Num (Some 4)
  /\ Forall (fun i => overflows
                        {| boxSize := 10; columns := 5; rows := 4;
                           minColumns := 3; minRows := 4 |} i = false)
       [mkItem 0 0 2 2; mkItem 3 1 2 2].
Proof.
  split; [vm_compute; reflexivity|]. split; [vm_compute; reflexivity|].
  apply (proj2 (proj2 (proj2 (proj2
           (calculateDimensions_extents (L := integerNumbers_laws)
              (Num (Some 10)) (Num (Some 5))
              [mkItem 0 0 2 2; mkItem 3 1 2 2] measuredElement)))));
    vm_compute; reflexivity.
Defined.



(** X23 — The grids that the snap resolver rejects. [snapToSector]
    throws exactly when [rows] is no array length (it is negative, or
    [2 ** 32] or more), or [rows] is positive and [columns] is no array
    length, and the error is a [RangeError]; these are the grids for
    which [layoutTo2DArray] throws a [RangeError] whatever the layout.
    For a grid without cells ([rows] is 0, or [columns] is 0 and [rows]
    is an array length) it returns the empty ranking. *)
Theorem snapToSector_edges (grid : GridDimensions) (query : PixelPosition R) :
  (forall e,
     snapToSector grid query = Err e
     <-> e = RangeError
         /\ (rows grid < 0 \/ 2 ^ 32 <= rows grid
             \/ (0 < rows grid
                 /\ (columns grid < 0 \/ 2 ^ 32 <= columns grid))))
  /\ ((exists e, snapToSector grid query = Err e)
      <-> forall (layout : Layout unit) allowOverlay,
            layoutTo2DArray grid layout allowOverlay = Err RangeError)
  /\ (rows grid = 0 \/ (0 <= rows grid < 2 ^ 32 /\ columns grid = 0) ->
      snapToSector grid query = OK []).
Proof.
  assert (forall e,
            snapToSector grid query = Err e
            <-> e = RangeError /\ ~ buildable grid) as Herr.
  { intros e. rewrite snapToSector_unfold.
    case_decide; (split; [intros [=]|intros [-> ?]]); done. }
  split; [|split; [split|]].
  - intros e. rewrite Herr. unfold buildable. split; (intros [-> ?]; split);
      try reflexivity; lia.
  - intros [e He] layout allow. apply Herr in He as [_ Hbad].
    unfold layoutTo2DArray. by rewrite emptyGrid_unfold, decide_False.
  - intros Hall. exists RangeError. apply Herr. split; [reflexivity|].
    specialize (Hall [] false). unfold layoutTo2DArray in Hall.
    rewrite emptyGrid_unfold in Hall. case_decide; [discriminate|assumption].
  - intros Hnone. rewrite snapToSector_unfold, decide_True
      by (unfold buildable; lia).
    f_equal. apply Permutation_nil_r. rewrite sort_perm.
    unfold possibleSnapPoints.
    destruct Hnone as [->|[_ ->]]; [reflexivity|].
    by rewrite bind_all_nil.
Qed.



(** X25 — The owner of the scroll area knows the overflow status.
    Over any run of resizes, the refs of the component end up with the
    status of the last viewport that was there to be measured (and stay
    as they were when there was none). When the vertical callback is
    given, the status that it was last called with — or, if it was not
    called, the status that the ref started with — is the status in the
    vertical ref; when it is not given, no call of it is made. The same
    holds for the horizontal callback and ref. *)
Theorem overflow_status_reported (props : ScrollAreaProps)
    (viewports : list (option Element)) (refs : OverflowRefs) :
  let calls := (resizes props viewports refs).1 in
  let refs' := (resizes props viewports refs).2 in
  verticalOverflowRef refs'
  = lastStatus checkVerticalOverflow (verticalOverflowRef refs) viewports
  /\ horizontalOverflowRef refs'
     = lastStatus checkHorizontalOverflow (horizontalOverflowRef refs)
         viewports
  /\ (onVerticalOverflowStatusChange props = true ->
      default (verticalOverflowRef refs) (last (verticalCalls calls))
      = verticalOverflowRef refs')
  /\ (onHorizontalOverflowStatusChange props = true ->
      default (horizontalOverflowRef refs) (last (horizontalCalls calls))
      = horizontalOverflowRef refs')
  /\ (onVerticalOverflowStatusChange props = false -> verticalCalls calls = [])
  /\ (onHorizontalOverflowStatusChange props = false ->
      horizontalCalls calls = []).
Proof.
  intros calls refs'. unfold calls, refs'.
  destruct (resizes_channel props verticalOverflowRef checkVerticalOverflow
              (onVerticalOverflowStatusChange props) verticalCalls)
    with (viewports := viewports) (refs := refs) as (Hv1 & _ & Hv3 & Hv4).
  { reflexivity. }
  { apply verticalCalls_app. }
  { intros el r. apply onContentResize_calls. }
  { intros el r.
    by destruct (onContentResize_calls props el r) as (_ & _ & ->). }
  destruct (resizes_channel props horizontalOverflowRef
              checkHorizontalOverflow
              (onHorizontalOverflowStatusChange props) horizontalCalls)
    with (viewports := viewports) (refs := refs) as (Hh1 & _ & Hh3 & Hh4).
  { reflexivity. }
  { apply horizontalCalls_app. }
  { intros el r. apply onContentResize_calls. }
  { intros el r.
    by destruct (onContentResize_calls props el r) as (_ & _ & ->). }
  auto 10.
Qed.

(** X26 — A callback is told of changes only. Over any run of resizes
    each callback is called with statuses that alternate: never twice in
    a row with the same status, and first with the opposite of the
    status that its ref started with. From the initial refs, which are
    [false], the first call of a callback is with [true]. *)
Theorem overflow_status_alternates (props : ScrollAreaProps)
    (viewports : list (option Element)) (refs : OverflowRefs) :
  alternates (verticalOverflowRef refs)
    (verticalCalls (resizes props viewports refs).1)
  /\ alternates (horizontalOverflowRef refs)
       (horizontalCalls (resizes props viewports refs).1)
  /\ (forall status rest,
        verticalCalls (resizes props viewports initialRefs).1
        = status :: rest -> status = true)
  /\ (forall status rest,
        horizontalCalls (resizes props viewports initialRefs).1
        = status :: rest -> status = true).
Proof.
  assert (forall refs0,
            alternates (verticalOverflowRef refs0)
              (verticalCalls (resizes props viewports refs0).1)) as Hv.
  { intros refs0.
    destruct (resizes_channel props verticalOverflowRef checkVerticalOverflow
                (onVerticalOverflowStatusChange props) verticalCalls)
      with (viewports := viewports) (refs := refs0) as (_ & Halt & _).
    - reflexivity.
    - apply verticalCalls_app.
    - intros el r. apply onContentResize_calls.
    - intros el r.
      by destruct (onContentResize_calls props el r) as (_ & _ & ->).
    - exact Halt. }
  assert (forall refs0,
            alternates (horizontalOverflowRef refs0)
              (horizontalCalls (resizes props viewports refs0).1)) as Hh.
  { intros refs0.
    destruct (resizes_channel props horizontalOverflowRef
                checkHorizontalOverflow
                (onHorizontalOverflowStatusChange props) horizontalCalls)
      with (viewports := viewports) (refs := refs0) as (_ & Halt & _).
    - reflexivity.
    - apply horizontalCalls_app.
    - intros el r. apply onContentResize_calls.
    - intros el r.
      by destruct (onContentResize_calls props el r) as (_ & _ & ->).
    - exact Halt. }
  split; [apply Hv|]. split; [apply Hh|]. split.
  - intros status rest Hcalls. specialize (Hv initialRefs).
    rewrite Hcalls in Hv. by destruct Hv as [-> _].
  - intros status rest Hcalls. specialize (Hh initialRefs).
    rewrite Hcalls in Hh. by destruct Hh as [-> _].
Qed.

(** X27 — An item is in its own way. For an item of the layout that
    has at least one cell and a [y] that is not negative, the placement
    test at the item's own position, against the layout that holds it,
    answers [false]: the item has to be taken out of the layout before
    a place is tested for it, which is what the repair does. *)
Theorem canPlaceItemInGrid_own_position {T : Type} (grid : GridDimensions)
    (layout : Layout T) (item : LayoutItem T) (arr : Grid2DArray) :
  layoutTo2DArray grid layout false = OK arr ->
  item ∈ layout ->
  1 <= width (itemSize item) -> 1 <= height (itemSize item) ->
  0 <= y (itemPosition item) ->
  canPlaceItemInGrid grid layout (itemSize item) (itemPosition item)
  = OK false.
Proof.
  intros Harr Hitem Hw Hh Hy.
  destruct (canPlace_spec grid layout (itemSize item) (itemPosition item)
              arr Harr Hy) as (b & -> & Hiff).
  destruct b; [|reflexivity]. exfalso.
  destruct (proj1 Hiff eq_refl) as (_ & _ & Hfree).
  apply (Hfree (x (itemPosition item)) (y (itemPosition item)) item);
    [|assumption|]; unfold covers; simpl; lia.
Qed.

Lemma canPlaceItemInGrid_own_position_witness :
  canPlaceItemInGrid grid3 [mkItem 0 0 2 2; mkItem 2 2 1 1] (mkSize 1 1)
    {| x := 2; y := 2 |}
  = OK false.
Proof.
  destruct (layoutTo2DArray grid3 [mkItem 0 0 2 2; mkItem 2 2 1 1] false)
    as [arr|e] eqn:Harr; [|vm_compute in Harr; discriminate].
  apply (canPlaceItemInGrid_own_position grid3
           [mkItem 0 0 2 2; mkItem 2 2 1 1] (mkItem 2 2 1 1) arr Harr).
  - apply list_elem_of_further, list_elem_of_here.
  - simpl. lia.
  - simpl. lia.
  - simpl. lia.
Defined.

(** X28 — An item put where the search said keeps the layout sound.
    When the search returns a position for a size, the layout with an
    item of that size added at that position has an occupancy matrix
    that can be built: its occupied cells are those of the layout and
    the cells of the new item, which were free; and the placement test
    now answers [false] at that position for an item of at least one
    cell. *)
Theorem findPosition_then_add {T : Type} (grid : GridDimensions)
    (layout : Layout T) (new : LayoutItem T) :
  findPositionForItemInGrid grid layout (itemSize new)
  = OK (Some (itemPosition new)) ->
  exists arr arr',
    layoutTo2DArray grid layout false = OK arr
    /\ layoutTo2DArray grid (layout ++ [new]) false = OK arr'
    /\ (forall cx cy,
          occupied arr' cx cy = true
          <-> occupied arr cx cy = true \/ covers new cx cy)
    /\ (forall cx cy, covers new cx cy -> occupied arr cx cy = false)
    /\ (1 <= width (itemSize new) -> 1 <= height (itemSize new) ->
        canPlaceItemInGrid grid (layout ++ [new]) (itemSize new)
          (itemPosition new)
        = OK false).
Proof.
  intros Hfind.
  destruct (findPosition_returns _ _ _ _ Hfind) as [arr Harr].
  destruct (layoutTo2DArray_snoc_found grid layout new Hfind)
    as [arr' Harr'].
  destruct (findPosition_spec grid layout (itemSize new) arr Harr)
    as (r & Hr & Hspec).
  rewrite Hfind in Hr. injection Hr as <-.
  destruct Hspec as (_ & (_ & (Hx & Hy & Hw & Hh) & Hcoll) & _).
  exists arr, arr'. split; [assumption|]. split; [assumption|].
  split; [|split].
  - destruct (layoutTo2DArray_OK _ _ _ _ Harr) as [_ Hocc].
    destruct (layoutTo2DArray_OK _ _ _ _ Harr') as [_ Hocc'].
    intros cx cy. rewrite Hocc', Hocc. split.
    + intros (Hcx & Hcy & item & Hitem & Hcov).
      apply elem_of_app in Hitem as [Hitem|Hitem].
      * left. eauto.
      * apply list_elem_of_singleton in Hitem as ->. by right.
    + intros [(Hcx & Hcy & item & Hitem & Hcov)|Hcov].
      * split; [done|]. split; [done|]. exists item.
        split; [apply elem_of_app; by left|done].
      * unfold covers in Hcov. split; [lia|]. split; [lia|].
        exists new. split; [|exact Hcov].
        apply elem_of_app. right. apply list_elem_of_here.
  - intros cx cy Hcov. apply Hcoll. exact Hcov.
  - intros Hw1 Hh1.
    destruct (canPlace_spec grid (layout ++ [new]) (itemSize new)
                (itemPosition new) arr' Harr' Hy) as (b & -> & Hiff).
    destruct b; [|reflexivity]. exfalso.
    destruct (proj1 Hiff eq_refl) as (_ & _ & Hfree).
    apply (Hfree (x (itemPosition new)) (y (itemPosition new)) new).
    + unfold covers. simpl. lia.
    + apply elem_of_app. right. apply list_elem_of_here.
    + unfold covers. lia.
Qed.

Lemma findPosition_then_add_witness :
  exists arr',
    layoutTo2DArray grid3 ([mkItem 0 0 2 2] ++ [mkItem 2 0 1 1]) false
    = OK arr'
    /\ occupied arr' 2 0 = true.
Proof.
  destruct (findPosition_then_add grid3 [mkItem 0 0 2 2] (mkItem 2 0 1 1))
    as (arr & arr' & _ & Harr' & Hocc & _).
  - vm_compute. reflexivity.
  - exists arr'. split; [assumption|]. apply Hocc. right.
    unfold covers. simpl. lia.
Defined.
